(** * Game-tree search engine: minimax with alpha-beta pruning and MCTS

    A shallow embedding of [minimax-abprune-mcts/visualizer_all.py] and
    [minimax-abprune-mcts/visualizer_minimax.py].

    Only the algorithmic core is embedded.  Everything the scene draws
    ([manim_obj], [value_text], the decision box, the calls to
    [self.play] and [self.wait]) never flows back into a value the
    algorithms read, and is left out; the layout ([x_pos], [y_pos],
    [_calculate_positions]) is embedded on its own, apart from
    [TreeNode].

    Numbers.  Leaf payoffs are the integers of the JSON tree file; the
    bounds [float("-inf")] and [float("inf")] are the two extra points of
    [ext Z].  UCB1 scores are Python floats; they are idealised as real
    numbers ([ext R]), again with the two infinities.  The exploration
    weight is a real number: [json.load] also reads [NaN], [Infinity] and
    [-Infinity], and these, like rounding, are outside the model, so that
    every statement about a weight is about a weight that is a number.

    Object identity.  A [TreeNode] object is owned by exactly one parent
    ([add_child] is the only place that links nodes), so the object graph
    is a rose tree and a reference to a node is its address: the list of
    child indices leading to it, deepest index first.  [node.parent] is
    then the tail of the address, and the root is the only node whose
    parent is [None]. *)

From Stdlib Require Import List ZArith Bool String Lia Arith.
From Stdlib Require Import Reals Lra.
From Stdlib Require Import Orders OrdersTac.
Import ListNotations.

Set Implicit Arguments.
Set Warnings "-register-all".

(** ** Extended numbers *)

Inductive ext (A : Type) : Type :=
| NegInf : ext A
| Fin (a : A) : ext A
| PosInf : ext A.

Arguments NegInf {A}.
Arguments PosInf {A}.

Section ExtOrder.
Context {A : Type}.
Variable ltb : A -> A -> bool.

(** [x < y] *)
Definition ext_ltb (x y : ext A) : bool :=
  match x, y with
  | NegInf, NegInf => false
  | NegInf, _ => true
  | Fin a, Fin b => ltb a b
  | Fin _, PosInf => true
  | _, _ => false
  end.

(** [x <= y], on numbers: not [y < x] *)
Definition ext_leb (x y : ext A) : bool := negb (ext_ltb y x).

(** Python's [max(x, y)]: the first argument unless the second is
    strictly greater. *)
Definition ext_max (x y : ext A) : ext A := if ext_ltb x y then y else x.

(** Python's [min(x, y)]: the first argument unless the second is
    strictly smaller. *)
Definition ext_min (x y : ext A) : ext A := if ext_ltb y x then y else x.
End ExtOrder.

Definition zext := ext Z.
Definition zlt : zext -> zext -> bool := ext_ltb Z.ltb.
Definition zle : zext -> zext -> bool := ext_leb Z.ltb.
Definition zmax : zext -> zext -> zext := ext_max Z.ltb.
Definition zmin : zext -> zext -> zext := ext_min Z.ltb.

(** ** Exceptions *)

Inductive exn : Type :=
| KeyError
| TypeError
| IndexError
| AttributeError
| ZeroDivisionError.

Inductive result (A : Type) : Type :=
| Ok (a : A)
| Raise (e : exn).

Arguments Raise {A} e.

Definition bind {A B : Type} (m : result A) (k : A -> result B) : result B :=
  match m with
  | Ok a => k a
  | Raise e => Raise e
  end.

Notation "x <- m ;; k" := (bind m (fun x => k))
  (at level 61, m at next level, right associativity).
Notation "' p <- m ;; k" := (bind m (fun x => let p := x in k))
  (at level 61, p pattern, m at next level, right associativity).

(** ** The tree file *)

(** One node of the JSON tree: [data["id"]], [data.get("value")] and
    [data.get("children", [])].  A missing ["id"] key is [None]. *)
Inductive json_node : Type :=
| JNode (jid : option string) (jvalue : option Z) (jchildren : list json_node).

(** The document handed to [build_tree]: falsy, or a dictionary whose
    ["root"] key may be missing. *)
Inductive tree_data : Type :=
| EmptyData
| Document (root : option json_node).

(** ** class TreeNode (visualizer_all.py) *)

Inductive TreeNode : Type :=
| mkTreeNode (id : string) (value : option zext) (children : list TreeNode)
             (depth : nat) (is_max_node : bool) (alpha beta : zext)
             (pruned : bool) (visits wins : nat).

Definition id (n : TreeNode) : string :=
  match n with mkTreeNode i _ _ _ _ _ _ _ _ _ => i end.
Definition value (n : TreeNode) : option zext :=
  match n with mkTreeNode _ v _ _ _ _ _ _ _ _ => v end.
Definition children (n : TreeNode) : list TreeNode :=
  match n with mkTreeNode _ _ c _ _ _ _ _ _ _ => c end.
Definition depth (n : TreeNode) : nat :=
  match n with mkTreeNode _ _ _ d _ _ _ _ _ _ => d end.
Definition is_max_node (n : TreeNode) : bool :=
  match n with mkTreeNode _ _ _ _ m _ _ _ _ _ => m end.
Definition alpha (n : TreeNode) : zext :=
  match n with mkTreeNode _ _ _ _ _ a _ _ _ _ => a end.
Definition beta (n : TreeNode) : zext :=
  match n with mkTreeNode _ _ _ _ _ _ b _ _ _ => b end.
Definition pruned (n : TreeNode) : bool :=
  match n with mkTreeNode _ _ _ _ _ _ _ p _ _ => p end.
Definition visits (n : TreeNode) : nat :=
  match n with mkTreeNode _ _ _ _ _ _ _ _ v _ => v end.
Definition wins (n : TreeNode) : nat :=
  match n with mkTreeNode _ _ _ _ _ _ _ _ _ w => w end.

(** [TreeNode.__init__]: a node with no children, at depth 0, a MAX node,
    with the window fully open, not pruned and no statistics. *)
Definition new_TreeNode (i : string) (v : option zext) : TreeNode :=
  mkTreeNode i v [] 0 true NegInf PosInf false 0 0.

(** Field updates. *)
Definition set_children (n : TreeNode) (cs : list TreeNode) : TreeNode :=
  match n with
  | mkTreeNode i v _ d m a b p vi w => mkTreeNode i v cs d m a b p vi w
  end.
Definition set_depth_kind (n : TreeNode) (d : nat) (m : bool) : TreeNode :=
  match n with
  | mkTreeNode i v c _ _ a b p vi w => mkTreeNode i v c d m a b p vi w
  end.
Definition set_pruned (n : TreeNode) : TreeNode :=
  match n with
  | mkTreeNode i v c d m a b _ vi w => mkTreeNode i v c d m a b true vi w
  end.
Definition set_stats (n : TreeNode) (vi w : nat) : TreeNode :=
  match n with
  | mkTreeNode i v c d m a b p _ _ => mkTreeNode i v c d m a b p vi w
  end.

(** ** GameTreeVisualizer.build_tree and _build_subtree *)

(** [_build_subtree(parent, children_data, depth, is_max)] stamps the
    parent with [depth] and [is_max], then for every entry of
    [children_data] creates the child (the lookup [child_data["id"]]
    raises [KeyError] when the key is missing), appends it and recurses
    one level down with the kind flipped.

    The creation of a node and the call of [_build_subtree] on it always
    come together in the source (in [build_tree] for the root, in the loop
    body for a child), so the embedding takes the node's data and returns
    the finished node; the loop over [children_data] is [build_children]. *)
Fixpoint _build_subtree (data : json_node) (depth : nat) (is_max : bool)
  : result TreeNode :=
  match data with
  | JNode None _ _ => Raise KeyError
  | JNode (Some i) jvalue children_data =>
      let parent := set_depth_kind (new_TreeNode i (option_map (@Fin Z) jvalue))
                                   depth is_max in
      let fix build_children (l : list json_node) : result (list TreeNode) :=
        match l with
        | [] => Ok []
        | child_data :: rest =>
            child <- _build_subtree child_data (S depth) (negb is_max) ;;
            more <- build_children rest ;;
            Ok (child :: more)
        end in
      cs <- build_children children_data ;;
      Ok (set_children parent cs)
  end.

(** [build_tree]: [None] for a falsy document, otherwise the tree under
    [tree_data["root"]], the root at depth 0 and a MAX node. *)
Definition build_tree (data : tree_data) : result (option TreeNode) :=
  match data with
  | EmptyData => Ok None
  | Document None => Raise KeyError
  | Document (Some root_data) =>
      root <- _build_subtree root_data 0 true ;;
      Ok (Some root)
  end.

(** ** GameTreeVisualizer.minimax *)

(** The first value of [value]: [float("-inf")] at a MAX node,
    [float("inf")] at a MIN node. *)
Definition initial_value (is_max : bool) : zext :=
  if is_max then NegInf else PosInf.

Section MinimaxLoop.
(** [self.pruning] *)
Variable pruning : bool.
(** the recursive call [self.minimax(child, alpha, beta)] *)
Variable rec : TreeNode -> zext -> zext -> result (option zext * TreeNode).
(** [node.is_max_node] *)
Variable is_max : bool.

(** The loop [for i, child in enumerate(node.children)], from index [i]
    on, with the locals [value], [best_child] (the index of the child, or
    [None]), [alpha] and [beta].  It returns the final [value] and
    [best_child] and the children as the loop leaves them.

    A child that returns [None] (a leaf without a value) makes the
    comparison with [value], or the call of [max] or [min] that follows,
    raise [TypeError]. *)
Fixpoint children_loop (i : nat) (todo : list TreeNode) (value : zext)
         (best_child : option nat) (alpha beta : zext)
  : result (zext * option nat * list TreeNode) :=
  match todo with
  | [] => Ok (value, best_child, [])
  | child :: rest =>
      if pruned child then
        (* continue *)
        '(v, b, cs) <- children_loop (S i) rest value best_child alpha beta ;;
        Ok (v, b, child :: cs)
      else
        '(child_value, child') <- rec child alpha beta ;;
        match child_value with
        | None => Raise TypeError
        | Some child_value =>
            let update_value :=
              match best_child with
              | None => true
              | Some _ =>
                  (is_max && zlt value child_value)
                  || (negb is_max && zlt child_value value)
              end in
            let value := if update_value then child_value else value in
            let best_child := if update_value then Some i else best_child in
            let alpha := if is_max then zmax alpha value else alpha in
            let beta := if is_max then beta else zmin beta value in
            if pruning && zle beta alpha then
              (* every [node.children[i + 1 :]] is marked, then [break] *)
              Ok (value, best_child, child' :: map set_pruned rest)
            else
              '(v, b, cs) <- children_loop (S i) rest value best_child alpha beta ;;
              Ok (v, b, child' :: cs)
        end
  end.
End MinimaxLoop.

(** [minimax(node, alpha, beta)] returns what the Python function returns
    ([node.value] at a leaf, which may be [None]; [value] otherwise)
    together with the node as the call leaves it. *)
Fixpoint minimax (pruning : bool) (node : TreeNode) (alpha beta : zext)
  : result (option zext * TreeNode) :=
  match node with
  | mkTreeNode i v cs d m _ _ p vi w =>
      (* node.alpha = alpha; node.beta = beta *)
      match cs with
      | [] => Ok (v, mkTreeNode i v [] d m alpha beta p vi w)
      | _ :: _ =>
          '(value, _, cs') <-
            children_loop pruning (minimax pruning) m 0 cs
                          (initial_value m) None alpha beta ;;
          (* node.value = value *)
          Ok (Some value, mkTreeNode i (Some value) cs' d m alpha beta p vi w)
      end
  end.

(** The child that ends as [best_child] in [minimax(node, alpha, beta)]:
    the edge left highlighted as the best one. *)
Definition best_edge (pruning : bool) (node : TreeNode) (alpha beta : zext)
  : result (option nat) :=
  '(_, best_child, _) <-
    children_loop pruning (minimax pruning) (is_max_node node) 0
                  (children node) (initial_value (is_max_node node)) None
                  alpha beta ;;
  Ok best_child.

(** [run_minimax]: the call on the root with the window fully open. *)
Definition run_minimax (pruning : bool) (root : TreeNode)
  : result (option zext * TreeNode) :=
  minimax pruning root NegInf PosInf.

(** ** Node references *)

(** A reference to a node of the tree under the root: the child indices on
    the way down, the last step first.  The root is [[]]. *)
Definition address := list nat.

(** [node.parent]: [None] at the root. *)
Definition parent (a : address) : option address :=
  match a with
  | [] => None
  | _ :: up => Some up
  end.

(** The node found by following [path] (first step first) from [node]. *)
Fixpoint node_at (node : TreeNode) (path : list nat) : option TreeNode :=
  match path with
  | [] => Some node
  | i :: path' =>
      match nth_error (children node) i with
      | Some child => node_at child path'
      | None => None
      end
  end.

(** The object an address refers to. *)
Definition deref (root : TreeNode) (a : address) : option TreeNode :=
  node_at root (rev a).

(** [l] with [f] applied to its element of index [i]. *)
Fixpoint update_nth {A : Type} (f : A -> A) (i : nat) (l : list A) : list A :=
  match l, i with
  | [], _ => []
  | x :: l', O => f x :: l'
  | x :: l', S i' => x :: update_nth f i' l'
  end.

(** An assignment to fields of the object at [path]: the tree with [f]
    applied to that node. *)
Fixpoint update_at (f : TreeNode -> TreeNode) (node : TreeNode)
         (path : list nat) : TreeNode :=
  match path with
  | [] => f node
  | i :: path' =>
      set_children node
        (update_nth (fun child => update_at f child path') i (children node))
  end.

Definition assign (f : TreeNode -> TreeNode) (root : TreeNode) (a : address)
  : TreeNode :=
  update_at f root (rev a).

(** ** The random module *)

(** The generator is the stream of its future draws. *)
Definition rng := nat -> nat.

Definition next (g : rng) : rng := fun n => g (S n).

(** An index into a sequence of length [n], as [random.choice] draws it;
    [IndexError] on the empty sequence. *)
Definition random_index (g : rng) (n : nat) : result (nat * rng) :=
  match n with
  | O => Raise IndexError
  | S _ => Ok (g 0 mod n, next g)
  end.

(** [random.choice(l)] *)
Definition random_choice {A : Type} (g : rng) (l : list A) : result (A * rng) :=
  '(k, g') <- random_index g (List.length l) ;;
  match nth_error l k with
  | Some x => Ok (x, g')
  | None => Raise IndexError
  end.

(** [random.randint(0, 1)] *)
Definition random_randint01 (g : rng) : Z * rng :=
  (Z.of_nat (g 0 mod 2), next g).

(** ** UCB1 *)

Definition score := ext R.

Definition Rltb (x y : R) : bool := if Rlt_dec x y then true else false.
Definition Reqb (x y : R) : bool := if Req_dec_T x y then true else false.

Definition score_ltb : score -> score -> bool := ext_ltb Rltb.

(** [x == y] on scores *)
Definition score_eqb (x y : score) : bool :=
  match x, y with
  | NegInf, NegInf => true
  | Fin a, Fin b => Reqb a b
  | PosInf, PosInf => true
  | _, _ => false
  end.

(** [exploitation + exploration], the first term finite. *)
Definition score_add (exploitation : R) (exploration : score) : score :=
  match exploration with
  | NegInf => NegInf
  | Fin e => Fin (exploitation + e)%R
  | PosInf => PosInf
  end.

(** [calculate_ucb(node, exploration_weight)]; [node_parent] is the object
    [node.parent] ([None] at the root). *)
Definition calculate_ucb (node_parent : option TreeNode) (node : TreeNode)
           (exploration_weight : R) : score :=
  if Nat.eqb (visits node) 0 then PosInf
  else
    let exploitation := (INR (wins node) / INR (visits node))%R in
    let exploration :=
      match node_parent with
      | None => Fin 0%R
      | Some p =>
          if Nat.eqb (visits p) 0 then PosInf
          else Fin (exploration_weight
                    * sqrt (ln (INR (visits p)) / INR (visits node)))%R
      end in
    score_add exploitation exploration.

(** ** get_best_child *)

(** The loop [for child in node.children] of [get_best_child], from index
    [i] on: [inl k] when it returns child [k] at once, [inr best_children]
    when it runs to its end. *)
Fixpoint best_children_loop (node : TreeNode) (exploration_weight : R)
         (i : nat) (todo : list TreeNode) (best_value : score)
         (best_children : list nat) : nat + list nat :=
  match todo with
  | [] => inr best_children
  | child :: rest =>
      if Nat.eqb (visits child) 0 then inl i
      else
        let ucb := calculate_ucb (Some node) child exploration_weight in
        if score_ltb best_value ucb then
          best_children_loop node exploration_weight (S i) rest ucb [i]
        else if score_eqb ucb best_value then
          best_children_loop node exploration_weight (S i) rest best_value
                             (best_children ++ [i])
        else
          best_children_loop node exploration_weight (S i) rest best_value
                             best_children
  end.

(** [get_best_child(node, exploration_weight)]: the index of the child
    returned.  The weight and the scores are numbers, so that one of
    [ucb > best_value], [ucb == best_value] holds for the first child and
    [best_children] is not empty after the loop.  With a [NaN] weight both
    tests fail in Python and the list stays empty; [NaN] is outside the
    model. *)
Definition get_best_child (node : TreeNode) (exploration_weight : R) (g : rng)
  : result (nat * rng) :=
  match best_children_loop node exploration_weight 0 (children node)
                           NegInf [] with
  | inl k => Ok (k, g)
  | inr best_children => random_choice g best_children
  end.

(** ** The four phases *)

Definition all_visited (cs : list TreeNode) : bool :=
  forallb (fun child => Nat.ltb 0 (visits child)) cs.

Definition has_children (node : TreeNode) : bool :=
  match children node with
  | [] => false
  | _ :: _ => true
  end.

(** [mcts_selection]: the [while] loop with [current_node] at [node],
    whose address is [current].  One turn of the loop moves to the child
    [get_best_child] returns.  The result is the address of the selected
    node and the node itself. *)
Fixpoint mcts_selection (node : TreeNode) (current : address)
         (exploration_weight : R) (g : rng)
  : result (address * TreeNode * rng) :=
  match node with
  | mkTreeNode _ _ cs _ _ _ _ _ _ _ =>
      if has_children node && all_visited cs then
        '(k, g') <- get_best_child node exploration_weight g ;;
        nth k (map (fun next_node =>
                      mcts_selection next_node (k :: current)
                                     exploration_weight g') cs)
            (Raise IndexError)
      else Ok (current, node, g)
  end.

(** [unvisited = [child for child in node.children if child.visits == 0]],
    as indices, from index [i] on. *)
Fixpoint unvisited_from (i : nat) (cs : list TreeNode) : list nat :=
  match cs with
  | [] => []
  | child :: rest =>
      if Nat.eqb (visits child) 0 then i :: unvisited_from (S i) rest
      else unvisited_from (S i) rest
  end.

(** [mcts_expansion(node)], [node] at address [a]: a random unvisited
    child, or the node itself. *)
Definition mcts_expansion (node : TreeNode) (a : address) (g : rng)
  : result (address * TreeNode * rng) :=
  match unvisited_from 0 (children node) with
  | [] => Ok (a, node, g)
  | unvisited =>
      '(k, g') <- random_choice g unvisited ;;
      match nth_error (children node) k with
      | Some child => Ok (k :: a, child, g')
      | None => Raise IndexError
      end
  end.

(** [mcts_simulation(node)]: the random playout and its result. *)
Fixpoint mcts_simulation (node : TreeNode) (g : rng) : result (zext * rng) :=
  match node with
  | mkTreeNode _ v cs _ _ _ _ _ _ _ =>
      match cs with
      | [] =>
          match v with
          | Some r => Ok (r, g)
          | None => let (r, g') := random_randint01 g in Ok (Fin r, g')
          end
      | _ :: _ =>
          '(k, g') <- random_index g (List.length cs) ;;
          nth k (map (fun next_node => mcts_simulation next_node g') cs)
              (Raise IndexError)
      end
  end.

(** [result == 1] *)
Definition is_win (r : zext) : bool :=
  match r with
  | Fin z => Z.eqb z 1
  | _ => false
  end.

(** The body of the backpropagation loop on one node. *)
Definition record_result (r : zext) (n : TreeNode) : TreeNode :=
  set_stats n (S (visits n)) (if is_win r then S (wins n) else wins n).

(** [mcts_backpropagation(node, result)]: [while current:] update the
    object at [current], then [current = current.parent]: the tail of the
    address, see [mcts_backpropagation_parent]. *)
Fixpoint mcts_backpropagation (root : TreeNode) (current : address)
         (r : zext) : TreeNode :=
  let root := assign (record_result r) root current in
  match current with
  | [] => root
  | _ :: up => mcts_backpropagation root up r
  end.

(** ** run_mcts *)

(** [get_node_by_id]: the first node, in depth-first order, whose id is
    [target_id], as the path to it from [node]. *)
Fixpoint find_node (node : TreeNode) (target_id : string) : option (list nat) :=
  match node with
  | mkTreeNode i _ cs _ _ _ _ _ _ _ =>
      if String.eqb i target_id then Some []
      else
        let fix search (k : nat) (l : list TreeNode) : option (list nat) :=
          match l with
          | [] => None
          | child :: rest =>
              match find_node child target_id with
              | Some found => Some (k :: found)
              | None => search (S k) rest
              end
          end in
        search 0 cs
  end.

(** The ids in the order [create_node_visuals] meets the nodes. *)
Fixpoint node_ids (node : TreeNode) : list string :=
  match node with
  | mkTreeNode i _ cs _ _ _ _ _ _ _ => i :: flat_map node_ids cs
  end.

(** The keys of a dictionary filled in the order of [l]. *)
Fixpoint dict_keys (seen : list string) (l : list string) : list string :=
  match l with
  | [] => []
  | k :: l' =>
      if in_dec string_dec k seen then dict_keys seen l'
      else k :: dict_keys (k :: seen) l'
  end.

(** The keys of [self.node_objects]. *)
Definition node_objects_keys (root : TreeNode) : list string :=
  dict_keys [] (node_ids root).

(** The loop that initialises the statistics: for every key,
    [get_node_by_id(node_id)] gets [visits = 0] and [wins = 0]. *)
Fixpoint reset_statistics (root : TreeNode) (keys : list string)
  : result TreeNode :=
  match keys with
  | [] => Ok root
  | node_id :: keys' =>
      match find_node root node_id with
      | None => Raise AttributeError
      | Some found =>
          reset_statistics (update_at (fun n => set_stats n 0 0) root found)
                           keys'
      end
  end.

(** Phase 2 in [run_mcts]. *)
Definition expansion_phase (selected : address) (selected_node : TreeNode)
           (g : rng) : result (address * TreeNode * rng) :=
  if Nat.ltb 0 (visits selected_node) && has_children selected_node then
    mcts_expansion selected_node selected g
  else Ok (selected, selected_node, g).

(** One turn of the loop [for iteration in range(1, iterations + 1)]. *)
Definition mcts_iteration (root : TreeNode) (exploration_weight : R) (g : rng)
  : result (TreeNode * rng) :=
  '(selected, selected_node, g) <- mcts_selection root [] exploration_weight g ;;
  '(expanded, expanded_node, g) <- expansion_phase selected selected_node g ;;
  '(simulation_result, g) <- mcts_simulation expanded_node g ;;
  Ok (mcts_backpropagation root expanded simulation_result, g).

Fixpoint mcts_iterations_loop (n : nat) (root : TreeNode)
         (exploration_weight : R) (g : rng) : result (TreeNode * rng) :=
  match n with
  | O => Ok (root, g)
  | S n' =>
      '(root', g') <- mcts_iteration root exploration_weight g ;;
      mcts_iterations_loop n' root' exploration_weight g'
  end.

(** The keys of the configuration file the algorithms read. *)
Record config : Type := mkConfig {
  pruning : option bool;
  mcts_iterations : option Z;
  exploration_weight : option R
}.

(** [config.get(key, default)] *)
Definition get {A : Type} (entry : option A) (default : A) : A :=
  match entry with
  | Some x => x
  | None => default
  end.

(** [run_mcts] up to the end of the loop: the tree after the last
    iteration. *)
Definition mcts_search (cfg : config) (root : TreeNode) (g : rng)
  : result (TreeNode * rng) :=
  let iterations := get (mcts_iterations cfg) 10%Z in
  let w := get (exploration_weight cfg) (14 / 10)%R in
  root <- reset_statistics root (node_objects_keys root) ;;
  mcts_iterations_loop (Z.to_nat iterations) root w g.

(** [run_mcts]: the best move from the root, its id and its win rate
    [best_child.wins / best_child.visits]. *)
Definition run_mcts (cfg : config) (root : TreeNode) (g : rng)
  : result (TreeNode * string * R * rng) :=
  '(root, g) <- mcts_search cfg root g ;;
  '(k, g) <- get_best_child root 0%R g ;;
  match nth_error (children root) k with
  | None => Raise IndexError
  | Some best_child =>
      if Nat.eqb (visits best_child) 0 then Raise ZeroDivisionError
      else Ok (root, id best_child,
               (INR (wins best_child) / INR (visits best_child))%R, g)
  end.

(** ** What a run leaves on the tree *)

(** [p] holds at every node of the tree. *)
Fixpoint all_nodes (p : TreeNode -> bool) (node : TreeNode) : bool :=
  match node with
  | mkTreeNode _ _ cs _ _ _ _ _ _ _ => p node && forallb (all_nodes p) cs
  end.

(** No node is marked pruned. *)
Definition unpruned : TreeNode -> bool :=
  all_nodes (fun n => negb (pruned n)).

(** Every leaf carries a number as its value. *)
Definition leaf_has_number (n : TreeNode) : bool :=
  match children n, value n with
  | [], Some (Fin _) => true
  | [], _ => false
  | _ :: _, _ => true
  end.

Definition leaves_valued : TreeNode -> bool := all_nodes leaf_has_number.

(** The pruned edges [(node.id, child.id)], in depth-first order. *)
Fixpoint pruned_edges (node : TreeNode) : list (string * string) :=
  match node with
  | mkTreeNode i _ cs _ _ _ _ _ _ _ =>
      map (fun child => (i, id child)) (filter pruned cs)
      ++ flat_map pruned_edges cs
  end.

(** The game value of a node: its own value at a leaf, the largest (MAX)
    or smallest (MIN) game value of its children otherwise. *)
Fixpoint game_value (node : TreeNode) : zext :=
  match node with
  | mkTreeNode _ v cs _ m _ _ _ _ _ =>
      match cs with
      | [] => match v with Some x => x | None => initial_value m end
      | _ :: _ =>
          fold_left (fun acc x => if m then zmax acc x else zmin acc x)
                    (map game_value cs) (initial_value m)
      end
  end.

(** ** The evaluation contract, in the words of the design's section 4.2 *)

Section SpecEvaluate.
Variable pruning : bool.
Variable rec : TreeNode -> zext -> zext -> result (option zext * TreeNode).
Variable is_max : bool.

(** Children in order; a non-pruned child is evaluated with the current
    window; the value and the best edge are replaced only on a strictly
    better child value; then the bound is tightened and the cutoff
    tested. *)
Fixpoint spec_evaluate_children (i : nat) (todo : list TreeNode)
         (value : zext) (best : option nat) (alpha beta : zext)
  : result (zext * option nat * list TreeNode) :=
  match todo with
  | [] => Ok (value, best, [])
  | child :: rest =>
      if pruned child then
        '(v, b, cs) <- spec_evaluate_children (S i) rest value best alpha beta ;;
        Ok (v, b, child :: cs)
      else
        '(child_value, child') <- rec child alpha beta ;;
        match child_value with
        | None => Raise TypeError
        | Some child_value =>
            let better :=
              if is_max then zlt value child_value
              else zlt child_value value in
            let value := if better then child_value else value in
            let best := if better then Some i else best in
            let alpha := if is_max then zmax alpha value else alpha in
            let beta := if is_max then beta else zmin beta value in
            if pruning && zle beta alpha then
              Ok (value, best, child' :: map set_pruned rest)
            else
              '(v, b, cs) <- spec_evaluate_children (S i) rest value best alpha beta ;;
              Ok (v, b, child' :: cs)
        end
  end.
End SpecEvaluate.

(** [evaluate(node, alpha, beta) -> value] of section 4.2: a leaf returns
    its static value; an internal node starts from minus infinity (MAX) or
    plus infinity (MIN) and stores the resolved value on exit. *)
Fixpoint spec_evaluate (pruning : bool) (node : TreeNode) (alpha beta : zext)
  : result (option zext * TreeNode) :=
  match node with
  | mkTreeNode i v cs d m _ _ p vi w =>
      match cs with
      | [] => Ok (v, mkTreeNode i v [] d m alpha beta p vi w)
      | _ :: _ =>
          '(value, _, cs') <-
            spec_evaluate_children pruning (spec_evaluate pruning) m 0 cs
                                   (if m then NegInf else PosInf) None
                                   alpha beta ;;
          Ok (Some value, mkTreeNode i (Some value) cs' d m alpha beta p vi w)
      end
  end.

Definition spec_best_edge (pruning : bool) (node : TreeNode)
           (alpha beta : zext) : result (option nat) :=
  '(_, best, _) <-
    spec_evaluate_children pruning (spec_evaluate pruning) (is_max_node node)
      0 (children node) (if is_max_node node then NegInf else PosInf) None
      alpha beta ;;
  Ok best.

(** ** The malformed specifications of the design's section 4.1 *)

Fixpoint json_ids (data : json_node) : list (option string) :=
  match data with
  | JNode jid _ cs => jid :: flat_map json_ids cs
  end.

(** An id is missing. *)
Definition id_missing (data : json_node) : bool :=
  existsb (fun i => match i with None => true | Some _ => false end)
          (json_ids data).

Fixpoint has_duplicate (l : list (option string)) : bool :=
  match l with
  | [] => false
  | x :: l' =>
      existsb (fun y =>
                 match x, y with
                 | Some a, Some b => String.eqb a b
                 | _, _ => false
                 end) l'
      || has_duplicate l'
  end.

(** An id is duplicated within the tree. *)
Definition id_duplicated (data : json_node) : bool :=
  has_duplicate (json_ids data).

(** A node has both children and a static value, or neither. *)
Fixpoint both_or_neither (data : json_node) : bool :=
  match data with
  | JNode _ v cs =>
      match v, cs with
      | Some _, _ :: _ => true
      | None, [] => true
      | _, _ => false
      end
      || existsb both_or_neither cs
  end.

Definition spec_malformed (data : json_node) : bool :=
  id_missing data || id_duplicated data || both_or_neither data.

(** ** visualizer_minimax.py *)

(** The second file has the same [build_tree], [_build_subtree] and
    [minimax]; its [TreeNode] has no [parent], [visits], [wins] or [ucb]. *)
Module MinimaxFile.

Inductive TreeNode : Type :=
| mkTreeNode (id : string) (value : option zext) (children : list TreeNode)
             (depth : nat) (is_max_node : bool) (alpha beta : zext)
             (pruned : bool).

Definition id (n : TreeNode) : string :=
  match n with mkTreeNode i _ _ _ _ _ _ _ => i end.
Definition children (n : TreeNode) : list TreeNode :=
  match n with mkTreeNode _ _ c _ _ _ _ _ => c end.
Definition pruned (n : TreeNode) : bool :=
  match n with mkTreeNode _ _ _ _ _ _ _ p => p end.

Definition new_TreeNode (i : string) (v : option zext) : TreeNode :=
  mkTreeNode i v [] 0 true NegInf PosInf false.

Definition set_children (n : TreeNode) (cs : list TreeNode) : TreeNode :=
  match n with
  | mkTreeNode i v _ d m a b p => mkTreeNode i v cs d m a b p
  end.
Definition set_depth_kind (n : TreeNode) (d : nat) (m : bool) : TreeNode :=
  match n with
  | mkTreeNode i v c _ _ a b p => mkTreeNode i v c d m a b p
  end.
Definition set_pruned (n : TreeNode) : TreeNode :=
  match n with
  | mkTreeNode i v c d m a b _ => mkTreeNode i v c d m a b true
  end.

Fixpoint _build_subtree (data : json_node) (depth : nat) (is_max : bool)
  : result TreeNode :=
  match data with
  | JNode None _ _ => Raise KeyError
  | JNode (Some i) jvalue children_data =>
      let parent := set_depth_kind (new_TreeNode i (option_map (@Fin Z) jvalue))
                                   depth is_max in
      let fix build_children (l : list json_node) : result (list TreeNode) :=
        match l with
        | [] => Ok []
        | child_data :: rest =>
            child <- _build_subtree child_data (S depth) (negb is_max) ;;
            more <- build_children rest ;;
            Ok (child :: more)
        end in
      cs <- build_children children_data ;;
      Ok (set_children parent cs)
  end.

Definition build_tree (data : tree_data) : result (option TreeNode) :=
  match data with
  | EmptyData => Ok None
  | Document None => Raise KeyError
  | Document (Some root_data) =>
      root <- _build_subtree root_data 0 true ;;
      Ok (Some root)
  end.

Section MinimaxLoop.
Variable pruning : bool.
Variable rec : TreeNode -> zext -> zext -> result (option zext * TreeNode).
Variable is_max : bool.

Fixpoint children_loop (i : nat) (todo : list TreeNode) (value : zext)
         (best_child : option nat) (alpha beta : zext)
  : result (zext * option nat * list TreeNode) :=
  match todo with
  | [] => Ok (value, best_child, [])
  | child :: rest =>
      if pruned child then
        '(v, b, cs) <- children_loop (S i) rest value best_child alpha beta ;;
        Ok (v, b, child :: cs)
      else
        '(child_value, child') <- rec child alpha beta ;;
        match child_value with
        | None => Raise TypeError
        | Some child_value =>
            let update_value :=
              match best_child with
              | None => true
              | Some _ =>
                  (is_max && zlt value child_value)
                  || (negb is_max && zlt child_value value)
              end in
            let value := if update_value then child_value else value in
            let best_child := if update_value then Some i else best_child in
            let alpha := if is_max then zmax alpha value else alpha in
            let beta := if is_max then beta else zmin beta value in
            if pruning && zle beta alpha then
              Ok (value, best_child, child' :: map set_pruned rest)
            else
              '(v, b, cs) <- children_loop (S i) rest value best_child alpha beta ;;
              Ok (v, b, child' :: cs)
        end
  end.
End MinimaxLoop.

Fixpoint minimax (pruning : bool) (node : TreeNode) (alpha beta : zext)
  : result (option zext * TreeNode) :=
  match node with
  | mkTreeNode i v cs d m _ _ p =>
      match cs with
      | [] => Ok (v, mkTreeNode i v [] d m alpha beta p)
      | _ :: _ =>
          '(value, _, cs') <-
            children_loop pruning (minimax pruning) m 0 cs
                          (initial_value m) None alpha beta ;;
          Ok (Some value, mkTreeNode i (Some value) cs' d m alpha beta p)
      end
  end.

Definition run_minimax (pruning : bool) (root : TreeNode)
  : result (option zext * TreeNode) :=
  minimax pruning root NegInf PosInf.

Fixpoint pruned_edges (node : TreeNode) : list (string * string) :=
  match node with
  | mkTreeNode i _ cs _ _ _ _ _ =>
      map (fun child => (i, id child)) (filter pruned cs)
      ++ flat_map pruned_edges cs
  end.

End MinimaxFile.

(** A node of visualizer_all.py seen as a node of visualizer_minimax.py:
    the fields both classes have. *)
Fixpoint common_fields (node : TreeNode) : MinimaxFile.TreeNode :=
  match node with
  | mkTreeNode i v cs d m a b p _ _ =>
      MinimaxFile.mkTreeNode i v (map common_fields cs) d m a b p
  end.

(** The same on what the functions return. *)
Definition map_result {A B : Type} (f : A -> B) (r : result A) : result B :=
  match r with
  | Ok a => Ok (f a)
  | Raise e => Raise e
  end.

Unset Implicit Arguments.

(** ** Induction over trees *)

Section TreeInduction.
Variable P : TreeNode -> Prop.
Hypothesis node_case :
  forall i v cs d m a b p vi w,
    Forall P cs -> P (mkTreeNode i v cs d m a b p vi w).

Fixpoint TreeNode_nested_ind (n : TreeNode) : P n :=
  match n with
  | mkTreeNode i v cs d m a b p vi w =>
      node_case i v cs d m a b p vi w
        ((fix all (l : list TreeNode) : Forall P l :=
            match l with
            | [] => Forall_nil P
            | c :: l' => Forall_cons c (TreeNode_nested_ind c) (all l')
            end) cs)
  end.
End TreeInduction.

Section JsonInduction.
Variable P : json_node -> Prop.
Hypothesis node_case :
  forall jid jvalue cs, Forall P cs -> P (JNode jid jvalue cs).

Fixpoint json_node_nested_ind (n : json_node) : P n :=
  match n with
  | JNode jid jvalue cs =>
      node_case jid jvalue cs
        ((fix all (l : list json_node) : Forall P l :=
            match l with
            | [] => Forall_nil P
            | c :: l' => Forall_cons c (json_node_nested_ind c) (all l')
            end) cs)
  end.
End JsonInduction.

(** ** The order on extended integers *)

Arguments zlt : simpl never.
Arguments zle : simpl never.
Arguments zmax : simpl never.
Arguments zmin : simpl never.

Ltac zext_cases :=
  unfold zle, zlt, zmax, zmin, ext_leb, ext_max, ext_min, initial_value in *;
  repeat match goal with
         | x : zext |- _ => destruct x
         | x : ext Z |- _ => destruct x
         | x : bool |- _ => destruct x
         end;
  simpl in *;
  repeat match goal with
         | |- context [Z.ltb ?a ?b] => destruct (Z.ltb_spec a b)
         | H : context [Z.ltb ?a ?b] |- _ => destruct (Z.ltb_spec a b)
         end;
  simpl in *; try congruence; try lia.

(** ** Statements used in the proofs *)

(** On a fresh tree whose leaves carry numbers, a call of [minimax]
    follows the contract and returns a number. *)
Definition follows_contract (pruning : bool) (c : TreeNode) : Prop :=
  unpruned c = true -> leaves_valued c = true ->
  forall a b,
    minimax pruning c a b = spec_evaluate pruning c a b
    /\ exists z c', minimax pruning c a b = Ok (Some (Fin z), c').

(** What a run of [minimax] may do to the pruned flags below a node: the
    same addresses exist before and after, and at each of them the flag is
    as before, or pruning is on and the node there is the old one with
    nothing but its flag set. *)
Definition frame_at (pruning : bool) (c c' : TreeNode) : Prop :=
  forall path,
    match node_at c path, node_at c' path with
    | Some n, Some n' =>
        pruned n' = pruned n \/ (pruning = true /\ n' = set_pruned n)
    | None, None => True
    | _, _ => False
    end.

Definition keeps_frame (pruning : bool) (c : TreeNode) : Prop :=
  forall a b v c', minimax pruning c a b = Ok (v, c') -> frame_at pruning c c'.

(** [n'] is marked pruned and is otherwise [n], field by field. *)
Definition only_flag_set (n n' : TreeNode) : Prop :=
  pruned n' = true
  /\ id n' = id n /\ value n' = value n /\ children n' = children n
  /\ depth n' = depth n /\ is_max_node n' = is_max_node n
  /\ alpha n' = alpha n /\ beta n' = beta n
  /\ visits n' = visits n /\ wins n' = wins n.

(** [zlt] and [zle] as relations. *)
Definition zext_lt (x y : zext) : Prop := zlt x y = true.
Definition zext_le (x y : zext) : Prop := zle x y = true.

(** The value [v] returned under the window [(a, b)] is sound for the
    game value [m]: at or below the window it bounds [m] from above, at or
    above the window it bounds [m] from below, inside the window it is
    [m]. *)
Definition window_sound (a b m v : zext) : Prop :=
  (zext_le v a /\ zext_le m v)
  \/ (zext_le b v /\ zext_le v m)
  \/ (zext_lt a v /\ zext_lt v b /\ v = m).

(** The running best value over a list of child values. *)
Definition fold_value (m : bool) (l : list zext) (start : zext) : zext :=
  fold_left (fun acc x => if m then zmax acc x else zmin acc x) l start.

(** On a fresh tree with valued leaves, [minimax] with pruning returns a
    value that is sound for its window. *)
Definition sound_node (c : TreeNode) : Prop :=
  unpruned c = true -> leaves_valued c = true ->
  forall a b,
    zext_lt a b ->
    exists v c',
      minimax true c a b = Ok (Some v, c')
      /\ window_sound a b (game_value c) v.

(** Without pruning [minimax] returns the game value. *)
Definition plain_node (c : TreeNode) : Prop :=
  unpruned c = true -> leaves_valued c = true ->
  forall a b,
    exists c', minimax false c a b = Ok (Some (game_value c), c').

(** What [_build_subtree] does on a document: [KeyError] when an id is
    missing, a tree otherwise. *)
Definition build_outcome (data : json_node) : Prop :=
  forall depth is_max,
    match _build_subtree data depth is_max with
    | Ok _ => id_missing data = false
    | Raise e => e = KeyError /\ id_missing data = true
    end.

(** [x <= y] on scores. *)
Definition score_le (x y : score) : Prop := score_ltb y x = false.

(** The score [get_best_child(node, w)] computes for a child. *)
Definition child_ucb (node : TreeNode) (w : R) (child : TreeNode) : score :=
  calculate_ucb (Some node) child w.

(** The win rate [wins / visits]. *)
Definition win_rate (n : TreeNode) : R := (INR (wins n) / INR (visits n))%R.

(** The state of the loop of [get_best_child] after the children [done]:
    [best_value] bounds their scores and [best_children] lists, in order,
    the indices of those that reach it. *)
Definition best_so_far (node : TreeNode) (w : R) (done : list TreeNode)
           (best_value : score) (best_children : list nat) : Prop :=
  (forall j c, nth_error done j = Some c ->
               score_le (child_ucb node w c) best_value)
  /\ (forall k, In k best_children ->
                exists c, nth_error done k = Some c
                          /\ child_ucb node w c = best_value)
  /\ (forall j c, nth_error done j = Some c ->
                  child_ucb node w c = best_value -> In j best_children)
  /\ (done <> [] -> best_children <> [])
  /\ (done = [] -> best_value = NegInf).

(** The tree with every statistic cleared: what MCTS never changes. *)
Fixpoint clear_stats (node : TreeNode) : TreeNode :=
  match node with
  | mkTreeNode i v cs d m a b p _ _ =>
      mkTreeNode i v (map clear_stats cs) d m a b p 0 0
  end.

(** [a] is one of [current], [current.parent], ..., the root: the nodes
    the backpropagation loop goes through. *)
Fixpoint on_path (a current : address) : bool :=
  (if list_eq_dec Nat.eq_dec a current then true else false)
  || match current with
     | [] => false
     | _ :: up => on_path a up
     end.

(** The counters of the node at an address. *)
Definition stats_at (root : TreeNode) (a : address) : option (nat * nat) :=
  option_map (fun n => (visits n, wins n)) (deref root a).

(** One recorded result on a pair of counters. *)
Definition count_result (r : zext) (s : nat * nat) : nat * nat :=
  (S (fst s), if is_win r then S (snd s) else snd s).

(** [wins <= visits] *)
Definition stats_ok (n : TreeNode) : bool := Nat.leb (wins n) (visits n).

(** No visits and no wins, as [TreeNode.__init__] leaves a node. *)
Definition no_stats (n : TreeNode) : bool :=
  Nat.eqb (visits n) 0 && Nat.eqb (wins n) 0.

(** ** Example inputs *)

Definition leaf_data (i : string) (v : Z) : json_node :=
  JNode (Some i) (Some v) [].

(** A MAX root over two MIN nodes [A], with leaves 3 and 5, and [B], with
    leaves 2 and 9. *)
Definition example_document : tree_data :=
  Document (Some (JNode (Some "root"%string) None
    [ JNode (Some "A"%string) None
        [ leaf_data "a1" 3; leaf_data "a2" 5 ];
      JNode (Some "B"%string) None
        [ leaf_data "b1" 2; leaf_data "b2" 9 ] ])).

Definition example_tree : TreeNode :=
  Eval vm_compute in
    match build_tree example_document with
    | Ok (Some root) => root
    | _ => new_TreeNode "" None
    end.

(** Specifications the design calls malformed: two nodes with the same
    id, *)
Definition duplicate_id_document : json_node :=
  JNode (Some "root"%string) None [ leaf_data "a" 1; leaf_data "a" 2 ].

(** an internal node that also carries a value, *)
Definition both_document : json_node :=
  JNode (Some "root"%string) (Some 7%Z) [ leaf_data "a" 1 ].

(** and a leaf without a value. *)
Definition neither_document : json_node :=
  JNode (Some "root"%string) None [ JNode (Some "a"%string) None [] ].

(** A node with 4 visits and 2 wins under a parent with 10 visits. *)
Definition ucb_example_node : TreeNode :=
  mkTreeNode "n" None [] 1 false NegInf PosInf false 4 2.

Definition ucb_example_parent : TreeNode :=
  mkTreeNode "p" None [ucb_example_node] 0 true NegInf PosInf false 10 5.

(** A root over two leaves, as built, *)
Definition two_leaves_document : tree_data :=
  Document (Some (JNode (Some "root"%string) None
                        [ leaf_data "a" 1; leaf_data "b" 0 ])).

Definition two_leaves_tree : TreeNode :=
  Eval vm_compute in
    match build_tree two_leaves_document with
    | Ok (Some root) => root
    | _ => new_TreeNode "" None
    end.

(** the same root after two iterations, the first child still unvisited, *)
Definition half_visited_root : TreeNode :=
  mkTreeNode "root" None
    [ mkTreeNode "a" (Some (Fin 1%Z)) [] 1 false NegInf PosInf false 0 0;
      mkTreeNode "b" (Some (Fin 0%Z)) [] 1 false NegInf PosInf false 1 0 ]
    0 true NegInf PosInf false 2 0.

(** and a root whose two children have both been visited. *)
Definition fully_visited_root : TreeNode :=
  mkTreeNode "root" None
    [ mkTreeNode "a" (Some (Fin 1%Z)) [] 1 false NegInf PosInf false 2 1;
      mkTreeNode "b" (Some (Fin 1%Z)) [] 1 false NegInf PosInf false 2 2 ]
    0 true NegInf PosInf false 5 3.

(** A generator whose every draw is 1, and one whose every draw is 0. *)
Definition always_one : rng := fun _ => 1.
Definition always_zero : rng := fun _ => 0.


(** * More of the code *)

(** ** What build_tree keeps of the tree file *)

(** The tree file read back from a tree: ids, leaf payoffs and child
    order. *)
Fixpoint tree_data_of (node : TreeNode) : json_node :=
  match node with
  | mkTreeNode i v cs _ _ _ _ _ _ _ =>
      JNode (Some i)
            (match v with
             | Some (Fin z) => Some z
             | _ => None
             end)
            (map tree_data_of cs)
  end.

(** The loop over [children_data] of [_build_subtree] on its own. *)
Fixpoint build_children (children_data : list json_node) (depth : nat)
         (is_max : bool) : result (list TreeNode) :=
  match children_data with
  | [] => Ok []
  | child_data :: rest =>
      child <- _build_subtree child_data depth is_max ;;
      more <- build_children rest depth is_max ;;
      Ok (child :: more)
  end.

(** Every leaf of the tree file carries a value. *)
Fixpoint json_leaves_valued (data : json_node) : bool :=
  match data with
  | JNode _ v cs =>
      match cs, v with
      | [], None => false
      | _, _ => true
      end
      && forallb json_leaves_valued cs
  end.

(** The kind of a node [steps] levels under a node of kind [is_max]. *)
Definition kind_after (is_max : bool) (steps : nat) : bool :=
  if Nat.even steps then is_max else negb is_max.

(** The search state [TreeNode.__init__] gives a node. *)
Definition untouched (n : TreeNode) : bool :=
  negb (pruned n) && no_stats n
  && match alpha n, beta n with
     | NegInf, PosInf => true
     | _, _ => false
     end.

(** The payoffs of the leaves under a node, left to right. *)
Fixpoint leaf_payoffs (node : TreeNode) : list zext :=
  match node with
  | mkTreeNode _ v cs _ _ _ _ _ _ _ =>
      match cs with
      | [] => match v with Some x => [x] | None => [] end
      | _ :: _ => flat_map leaf_payoffs cs
      end
  end.

(** What [minimax] never writes: ids, leaf payoffs, child order, depths,
    kinds and the MCTS counters. *)
Fixpoint static_part (node : TreeNode) : TreeNode :=
  match node with
  | mkTreeNode i v cs d m _ _ _ vi w =>
      mkTreeNode i (match cs with [] => v | _ :: _ => None end)
                 (map static_part cs) d m NegInf PosInf false vi w
  end.

(** The window stored on a node is open: [alpha < beta]. *)
Definition window_open (n : TreeNode) : bool := zlt (alpha n) (beta n).

(** [minimax] returns the payoff of a leaf. *)
Definition returns_leaf_payoff (pruning : bool) (c : TreeNode) : Prop :=
  unpruned c = true -> leaves_valued c = true ->
  forall a b v c',
    minimax pruning c a b = Ok (v, c') ->
    exists x, v = Some x /\ In x (leaf_payoffs c).

(** [minimax] keeps the static part of the tree. *)
Definition keeps_static (pruning : bool) (c : TreeNode) : Prop :=
  forall a b v c',
    minimax pruning c a b = Ok (v, c') -> static_part c' = static_part c.

(** With pruning, [minimax] leaves open windows on the nodes. *)
Definition keeps_windows_open (c : TreeNode) : Prop :=
  all_nodes window_open c = true ->
  forall a b v c',
    zext_lt a b ->
    minimax true c a b = Ok (v, c') -> all_nodes window_open c' = true.

(** ** get_node_by_id *)

(** The loop [for child in node.children] of [find_node], the first child
    having index [k]. *)
Fixpoint find_in_children (target_id : string) (k : nat) (l : list TreeNode)
  : option (list nat) :=
  match l with
  | [] => None
  | child :: rest =>
      match find_node child target_id with
      | Some found => Some (k :: found)
      | None => find_in_children target_id (S k) rest
      end
  end.

(** With unique ids, the id of a node finds that node. *)
Definition finds_itself (root : TreeNode) : Prop :=
  NoDup (node_ids root) ->
  forall path n,
    node_at root path = Some n -> find_node root (id n) = Some path.

(** ** The run and the number of iterations *)


(** ** main and construct *)

(** The choices of [--algorithm]. *)
Inductive algorithm_choice : Type :=
| Minimax
| Alphabeta
| Mcts.

(** The configuration dictionary with the two keys [main] writes besides
    those of [config]: ["show_alpha_beta"] and ["algorithm"]. *)
Record settings : Type := mkSettings {
  file : config;
  show_alpha_beta : option bool;
  algorithm : option algorithm_choice
}.

(** What [main] of visualizer_all.py does to the configuration it has
    loaded, for the algorithm given on the command line. *)
Definition main_settings (choice : algorithm_choice) (s : settings) : settings :=
  let s := mkSettings (file s) (show_alpha_beta s) (Some choice) in
  match choice with
  | Minimax =>
      if negb (get (pruning (file s)) false) then
        mkSettings (file s) (Some false) (algorithm s)
      else s
  | Alphabeta =>
      mkSettings
        (mkConfig (Some true) (mcts_iterations (file s))
                  (exploration_weight (file s)))
        (Some true) (algorithm s)
  | Mcts =>
      let iterations :=
        match mcts_iterations (file s) with
        | None => Some 10%Z
        | Some n => Some n
        end in
      let weight :=
        match exploration_weight (file s) with
        | None => Some (14 / 10)%R
        | Some w => Some w
        end in
      mkSettings (mkConfig (pruning (file s)) iterations weight)
                 (show_alpha_beta s) (algorithm s)
  end.

(** What a scene ends with. *)
Inductive outcome : Type :=
| MinimaxDone (optimal : option zext) (root : TreeNode)
| MctsDone (root : TreeNode) (best_move : string) (win_rate : R) (g : rng).

(** [GameTreeVisualizer(config, tree_data)] followed by [construct]: the
    tree is built, and the algorithm is chosen by [config.get("algorithm")].
    Drawing a tree that is [None] raises [AttributeError]. *)
Definition scene (s : settings) (data : tree_data) (g : rng) : result outcome :=
  root <- build_tree data ;;
  match root with
  | None => Raise AttributeError
  | Some root =>
      match algorithm s with
      | Some Mcts =>
          '(root, best, rate, g) <- run_mcts (file s) root g ;;
          Ok (MctsDone root best rate g)
      | _ =>
          '(v, root) <- run_minimax (get (pruning (file s)) false) root ;;
          Ok (MinimaxDone v root)
      end
  end.

(** ** The visit counters of a search *)

(** The counters add up at a node with children: a visited node has one
    visit more than its children together (the visit that expanded it),
    an unvisited one has unvisited children only. *)
Definition visits_add_up (n : TreeNode) : bool :=
  match children n with
  | [] => true
  | cs =>
      Nat.eqb (visits n)
              ((if Nat.eqb (visits n) 0 then 0 else 1)
               + list_sum (map visits cs))
  end.

(** The backpropagation loop seen from the root: the result is recorded
    on every node along [path] (first step first). *)
Fixpoint record_along (r : zext) (node : TreeNode) (path : list nat)
  : TreeNode :=
  match path with
  | [] => record_result r node
  | i :: path' =>
      record_result r
        (set_children node
           (update_nth (fun child => record_along r child path') i
                       (children node)))
  end.

(** [path] is the way the selection loop takes from [node]: through
    nodes whose children are all visited, to one where they are not (or
    that has none). *)
Fixpoint selection_path (node : TreeNode) (path : list nat) : bool :=
  match path with
  | [] => negb (has_children node && all_visited (children node))
  | i :: path' =>
      has_children node && all_visited (children node)
      && match nth_error (children node) i with
         | Some child => selection_path child path'
         | None => false
         end
  end.

(** [path] leads through visited nodes to a leaf or to an unvisited
    node. *)
Fixpoint expansion_path (node : TreeNode) (path : list nat) : bool :=
  match path with
  | [] => negb (has_children node) || Nat.eqb (visits node) 0
  | i :: path' =>
      Nat.ltb 0 (visits node)
      && match nth_error (children node) i with
         | Some child => expansion_path child path'
         | None => false
         end
  end.

(** ** _calculate_positions *)

(** The fields [x_pos] and [y_pos] the layout assigns, kept apart from
    [TreeNode]: a tree of the same shape.  Positions are Python floats,
    idealised as real numbers. *)
Inductive placed : Type :=
| Placed (x_pos y_pos : R) (below : list placed).

Definition x_pos (p : placed) : R :=
  match p with Placed x _ _ => x end.
Definition y_pos (p : placed) : R :=
  match p with Placed _ y _ => y end.
Definition below (p : placed) : list placed :=
  match p with Placed _ _ ps => ps end.

(** [count_leaves(node)] *)
Fixpoint count_leaves (node : TreeNode) : nat :=
  match node with
  | mkTreeNode _ _ cs _ _ _ _ _ _ _ =>
      match cs with
      | [] => 1
      | _ :: _ => list_sum (map count_leaves cs)
      end
  end.

(** [min(leftmost_pos, x_pos)] and [max(rightmost_pos, x_pos)], the
    accumulators starting at [float("inf")] and [float("-inf")]. *)
Definition score_min (leftmost_pos : score) (x : R) : score :=
  match leftmost_pos with
  | PosInf => Fin x
  | Fin l => Fin (Rmin l x)
  | NegInf => NegInf
  end.

Definition score_max (rightmost_pos : score) (x : R) : score :=
  match rightmost_pos with
  | NegInf => Fin x
  | Fin r => Fin (Rmax r x)
  | PosInf => PosInf
  end.

(** [(leftmost_pos + rightmost_pos) / 2].  The accumulators are finite
    after one turn of the loop, and the loop runs on a node with children
    only; the other cases are not reached. *)
Definition midpoint (leftmost_pos rightmost_pos : score) : R :=
  match leftmost_pos, rightmost_pos with
  | Fin l, Fin r => ((l + r) / 2)%R
  | _, _ => 0%R
  end.

Section Positions.

Variable level_height : R.
Variable total_leaves : nat.

(** [leaf_position - (total_leaves / 2) - 1.5] *)
Definition leaf_x (leaf_position : nat) : R :=
  (INR leaf_position - INR total_leaves / 2 - 15 / 10)%R.

(** [assign_positions(node)] with the counter [leaf_position] threaded
    through: the positions of the subtree, [node.x_pos], the width, and
    the counter afterwards. *)
Fixpoint assign_positions (node : TreeNode) (leaf_position : nat)
  : placed * R * nat * nat :=
  match node with
  | mkTreeNode _ _ cs d _ _ _ _ _ _ =>
      let y := (- INR d * level_height)%R in
      match cs with
      | [] =>
          let x := leaf_x leaf_position in
          (Placed x y [], x, 1, S leaf_position)
      | _ :: _ =>
          let fix loop (l : list TreeNode) (leaf_position total_width : nat)
                  (leftmost_pos rightmost_pos : score)
            : list placed * nat * score * score * nat :=
            match l with
            | [] => ([], total_width, leftmost_pos, rightmost_pos,
                     leaf_position)
            | child :: rest =>
                let '(p, x, width, leaf_position) :=
                  assign_positions child leaf_position in
                let '(ps, total_width, leftmost_pos, rightmost_pos,
                      leaf_position) :=
                  loop rest leaf_position (total_width + width)
                       (score_min leftmost_pos x) (score_max rightmost_pos x) in
                (p :: ps, total_width, leftmost_pos, rightmost_pos,
                 leaf_position)
            end in
          let '(ps, total_width, leftmost_pos, rightmost_pos, leaf_position) :=
            loop cs leaf_position 0 PosInf NegInf in
          let x := midpoint leftmost_pos rightmost_pos in
          (Placed x y ps, x, total_width, leaf_position)
      end
  end.

(** The loop over [node.children] of [assign_positions] on its own. *)
Fixpoint assign_children (l : list TreeNode) (leaf_position total_width : nat)
         (leftmost_pos rightmost_pos : score)
  : list placed * nat * score * score * nat :=
  match l with
  | [] => ([], total_width, leftmost_pos, rightmost_pos, leaf_position)
  | child :: rest =>
      let '(p, x, width, leaf_position) :=
        assign_positions child leaf_position in
      let '(ps, total_width, leftmost_pos, rightmost_pos, leaf_position) :=
        assign_children rest leaf_position (total_width + width)
                        (score_min leftmost_pos x) (score_max rightmost_pos x) in
      (p :: ps, total_width, leftmost_pos, rightmost_pos, leaf_position)
  end.

End Positions.

(** [_calculate_positions(root)]: the positions of the whole tree. *)
Definition _calculate_positions (level_height : R) (root : TreeNode) : placed :=
  let total_leaves := count_leaves root in
  fst (fst (fst (assign_positions level_height total_leaves root 0))).

(** The [x_pos] of the leaves, left to right. *)
Fixpoint leaf_xs (p : placed) : list R :=
  match p with
  | Placed x _ ps =>
      match ps with
      | [] => [x]
      | _ :: _ => flat_map leaf_xs ps
      end
  end.

(** Each position is at least [from], and at least one unit to the right
    of the one before it. *)
Fixpoint spaced (from : R) (xs : list R) : Prop :=
  match xs with
  | [] => True
  | x :: rest => (from <= x)%R /\ spaced (x + 1)%R rest
  end.

(** Every node with children lies halfway between its first and its last
    child, and its children are at least one unit apart, left to right. *)
Fixpoint centred (p : placed) : Prop :=
  match p with
  | Placed x _ ps =>
      match ps with
      | [] => True
      | first :: rest =>
          x = ((x_pos first + x_pos (last rest first)) / 2)%R
          /\ spaced (x_pos first) (map x_pos ps)
      end
      /\ (fix each (l : list placed) : Prop :=
            match l with
            | [] => True
            | q :: l' => centred q /\ each l'
            end) ps
  end.

(** What [assign_positions] returns for a subtree whose first leaf is
    number [lp]. *)
Definition positions_spec (h : R) (t : nat) (node : TreeNode) : Prop :=
  forall lp,
    exists p,
      assign_positions h t node lp
      = (p, x_pos p, count_leaves node, lp + count_leaves node)
      /\ leaf_xs p = map (leaf_x t) (seq lp (count_leaves node))
      /\ (leaf_x t lp <= x_pos p <= leaf_x t (lp + count_leaves node) - 1)%R
      /\ centred p.

(** * uniform-random-points/main.py *)

(** Coordinates are Python floats, idealised as real numbers, with
    [math.cos], [math.sin] and [math.sqrt] as the real functions.  The
    idealisation is exact for the number of points and for the draws each
    of them uses, and not for the last bit of a coordinate: a point the
    code returns may lie outside the unit disc by a rounding error, and
    nothing is stated here about the norm of a returned point. *)
Definition Point : Type := (R * R)%type.

(** The numbers [random.random()] returns, in the order of the calls; the
    state of the generator is the number of calls made. *)
Definition draws := nat -> R.

(** [random.uniform(a, b)], which is [a + (b - a) * random()]. *)
Definition uniform (s : draws) (i : nat) (a b : R) : R * nat :=
  ((a + (b - a) * s i)%R, S i).

Section GeneratePoints.

Variable s : draws.
Variable n_points : Z.

(** [while len(points) < n_points: body], which need not end: [None]
    when the fuel runs out. *)
Fixpoint while_fewer (body : nat -> list Point -> list Point * nat)
         (fuel : nat) (points : list Point) (i : nat)
  : option (list Point * nat) :=
  match fuel with
  | O => None
  | S fuel' =>
      if (Z.of_nat (List.length points) <? n_points)%Z then
        let '(points, i) := body i points in
        while_fewer body fuel' points i
      else Some (points, i)
  end.

(** The body of the ["rejection_sampling"] loop.  The test is on the
    exact sum of the squares; the code tests the rounded sum, which can
    differ for a pair of draws within a rounding error of the circle. *)
Definition rejection_sampling (i : nat) (points : list Point)
  : list Point * nat :=
  let '(x, i) := uniform s i (-1) 1 in
  let '(y, i) := uniform s i (-1) 1 in
  if Rle_dec (x * x + y * y) 1 then (points ++ [(x, y)], i)
  else (points, i).

Definition polar_coordinates (i : nat) (points : list Point)
  : list Point * nat :=
  let '(r, i) := uniform s i 0 1 in
  let '(theta, i) := uniform s i 0 (2 * PI) in
  let x := (r * cos theta)%R in
  let y := (r * sin theta)%R in
  (points ++ [(x, y)], i).

Definition inverse_tansform_sampling (i : nat) (points : list Point)
  : list Point * nat :=
  let '(u, i) := uniform s i 0 1 in
  let r := sqrt u in
  let '(theta, i) := uniform s i 0 (2 * PI) in
  let x := (r * cos theta)%R in
  let y := (r * sin theta)%R in
  (points ++ [(x, y)], i).

Definition infinite_triangle (i : nat) (points : list Point)
  : list Point * nat :=
  let '(a, i) := uniform s i 0 1 in
  let '(b, i) := uniform s i 0 1 in
  let '(theta, i) := uniform s i 0 (2 * PI) in
  let r := (a + b)%R in
  let r := if Rlt_dec 1 r then (2 - r)%R else r in
  let x := (r * cos theta)%R in
  let y := (r * sin theta)%R in
  (points ++ [(x, y)], i).

(** [generate_points(n_points, case)] *)
Definition generate_points (fuel : nat) (case : string)
  : option (list Point) :=
  if String.eqb case "rejection_sampling" then
    option_map fst (while_fewer rejection_sampling fuel [] 0)
  else if String.eqb case "polar_coordinates" then
    option_map fst (while_fewer polar_coordinates fuel [] 0)
  else if String.eqb case "inverse_tansform_sampling" then
    option_map fst (while_fewer inverse_tansform_sampling fuel [] 0)
  else if String.eqb case "infinite_triangle" then
    option_map fst (while_fewer infinite_triangle fuel [] 0)
  else Some [].

End GeneratePoints.

(** Every draw is in [[0, 1)], as [random.random()] promises. *)
Definition in_unit (s : draws) : Prop :=
  forall i, (0 <= s i < 1)%R.

(** The point is in the closed unit disc. *)
Definition in_disc (p : Point) : Prop :=
  (fst p * fst p + snd p * snd p <= 1)%R.

(** The pair of draws [i], [i + 1] gives a point of the square that is
    in the disc. *)
Definition accepted (s : draws) (i : nat) : Prop :=
  in_disc (fst (uniform s i (-1) 1), fst (uniform s (S i) (-1) 1)).

(** The four strings [generate_points] compares [case] with. *)
Definition known_case (case : string) : bool :=
  String.eqb case "rejection_sampling"
  || String.eqb case "polar_coordinates"
  || String.eqb case "inverse_tansform_sampling"
  || String.eqb case "infinite_triangle".

(** Draws that are all [0], and draws that are all [1/2]. *)
Definition all_zero : draws := fun _ => 0%R.
Definition all_half : draws := fun _ => (1 / 2)%R.
(** * Properties *)

(** ** The order on extended integers, continued *)

Module ZextOrder.
Definition t := zext.
Definition eq : t -> t -> Prop := @Logic.eq zext.
Definition lt : t -> t -> Prop := zext_lt.
Definition le : t -> t -> Prop := zext_le.

Lemma eq_equiv : Equivalence eq.
Proof. unfold eq. split; congruence. Qed.

Lemma lt_strorder : StrictOrder lt.
Proof.
  split.
  - intros x. unfold complement, lt, zext_lt, t in *. intros H. zext_cases.
  - intros x y z. unfold lt, zext_lt, t in *. intros H1 H2. zext_cases.
Qed.

Lemma lt_compat : Proper (eq ==> eq ==> iff) lt.
Proof. unfold eq. intros x x' Hx y y' Hy. subst. reflexivity. Qed.

Lemma le_lteq : forall x y, le x y <-> lt x y \/ eq x y.
Proof.
  intros x y. unfold le, lt, zext_le, zext_lt, eq, zle, zlt, ext_leb, t in *.
  destruct x as [|a|], y as [|b|]; simpl; split; intros H;
    try (destruct H as [H|H]); try discriminate; auto.
  - destruct (Z.ltb_spec a b), (Z.ltb_spec b a); simpl in *;
      try discriminate; auto.
    right. f_equal. lia.
  - destruct (Z.ltb_spec a b), (Z.ltb_spec b a); simpl in *;
      try discriminate; auto. lia.
  - inversion H; subst. rewrite Z.ltb_irrefl. reflexivity.
Qed.

Lemma lt_total : forall x y, lt x y \/ eq x y \/ lt y x.
Proof.
  intros x y. unfold lt, zext_lt, eq, zlt, t in *.
  destruct x as [|a|], y as [|b|]; simpl; auto.
  destruct (Z.ltb_spec a b), (Z.ltb_spec b a); auto.
  right. left. f_equal. lia.
Qed.
End ZextOrder.

Module ZextOrderTac := MakeOrderTac ZextOrder ZextOrder.

Lemma zlt_false x y : zlt x y = false -> zext_le y x.
Proof. unfold zext_le, zle, ext_leb, zlt. intros H. rewrite H. reflexivity. Qed.

Lemma zle_false x y : zle x y = false -> zext_lt y x.
Proof.
  unfold zext_lt, zle, ext_leb, zlt. intros H.
  destruct (ext_ltb Z.ltb y x); [reflexivity|discriminate].
Qed.

Lemma NegInf_least x : zext_le NegInf x.
Proof. destruct x; reflexivity. Qed.

Lemma PosInf_greatest x : zext_le x PosInf.
Proof. destruct x; reflexivity. Qed.

(** Turn the comparisons in the context into order facts and decide. *)
Ltac zorder :=
  repeat match goal with
         | H : zlt ?x ?y = true |- _ => change (zext_lt x y) in H
         | H : zlt ?x ?y = false |- _ => apply zlt_false in H
         | H : zle ?x ?y = true |- _ => change (zext_le x y) in H
         | H : zle ?x ?y = false |- _ => apply zle_false in H
         | |- zlt ?x ?y = true => change (zext_lt x y)
         | |- zle ?x ?y = true => change (zext_le x y)
         end;
  ZextOrderTac.order.

(** ** The two files agree *)

Lemma common_fields_children_loop pruning m cs :
  Forall (fun c => forall a b,
              MinimaxFile.minimax pruning (common_fields c) a b
              = map_result (fun r => (fst r, common_fields (snd r)))
                           (minimax pruning c a b)) cs ->
  forall i v best a b,
    MinimaxFile.children_loop pruning (MinimaxFile.minimax pruning) m i
                              (map common_fields cs) v best a b
    = map_result (fun r => (fst r, map common_fields (snd r)))
                 (children_loop pruning (minimax pruning) m i cs v best a b).
Proof.
  induction 1 as [|c cs Hc Hcs IH]; intros i v best a b; simpl.
  - reflexivity.
  - replace (MinimaxFile.pruned (common_fields c)) with (pruned c)
      by (destruct c; reflexivity).
    destruct (pruned c).
    + rewrite IH.
      destruct (children_loop pruning (minimax pruning) m (S i) cs v best a b)
        as [[[v' b'] cs']|e]; reflexivity.
    + rewrite Hc.
      destruct (minimax pruning c a b) as [[[cv|] c']|e]; simpl; try reflexivity.
      match goal with
      | |- context [if ?t then _ else _] => destruct t
      end.
      * simpl. f_equal. f_equal. f_equal.
        rewrite !map_map. apply map_ext. intros [ ]; reflexivity.
      * rewrite IH.
        match goal with
        | |- context [children_loop ?p ?r ?mm ?ii ?l ?vv ?bb ?aa ?be] =>
            destruct (children_loop p r mm ii l vv bb aa be) as [[[v' b'] cs']|e]
        end; reflexivity.
Qed.

Lemma common_fields_minimax pruning node :
  forall a b,
    MinimaxFile.minimax pruning (common_fields node) a b
    = map_result (fun r => (fst r, common_fields (snd r)))
                 (minimax pruning node a b).
Proof.
  induction node as [i v cs d m a0 b0 p vi w IH] using TreeNode_nested_ind.
  intros a b. destruct cs as [|c cs].
  - reflexivity.
  - cbn [common_fields minimax MinimaxFile.minimax map].
    change (common_fields c :: map common_fields cs)
      with (map common_fields (c :: cs)).
    rewrite (common_fields_children_loop pruning m _ IH).
    destruct (children_loop pruning (minimax pruning) m 0 (c :: cs)
                            (initial_value m) None a b)
      as [[[v' b'] cs']|e]; reflexivity.
Qed.

Lemma common_fields_pruned_edges node :
  MinimaxFile.pruned_edges (common_fields node) = pruned_edges node.
Proof.
  induction node as [i v cs d m a0 b0 p vi w IH] using TreeNode_nested_ind.
  simpl. f_equal.
  - clear IH. induction cs as [|c cs IHcs]; simpl; [reflexivity|].
    replace (MinimaxFile.pruned (common_fields c)) with (pruned c)
      by (destruct c; reflexivity).
    destruct (pruned c); simpl; rewrite IHcs; [|reflexivity].
    f_equal. destruct c; reflexivity.
  - induction IH as [|c cs Hc Hcs IHcs]; simpl; [reflexivity|].
    rewrite Hc, IHcs. reflexivity.
Qed.

Lemma common_fields_build_subtree data :
  forall depth is_max,
    MinimaxFile._build_subtree data depth is_max
    = map_result common_fields (_build_subtree data depth is_max).
Proof.
  induction data as [jid jvalue cs IH] using json_node_nested_ind.
  intros depth is_max. destruct jid as [i|]; [|reflexivity].
  cbn [MinimaxFile._build_subtree _build_subtree].
  match goal with
  | |- bind (?f cs) _ = map_result _ (bind (?g cs) _) =>
      assert (Hcs : f cs = map_result (map common_fields) (g cs))
  end.
  { induction IH as [|c cs Hc Hcs IHcs]; [reflexivity|].
    rewrite Hc. destruct (_build_subtree c (S depth) (negb is_max)); simpl;
      [|reflexivity].
    rewrite IHcs.
    match goal with
    | |- context [map_result _ ?r] => destruct r
    end; reflexivity. }
  rewrite Hcs.
  match goal with
  | |- context [map_result _ ?r] => destruct r
  end; reflexivity.
Qed.

(** C10.  The functions of visualizer_all.py and of visualizer_minimax.py
    agree.  From the same document both [build_tree] raise the same
    exception, or both build nothing, or both build a tree; and then, with
    the same pruning flag, both [run_minimax] raise the same exception or
    return the same value and leave the same set of pruned edges. *)
Theorem minimax_files_agree (pruning : bool) (data : tree_data) :
  match build_tree data, MinimaxFile.build_tree data with
  | Ok (Some root), Ok (Some root') =>
      match run_minimax pruning root, MinimaxFile.run_minimax pruning root' with
      | Ok (v, after), Ok (v', after') =>
          v = v' /\ pruned_edges after = MinimaxFile.pruned_edges after'
      | Raise e, Raise e' => e = e'
      | _, _ => False
      end
  | Ok None, Ok None => True
  | Raise e, Raise e' => e = e'
  | _, _ => False
  end.
Proof.
  destruct data as [|[root_data|]]; simpl; trivial.
  rewrite common_fields_build_subtree.
  destruct (_build_subtree root_data 0 true) as [root|e]; simpl; trivial.
  unfold MinimaxFile.run_minimax, run_minimax.
  rewrite common_fields_minimax.
  destruct (minimax pruning root NegInf PosInf) as [[v after]|e]; simpl; trivial.
  split; [reflexivity|].
  symmetry. apply common_fields_pruned_edges.
Qed.

(** ** The evaluation contract *)

Lemma all_nodes_inv p i v cs d m a b pr vi w :
  all_nodes p (mkTreeNode i v cs d m a b pr vi w) = true ->
  p (mkTreeNode i v cs d m a b pr vi w) = true
  /\ forallb (all_nodes p) cs = true.
Proof. simpl. intros H. apply andb_true_iff in H. exact H. Qed.

Lemma unpruned_not_pruned c : unpruned c = true -> pruned c = false.
Proof.
  destruct c as [i v cs d m a b pr vi w]. intros H.
  apply all_nodes_inv in H. destruct H as [H _]. simpl in H.
  destruct pr; [discriminate|reflexivity].
Qed.

Lemma children_loop_contract pruning m cs :
  Forall (follows_contract pruning) cs ->
  forallb unpruned cs = true ->
  forallb leaves_valued cs = true ->
  forall i v best a b,
    (best = None -> v = initial_value m) ->
    (best <> None -> exists z, v = Fin z) ->
    children_loop pruning (minimax pruning) m i cs v best a b
    = spec_evaluate_children pruning (spec_evaluate pruning) m i cs v best a b
    /\ exists v' best' cs',
        children_loop pruning (minimax pruning) m i cs v best a b
        = Ok (v', best', cs')
        /\ (cs <> [] \/ best <> None -> exists z, v' = Fin z).
Proof.
  induction 1 as [|c cs Hc Hcs IH]; intros Hun Hval i v best a b Hnone Hsome.
  - simpl. split; [reflexivity|].
    exists v, best, []. split; [reflexivity|].
    intros [H|H]; [congruence|auto].
  - simpl in Hun, Hval.
    apply andb_true_iff in Hun. destruct Hun as [Hun_c Hun].
    apply andb_true_iff in Hval. destruct Hval as [Hval_c Hval].
    simpl. rewrite (unpruned_not_pruned c Hun_c).
    destruct (Hc Hun_c Hval_c a b) as [Heq [z [c' Hrun]]].
    rewrite <- Heq, Hrun. simpl.
    set (update := match best with
                   | None => true
                   | Some _ => (m && zlt v (Fin z)) || (negb m && zlt (Fin z) v)
                   end).
    set (better := if m then zlt v (Fin z) else zlt (Fin z) v).
    assert (Hupd : update = better).
    { subst update better. destruct best as [k|].
      - destruct m; simpl; [apply orb_false_r|reflexivity].
      - rewrite (Hnone eq_refl). destruct m; reflexivity. }
    rewrite <- Hupd.
    assert (Hfin : exists z', (if update then Fin z else v) = Fin z').
    { destruct update eqn:E; [eauto|].
      destruct best as [k|]; [apply Hsome; congruence|].
      subst update. discriminate. }
    assert (Hbest : (if update then Some i else best) <> None).
    { destruct update eqn:E; [congruence|].
      destruct best as [k|]; [congruence|]. subst update. discriminate. }
    destruct (pruning && zle _ _).
    + split; [reflexivity|].
      do 3 eexists. split; [reflexivity|]. intros _. exact Hfin.
    + destruct (IH Hun Hval (S i) (if update then Fin z else v)
                   (if update then Some i else best)
                   (if m then zmax a (if update then Fin z else v) else a)
                   (if m then b else zmin b (if update then Fin z else v)))
        as [Heq' [v' [best' [cs' [Hrun' Hfin']]]]].
      * intros H. contradiction.
      * intros _. exact Hfin.
      * rewrite <- Heq', Hrun'. simpl. split; [reflexivity|].
        do 3 eexists. split; [reflexivity|]. intros _.
        apply Hfin'. right. exact Hbest.
Qed.

Lemma minimax_follows_contract pruning node : follows_contract pruning node.
Proof.
  induction node as [i v cs d m a0 b0 p vi w IH] using TreeNode_nested_ind.
  intros Hun Hval a b.
  apply all_nodes_inv in Hun. destruct Hun as [_ Hun].
  apply all_nodes_inv in Hval. destruct Hval as [Hleaf Hval].
  destruct cs as [|c cs].
  - simpl. split; [reflexivity|].
    unfold leaf_has_number in Hleaf. simpl in Hleaf.
    destruct v as [[|z|]|]; try discriminate. eauto.
  - destruct (children_loop_contract pruning m _ IH Hun Hval 0
                (initial_value m) None a b)
      as [Heq [v' [best' [cs' [Hrun Hfin]]]]]; [reflexivity|congruence|].
    cbn [minimax spec_evaluate]. unfold initial_value in *.
    rewrite <- Heq, Hrun. simpl. split; [reflexivity|].
    destruct Hfin as [z Hz]; [left; discriminate|]. subst v'. eauto.
Qed.

(** C2.  The evaluation contract.  On a tree as [build_tree] leaves it (no
    node marked pruned, every leaf carrying a number), [minimax] is the
    evaluation of section 4.2: value started at minus infinity (MAX) or
    plus infinity (MIN), children in order, each non-pruned child
    evaluated with the current window, value and best edge replaced only
    on a strictly better child value, the bound tightened after each
    update, and the resolved value stored on the node on exit. *)
Theorem minimax_meets_contract (pruning : bool) (node : TreeNode) (a b : zext) :
  unpruned node = true ->
  leaves_valued node = true ->
  minimax pruning node a b = spec_evaluate pruning node a b
  /\ best_edge pruning node a b = spec_best_edge pruning node a b
  /\ exists z after,
      minimax pruning node a b = Ok (Some (Fin z), after)
      /\ value after = Some (Fin z).
Proof.
  intros Hun Hval.
  destruct (minimax_follows_contract pruning node Hun Hval a b)
    as [Heq [z [after Hrun]]].
  split; [exact Heq|]. split.
  - destruct node as [i v cs d m a0 b0 p vi w].
    apply all_nodes_inv in Hun. destruct Hun as [_ Hun].
    apply all_nodes_inv in Hval. destruct Hval as [_ Hval].
    assert (IH : Forall (follows_contract pruning) cs).
    { apply Forall_forall. intros c _. apply minimax_follows_contract. }
    destruct (children_loop_contract pruning m cs IH Hun Hval 0
                (initial_value m) None a b)
      as [Hloop _]; [reflexivity|congruence|].
    unfold best_edge, spec_best_edge. simpl.
    unfold initial_value in *. rewrite Hloop. reflexivity.
  - exists z, after. split; [exact Hrun|].
    destruct node as [i v cs d m a0 b0 p vi w].
    destruct cs as [|c cs]; cbn [minimax] in Hrun.
    + inversion Hrun; subst. reflexivity.
    + destruct (children_loop pruning (minimax pruning) m 0 (c :: cs)
                              (initial_value m) None a b)
        as [[[v' b'] cs']|e]; simpl in Hrun; [|discriminate].
      inversion Hrun; subst. reflexivity.
Qed.

Lemma minimax_meets_contract_witness :
  minimax true example_tree NegInf PosInf
  = spec_evaluate true example_tree NegInf PosInf
  /\ best_edge true example_tree NegInf PosInf
     = spec_best_edge true example_tree NegInf PosInf
  /\ exists z after,
      minimax true example_tree NegInf PosInf = Ok (Some (Fin z), after)
      /\ value after = Some (Fin z).
Proof.
  apply (minimax_meets_contract true example_tree NegInf PosInf); reflexivity.
Defined.

(** ** Pruning: effect and frame *)

Lemma frame_at_refl pruning c : frame_at pruning c c.
Proof. intros path. destruct (node_at c path); auto. Qed.

Lemma frame_at_set_pruned c : frame_at true c (set_pruned c).
Proof.
  intros [|k path].
  - simpl. auto.
  - replace (node_at (set_pruned c) (k :: path)) with (node_at c (k :: path))
      by (destruct c; reflexivity).
    destruct (node_at c (k :: path)); auto.
Qed.

Lemma children_loop_frame pruning m cs :
  Forall (keeps_frame pruning) cs ->
  forall i value best a b v' best' cs',
    children_loop pruning (minimax pruning) m i cs value best a b
    = Ok (v', best', cs') ->
    Forall2 (frame_at pruning) cs cs'.
Proof.
  induction 1 as [|c cs Hc Hcs IH]; intros i value best a b v' best' cs' Hrun.
  - simpl in Hrun. inversion Hrun; subst. constructor.
  - simpl in Hrun. destruct (pruned c).
    + destruct (children_loop pruning (minimax pruning) m (S i) cs value best a b)
        as [[[v1 b1] cs1]|e] eqn:E; simpl in Hrun; [|discriminate].
      inversion Hrun; subst. constructor.
      * apply frame_at_refl.
      * eapply IH. exact E.
    + destruct (minimax pruning c a b) as [[[cv|] c1]|e] eqn:Ec;
        simpl in Hrun; try discriminate.
      match type of Hrun with
      | (if ?t then _ else _) = _ => destruct t eqn:Ecut
      end.
      * inversion Hrun; subst. constructor.
        -- eapply Hc. exact Ec.
        -- apply andb_true_iff in Ecut. destruct Ecut as [Ep _]. subst pruning.
           clear. induction cs as [|x cs IHcs]; simpl; constructor; auto.
           apply frame_at_set_pruned.
      * match type of Hrun with
        | bind ?r _ = _ => destruct r as [[[v1 b1] cs1]|e] eqn:E
        end; simpl in Hrun; [|discriminate].
        inversion Hrun; subst. constructor.
        -- eapply Hc. exact Ec.
        -- eapply IH. exact E.
Qed.

Lemma minimax_keeps_frame pruning node : keeps_frame pruning node.
Proof.
  induction node as [i v cs d m a0 b0 p vi w IH] using TreeNode_nested_ind.
  intros a b v' after Hrun.
  assert (Hshape : pruned after = p
                   /\ Forall2 (frame_at pruning) cs (children after)).
  { destruct cs as [|c cs]; cbn [minimax] in Hrun.
    - inversion Hrun; subst. simpl. split; [reflexivity|constructor].
    - destruct (children_loop pruning (minimax pruning) m 0 (c :: cs)
                              (initial_value m) None a b)
        as [[[v1 b1] cs1]|e] eqn:E; simpl in Hrun; [|discriminate].
      inversion Hrun; subst. simpl. split; [reflexivity|].
      eapply children_loop_frame; eauto. }
  destruct Hshape as [Hp Hcs].
  intros [|k path].
  - simpl. auto.
  - simpl. clear - Hcs.
    revert k. induction Hcs as [|x y xs ys Hxy Hrest IHrest]; intros k.
    + destruct k; simpl; trivial.
    + destruct k as [|k]; simpl.
      * apply Hxy.
      * apply IHrest.
Qed.

Lemma only_flag_set_set_pruned n : only_flag_set n (set_pruned n).
Proof. destruct n. repeat split. Qed.

(** C8.  Pruning: effect and frame.  (1) When pruning is on and
    [beta <= alpha] holds after a child has been processed, the loop ends
    there and every remaining child comes out marked: its [pruned] flag is
    [True], and every other field, its children included, is what it was,
    so that it was not entered and was given no value.  (2) A node that a
    run with pruning marks is left exactly as it was but for the flag: it
    is not entered, nothing below it changes, and it is given no computed
    value.  (3) With pruning off, the flag of every node is after the run
    what it was before. *)
Theorem pruning_effect_and_frame :
  (forall rec m i child rest value best a b cv child',
      pruned child = false ->
      rec child a b = Ok (Some cv, child') ->
      let update := match best with
                    | None => true
                    | Some _ => (m && zlt value cv) || (negb m && zlt cv value)
                    end in
      let value' := if update then cv else value in
      let best' := if update then Some i else best in
      let alpha' := if m then zmax a value' else a in
      let beta' := if m then b else zmin b value' in
      zle beta' alpha' = true ->
      exists rest',
        children_loop true rec m i (child :: rest) value best a b
        = Ok (value', best', child' :: rest')
        /\ Forall2 only_flag_set rest rest'
        /\ Forall (fun c' => pruned c' = true) rest')
  /\ (forall node a b v after path n n',
         minimax true node a b = Ok (v, after) ->
         node_at node path = Some n ->
         node_at after path = Some n' ->
         pruned n = false ->
         pruned n' = true ->
         only_flag_set n n')
  /\ (forall node a b v after path,
         minimax false node a b = Ok (v, after) ->
         option_map pruned (node_at after path)
         = option_map pruned (node_at node path)).
Proof.
  split; [|split].
  - intros rec m i child rest value best a b cv child' Hp Hrec
           update value' best' alpha' beta' Hcut.
    exists (map set_pruned rest). split; [|split].
    + simpl. rewrite Hp, Hrec. simpl.
      fold update. fold value'. fold best'. fold alpha'. fold beta'.
      rewrite Hcut. reflexivity.
    + clear. induction rest as [|c rest IH]; constructor;
        [apply only_flag_set_set_pruned|exact IH].
    + clear. induction rest as [|c rest IH]; constructor;
        [apply only_flag_set_set_pruned|exact IH].
  - intros node a b v after path n n' Hrun Hn Hn' Hfalse Htrue.
    pose proof (minimax_keeps_frame true node a b v after Hrun path) as H.
    rewrite Hn, Hn' in H. destruct H as [Hsame|[_ Hset]]; [congruence|].
    subst n'. apply only_flag_set_set_pruned.
  - intros node a b v after path Hrun.
    pose proof (minimax_keeps_frame false node a b v after Hrun path) as H.
    destruct (node_at node path), (node_at after path); simpl;
      try contradiction; [|reflexivity].
    destruct H as [Hsame|[Hfalse _]]; [|discriminate].
    rewrite Hsame. reflexivity.
Qed.

Lemma pruning_effect_and_frame_witness :
  exists after n n',
    minimax true example_tree NegInf PosInf = Ok (Some (Fin 3%Z), after)
    /\ node_at example_tree [1; 1] = Some n
    /\ node_at after [1; 1] = Some n'
    /\ pruned n = false
    /\ pruned n' = true
    /\ only_flag_set n n'.
Proof.
  eexists. eexists. eexists.
  split; [reflexivity|]. split; [reflexivity|]. split; [reflexivity|].
  split; [reflexivity|]. split; [reflexivity|].
  apply (proj1 (proj2 pruning_effect_and_frame)
               example_tree NegInf PosInf _ _ [1; 1] _ _
               eq_refl eq_refl eq_refl eq_refl eq_refl).
Defined.

(** ** Pruning does not change the value *)

Lemma zmax_cases x y :
  (zext_lt x y /\ zmax x y = y) \/ (zext_le y x /\ zmax x y = x).
Proof.
  unfold zmax, ext_max. fold zlt. destruct (zlt x y) eqn:E.
  - left. split; [exact E|reflexivity].
  - right. split; [apply zlt_false; exact E|reflexivity].
Qed.

Lemma zmin_cases x y :
  (zext_lt y x /\ zmin x y = y) \/ (zext_le x y /\ zmin x y = x).
Proof.
  unfold zmin, ext_min. fold zlt. destruct (zlt y x) eqn:E.
  - left. split; [exact E|reflexivity].
  - right. split; [apply zlt_false; exact E|reflexivity].
Qed.

Ltac split_max :=
  repeat match goal with
         | |- context [zmax ?x ?y] =>
             let H := fresh "Hm" in
             let E := fresh "Em" in
             destruct (zmax_cases x y) as [[H E]|[H E]]; rewrite E in *; clear E
         | H0 : context [zmax ?x ?y] |- _ =>
             let H := fresh "Hm" in
             let E := fresh "Em" in
             destruct (zmax_cases x y) as [[H E]|[H E]]; rewrite E in *; clear E
         | |- context [zmin ?x ?y] =>
             let H := fresh "Hm" in
             let E := fresh "Em" in
             destruct (zmin_cases x y) as [[H E]|[H E]]; rewrite E in *; clear E
         | H0 : context [zmin ?x ?y] |- _ =>
             let H := fresh "Hm" in
             let E := fresh "Em" in
             destruct (zmin_cases x y) as [[H E]|[H E]]; rewrite E in *; clear E
         end.

Ltac sound_cases :=
  unfold window_sound in *;
  repeat match goal with
         | H : _ \/ _ |- _ => destruct H as [H|H]
         | H : _ /\ _ |- _ => destruct H as [? H]
         end;
  subst;
  first [ left; split; zorder
        | right; left; split; zorder
        | right; right; split; [|split]; zorder
        | exfalso; zorder ].

Lemma step_max a b M V m' v' :
  zext_lt a b ->
  window_sound a b M V ->
  zext_lt (zmax a V) b ->
  window_sound (zmax a V) b m' v' ->
  window_sound a b (zmax M m') (zmax V v').
Proof. intros Hab HS Hcont HC. split_max; sound_cases. Qed.

Lemma step_min a b M V m' v' :
  zext_lt a b ->
  window_sound a b M V ->
  zext_lt a (zmin b V) ->
  window_sound a (zmin b V) m' v' ->
  window_sound a b (zmin M m') (zmin V v').
Proof. intros Hab HS Hcont HC. split_max; sound_cases. Qed.

Lemma zmax_absorb a V v' : zmax (zmax a V) (zmax V v') = zmax a (zmax V v').
Proof. split_max; zorder. Qed.

Lemma zmin_absorb b V v' : zmin (zmin b V) (zmin V v') = zmin b (zmin V v').
Proof. split_max; zorder. Qed.

Lemma fold_value_max_ge l : forall M, zext_le M (fold_value true l M).
Proof.
  induction l as [|x l IH]; intros M; simpl.
  - zorder.
  - specialize (IH (zmax M x)). unfold fold_value in IH.
    split_max; zorder.
Qed.

Lemma fold_value_min_le l : forall M, zext_le (fold_value false l M) M.
Proof.
  induction l as [|x l IH]; intros M; simpl.
  - zorder.
  - specialize (IH (zmin M x)). unfold fold_value in IH.
    split_max; zorder.
Qed.

Lemma cut_max a b M V M' :
  zext_lt a b -> window_sound a b M V -> zle b (zmax a V) = true ->
  zext_le M M' -> window_sound a b M' V.
Proof. intros Hab HS Hcut HM. split_max; sound_cases. Qed.

Lemma cut_min a b M V M' :
  zext_lt a b -> window_sound a b M V -> zle (zmin b V) a = true ->
  zext_le M' M -> window_sound a b M' V.
Proof. intros Hab HS Hcut HM. split_max; sound_cases. Qed.

(** The update rule of the loop keeps the larger (MAX) or smaller (MIN)
    of the running value and the child's value. *)
Lemma update_value m V (best : option nat) cv :
  (best = None -> V = initial_value m) ->
  (if match best with
      | None => true
      | Some _ => (m && zlt V cv) || (negb m && zlt cv V)
      end
   then cv else V)
  = if m then zmax V cv else zmin V cv.
Proof.
  intros Hinit. destruct best as [k|].
  - destruct m; simpl; [rewrite orb_false_r|]; reflexivity.
  - rewrite (Hinit eq_refl). destruct m, cv; reflexivity.
Qed.

Lemma update_best m V (best : option nat) cv i :
  (if match best with
      | None => true
      | Some _ => (m && zlt V cv) || (negb m && zlt cv V)
      end
   then Some i else best) <> None.
Proof.
  destruct best as [k|]; [|discriminate].
  destruct ((m && zlt V cv) || (negb m && zlt cv V)); discriminate.
Qed.

Lemma children_loop_sound (m : bool) (cs : list TreeNode) :
  Forall sound_node cs ->
  forallb unpruned cs = true ->
  forallb leaves_valued cs = true ->
  forall (i : nat) (V : zext) (best : option nat) (a b M : zext),
    zext_lt a b ->
    window_sound a b M V ->
    zext_lt (if m then zmax a V else a) (if m then b else zmin b V) ->
    (best = None -> V = initial_value m) ->
    exists V' best' cs',
      children_loop true (minimax true) m i cs V best
                    (if m then zmax a V else a) (if m then b else zmin b V)
      = Ok (V', best', cs')
      /\ window_sound a b (fold_value m (map game_value cs) M) V'.
Proof.
  induction 1 as [|c cs Hc Hcs IH];
    intros Hun Hval i V best a b M Hab HS Hcont Hinit.
  - simpl. do 3 eexists. split; [reflexivity|exact HS].
  - simpl in Hun, Hval.
    apply andb_true_iff in Hun. destruct Hun as [Hun_c Hun].
    apply andb_true_iff in Hval. destruct Hval as [Hval_c Hval].
    destruct (Hc Hun_c Hval_c _ _ Hcont) as [v' [c1 [Hrun HC]]].
    cbn [children_loop]. rewrite (unpruned_not_pruned c Hun_c), Hrun.
    cbn [bind]. cbv beta iota zeta.
    rewrite (update_value m V best v' Hinit).
    pose proof (update_best m V best v' i) as Hbest.
    set (best' := if match best with
                     | None => true
                     | Some _ => (m && zlt V v') || (negb m && zlt v' V)
                     end
                  then Some i else best) in *.
    clearbody best'.
    destruct m; cbn [map fold_value fold_left andb] in *.
    + rewrite zmax_absorb.
      pose proof (step_max a b M V (game_value c) v' Hab HS Hcont HC) as HS'.
      destruct (zle b (zmax a (zmax V v'))) eqn:Hcut.
      * do 3 eexists. split; [reflexivity|].
        eapply cut_max; eauto. apply fold_value_max_ge.
      * apply zle_false in Hcut.
        destruct (IH Hun Hval (S i) (zmax V v') best' a b
                     (zmax M (game_value c)) Hab HS' Hcut)
          as [V2 [best2 [cs2 [Hrun2 HS2]]]]; [congruence|].
        cbn [andb] in Hrun2. rewrite Hrun2. cbn [bind].
        do 3 eexists. split; [reflexivity|exact HS2].
    + rewrite zmin_absorb.
      pose proof (step_min a b M V (game_value c) v' Hab HS Hcont HC) as HS'.
      destruct (zle (zmin b (zmin V v')) a) eqn:Hcut.
      * do 3 eexists. split; [reflexivity|].
        eapply cut_min; eauto. apply fold_value_min_le.
      * apply zle_false in Hcut.
        destruct (IH Hun Hval (S i) (zmin V v') best' a b
                     (zmin M (game_value c)) Hab HS' Hcut)
          as [V2 [best2 [cs2 [Hrun2 HS2]]]]; [congruence|].
        cbn [andb] in Hrun2. rewrite Hrun2. cbn [bind].
        do 3 eexists. split; [reflexivity|exact HS2].
Qed.

Lemma zmax_NegInf a : zmax a NegInf = a.
Proof. destruct a; reflexivity. Qed.

Lemma zmin_PosInf b : zmin b PosInf = b.
Proof. destruct b; reflexivity. Qed.

Lemma window_sound_exact a b v : window_sound a b v v.
Proof.
  destruct (zlt a v) eqn:E1; destruct (zlt v b) eqn:E2; sound_cases.
Qed.

Lemma minimax_sound node : sound_node node.
Proof.
  induction node as [i v cs d m a0 b0 p vi w IH] using TreeNode_nested_ind.
  intros Hun Hval a b Hab.
  apply all_nodes_inv in Hun. destruct Hun as [_ Hun].
  apply all_nodes_inv in Hval. destruct Hval as [Hleaf Hval].
  destruct cs as [|c cs].
  - unfold leaf_has_number in Hleaf. simpl in Hleaf.
    destruct v as [[|z|]|]; try discriminate.
    simpl. do 2 eexists. split; [reflexivity|apply window_sound_exact].
  - assert (Hcont : zext_lt (if m then zmax a (initial_value m) else a)
                            (if m then b else zmin b (initial_value m))).
    { destruct m; simpl; [rewrite zmax_NegInf|rewrite zmin_PosInf]; exact Hab. }
    assert (HS : window_sound a b (initial_value m) (initial_value m)).
    { destruct m; simpl; [left|right; left]; split;
        first [apply NegInf_least | apply PosInf_greatest]. }
    destruct (children_loop_sound m (c :: cs) IH Hun Hval 0 (initial_value m)
                                  None a b (initial_value m) Hab HS Hcont)
      as [V' [best' [cs' [Hrun HS']]]]; [reflexivity|].
    assert (Ea : (if m then zmax a (initial_value m) else a) = a).
    { destruct m; simpl; [apply zmax_NegInf|reflexivity]. }
    assert (Eb : (if m then b else zmin b (initial_value m)) = b).
    { destruct m; simpl; [reflexivity|apply zmin_PosInf]. }
    rewrite Ea, Eb in Hrun.
    cbn [minimax]. rewrite Hrun. cbn [bind].
    do 2 eexists. split; [reflexivity|exact HS'].
Qed.

Lemma children_loop_plain (m : bool) (cs : list TreeNode) :
  Forall plain_node cs ->
  forallb unpruned cs = true ->
  forallb leaves_valued cs = true ->
  forall (i : nat) (V : zext) (best : option nat) (a b : zext),
    (best = None -> V = initial_value m) ->
    exists best' cs',
      children_loop false (minimax false) m i cs V best a b
      = Ok (fold_value m (map game_value cs) V, best', cs').
Proof.
  induction 1 as [|c cs Hc Hcs IH]; intros Hun Hval i V best a b Hinit.
  - simpl. do 2 eexists. reflexivity.
  - simpl in Hun, Hval.
    apply andb_true_iff in Hun. destruct Hun as [Hun_c Hun].
    apply andb_true_iff in Hval. destruct Hval as [Hval_c Hval].
    destruct (Hc Hun_c Hval_c a b) as [c1 Hrun].
    cbn [children_loop]. rewrite (unpruned_not_pruned c Hun_c), Hrun.
    cbn [bind andb]. cbv beta iota zeta.
    rewrite (update_value m V best (game_value c) Hinit).
    pose proof (update_best m V best (game_value c) i) as Hbest.
    set (best' := if match best with
                     | None => true
                     | Some _ => (m && zlt V (game_value c))
                                 || (negb m && zlt (game_value c) V)
                     end
                  then Some i else best) in *.
    clearbody best'.
    match goal with
    | |- context [children_loop false (minimax false) m (S i) cs ?V' best' ?a' ?b'] =>
        destruct (IH Hun Hval (S i) V' best' a' b') as [best2 [cs2 Hrun2]];
          [congruence|rewrite Hrun2]
    end.
    cbn [bind]. do 2 eexists. reflexivity.
Qed.

Lemma minimax_plain node : plain_node node.
Proof.
  induction node as [i v cs d m a0 b0 p vi w IH] using TreeNode_nested_ind.
  intros Hun Hval a b.
  apply all_nodes_inv in Hun. destruct Hun as [_ Hun].
  apply all_nodes_inv in Hval. destruct Hval as [Hleaf Hval].
  destruct cs as [|c cs].
  - unfold leaf_has_number in Hleaf. simpl in Hleaf.
    destruct v as [[|z|]|]; try discriminate.
    simpl. eexists. reflexivity.
  - destruct (children_loop_plain m (c :: cs) IH Hun Hval 0 (initial_value m)
                                  None a b)
      as [best' [cs' Hrun]]; [reflexivity|].
    cbn [minimax]. rewrite Hrun. cbn [bind]. eexists. reflexivity.
Qed.

Lemma minimax_stores_value pruning node a b v after :
  minimax pruning node a b = Ok (v, after) -> value after = v.
Proof.
  destruct node as [i v0 cs d m a0 b0 p vi w].
  destruct cs as [|c cs]; cbn [minimax]; intros Hrun.
  - inversion Hrun; subst. reflexivity.
  - destruct (children_loop pruning (minimax pruning) m 0 (c :: cs)
                            (initial_value m) None a b)
      as [[[v' b'] cs']|e]; simpl in Hrun; [|discriminate].
    inversion Hrun; subst. reflexivity.
Qed.

(** C1.  Pruning equivalence.  On a tree as [build_tree] leaves it (no
    node marked pruned, every leaf carrying a number) the run with pruning
    and the run without return the same root value, the game value of the
    root, and store it on the root.  The leaf values need not be
    distinct. *)
Theorem pruning_preserves_root_value (root : TreeNode) :
  unpruned root = true ->
  leaves_valued root = true ->
  exists v with_pruning without_pruning,
    run_minimax true root = Ok (Some v, with_pruning)
    /\ run_minimax false root = Ok (Some v, without_pruning)
    /\ value with_pruning = Some v
    /\ value without_pruning = Some v
    /\ v = game_value root.
Proof.
  intros Hun Hval. unfold run_minimax.
  destruct (minimax_sound root Hun Hval NegInf PosInf eq_refl)
    as [v [c1 [Hrun1 HS]]].
  destruct (minimax_plain root Hun Hval NegInf PosInf) as [c2 Hrun2].
  assert (Hv : v = game_value root).
  { pose proof (NegInf_least (game_value root)).
    pose proof (PosInf_greatest (game_value root)).
    pose proof (NegInf_least v). pose proof (PosInf_greatest v).
    unfold window_sound in HS.
    destruct HS as [[Ha Hb]|[[Ha Hb]|[_ [_ Ha]]]]; [zorder|zorder|exact Ha]. }
  subst v. exists (game_value root), c1, c2.
  split; [exact Hrun1|]. split; [exact Hrun2|].
  split; [eapply minimax_stores_value; eauto|].
  split; [eapply minimax_stores_value; eauto|reflexivity].
Qed.

Lemma pruning_preserves_root_value_witness :
  exists v with_pruning without_pruning,
    run_minimax true example_tree = Ok (Some v, with_pruning)
    /\ run_minimax false example_tree = Ok (Some v, without_pruning)
    /\ value with_pruning = Some v
    /\ value without_pruning = Some v
    /\ v = game_value example_tree.
Proof.
  apply (pruning_preserves_root_value example_tree); reflexivity.
Defined.

(** ** Tree construction *)

Lemma build_subtree_outcome data : build_outcome data.
Proof.
  induction data as [jid jvalue cs IH] using json_node_nested_ind.
  intros depth is_max. destruct jid as [i|]; [|simpl; auto].
  cbn [_build_subtree].
  unfold id_missing. cbn [json_ids existsb orb].
  match goal with
  | |- match bind (?f cs) _ with _ => _ end =>
      assert (Hcs : match f cs with
                    | Ok _ => existsb (fun i => match i with
                                                | None => true
                                                | Some _ => false
                                                end)
                                      (flat_map json_ids cs) = false
                    | Raise e =>
                        e = KeyError
                        /\ existsb (fun i => match i with
                                             | None => true
                                             | Some _ => false
                                             end)
                                   (flat_map json_ids cs) = true
                    end)
  end.
  { induction IH as [|c cs Hc Hcs IHcs]; [reflexivity|].
    cbn [flat_map]. rewrite existsb_app.
    specialize (Hc (S depth) (negb is_max)). unfold id_missing in Hc.
    destruct (_build_subtree c (S depth) (negb is_max)) as [t|e]; cbn [bind].
    - rewrite Hc. cbn [orb].
      match goal with
      | |- match bind ?r _ with _ => _ end => destruct r as [ts|e]
      end; cbn [bind]; exact IHcs.
    - destruct Hc as [He Hc]. rewrite Hc. auto. }
  match goal with
  | |- match bind ?r _ with _ => _ end => destruct r as [ts|e]
  end; cbn [bind]; exact Hcs.
Qed.

(** C5, as the code has it.  [build_tree] checks nothing but the presence
    of the ids: it raises [KeyError] exactly when an id is missing, and
    builds the tree of every other document, also when an id is
    duplicated, when a node has both children and a value, and when a node
    has neither. *)
Theorem build_tree_fails_iff_id_missing (root_data : json_node) :
  (id_missing root_data = true
   <-> build_tree (Document (Some root_data)) = Raise KeyError)
  /\ (id_missing root_data = false
      <-> exists root, build_tree (Document (Some root_data)) = Ok (Some root)).
Proof.
  pose proof (build_subtree_outcome root_data 0 true) as H.
  cbn [build_tree].
  destruct (_build_subtree root_data 0 true) as [t|e]; cbn [bind].
  - rewrite H. split; split; intros H'; try discriminate; eauto.
  - destruct H as [He H]. subst e. rewrite H.
    split; split; intros H'; try discriminate; auto.
    destruct H' as [root H']. discriminate.
Qed.

(** C5, as stated, fails: a document with a duplicated id, one whose root
    has both children and a value, and one with a leaf without a value are
    all malformed and all built; the last one makes the search itself
    raise [TypeError]. *)
Lemma build_tree_accepts_malformed :
  spec_malformed duplicate_id_document = true
  /\ (exists root, build_tree (Document (Some duplicate_id_document))
                   = Ok (Some root))
  /\ spec_malformed both_document = true
  /\ (exists root, build_tree (Document (Some both_document)) = Ok (Some root))
  /\ spec_malformed neither_document = true
  /\ (exists root,
         build_tree (Document (Some neither_document)) = Ok (Some root)
         /\ run_minimax false root = Raise TypeError).
Proof.
  split; [reflexivity|]. split; [eexists; reflexivity|].
  split; [reflexivity|]. split; [eexists; reflexivity|].
  split; [reflexivity|]. eexists. split; reflexivity.
Qed.

(** ** Bounds on the logarithm of ten *)

Lemma exp_lower_bound : (10 < exp (23035 / 10000))%R.
Proof.
  assert (H0 : ((8196607 / 8192000) < exp (4607 / 8192000))%R).
  { pose proof (exp_ineq1 (4607 / 8192000)%R) as H. lra. }
  assert (H1 : ((3910644813 / 3906250000) < exp (4607 / 4096000))%R).
  { replace (4607 / 4096000)%R with ((4607 / 8192000) + (4607 / 8192000))%R by lra.
    rewrite exp_plus. clear - H0. nra. }
  clear H0.
  assert (H2 : ((1002251410043 / 1000000000000) < exp (4607 / 2048000))%R).
  { replace (4607 / 2048000)%R with ((4607 / 4096000) + (4607 / 4096000))%R by lra.
    rewrite exp_plus. clear - H1. nra. }
  clear H1.
  assert (H3 : ((1004507888933 / 1000000000000) < exp (4607 / 1024000))%R).
  { replace (4607 / 1024000)%R with ((4607 / 2048000) + (4607 / 2048000))%R by lra.
    rewrite exp_plus. clear - H2. nra. }
  clear H2.
  assert (H4 : ((63064756183 / 62500000000) < exp (4607 / 512000))%R).
  { replace (4607 / 512000)%R with ((4607 / 1024000) + (4607 / 1024000))%R by lra.
    rewrite exp_plus. clear - H3. nra. }
  clear H3.
  assert (H5 : ((1018153848939 / 1000000000000) < exp (4607 / 256000))%R).
  { replace (4607 / 256000)%R with ((4607 / 512000) + (4607 / 512000))%R by lra.
    rewrite exp_plus. clear - H4. nra. }
  clear H4.
  assert (H6 : ((1036637260109 / 1000000000000) < exp (4607 / 128000))%R).
  { replace (4607 / 128000)%R with ((4607 / 256000) + (4607 / 256000))%R by lra.
    rewrite exp_plus. clear - H5. nra. }
  clear H5.
  assert (H7 : ((537308404523 / 500000000000) < exp (4607 / 64000))%R).
  { replace (4607 / 64000)%R with ((4607 / 128000) + (4607 / 128000))%R by lra.
    rewrite exp_plus. clear - H6. nra. }
  clear H6.
  assert (H8 : ((288700321571 / 250000000000) < exp (4607 / 32000))%R).
  { replace (4607 / 32000)%R with ((4607 / 64000) + (4607 / 64000))%R by lra.
    rewrite exp_plus. clear - H7. nra. }
  clear H7.
  assert (H9 : ((1333566010803 / 1000000000000) < exp (4607 / 16000))%R).
  { replace (4607 / 16000)%R with ((4607 / 32000) + (4607 / 32000))%R by lra.
    rewrite exp_plus. clear - H8. nra. }
  clear H8.
  assert (H10 : ((1778398305169 / 1000000000000) < exp (4607 / 8000))%R).
  { replace (4607 / 8000)%R with ((4607 / 16000) + (4607 / 16000))%R by lra.
    rewrite exp_plus. clear - H9. nra. }
  clear H9.
  assert (H11 : ((3162700531827 / 1000000000000) < exp (4607 / 4000))%R).
  { replace (4607 / 4000)%R with ((4607 / 8000) + (4607 / 8000))%R by lra.
    rewrite exp_plus. clear - H10. nra. }
  clear H10.
  assert (H12 : ((5001337327009 / 500000000000) < exp (4607 / 2000))%R).
  { replace (4607 / 2000)%R with ((4607 / 4000) + (4607 / 4000))%R by lra.
    rewrite exp_plus. clear - H11. nra. }
  clear H11.
  replace (23035 / 10000)%R with (4607 / 2000)%R by lra.
  lra.
Qed.

Lemma exp_neg_lower_bound : (/ 10 < exp (- (23 / 10)))%R.
Proof.
  assert (H0 : ((20457 / 20480) < exp (- (23 / 20480)))%R).
  { pose proof (exp_ineq1 (- (23 / 20480))%R) as H. lra. }
  assert (H1 : ((249438791871 / 250000000000) < exp (- (23 / 10240)))%R).
  { replace (- (23 / 10240))%R with ((- (23 / 20480)) + (- (23 / 20480)))%R by lra.
    rewrite exp_plus. clear - H0. nra. }
  clear H0.
  assert (H2 : ((995515374241 / 1000000000000) < exp (- (23 / 5120)))%R).
  { replace (- (23 / 5120))%R with ((- (23 / 10240)) + (- (23 / 10240)))%R by lra.
    rewrite exp_plus. clear - H1. nra. }
  clear H1.
  assert (H3 : ((19821017207 / 20000000000) < exp (- (23 / 2560)))%R).
  { replace (- (23 / 2560))%R with ((- (23 / 5120)) + (- (23 / 5120)))%R by lra.
    rewrite exp_plus. clear - H2. nra. }
  clear H2.
  assert (H4 : ((4910909039 / 5000000000) < exp (- (23 / 1280)))%R).
  { replace (- (23 / 1280))%R with ((- (23 / 2560)) + (- (23 / 2560)))%R by lra.
    rewrite exp_plus. clear - H3. nra. }
  clear H3.
  assert (H5 : ((964681103573 / 1000000000000) < exp (- (23 / 640)))%R).
  { replace (- (23 / 640))%R with ((- (23 / 1280)) + (- (23 / 1280)))%R by lra.
    rewrite exp_plus. clear - H4. nra. }
  clear H4.
  assert (H6 : ((93060963159 / 100000000000) < exp (- (23 / 320)))%R).
  { replace (- (23 / 320))%R with ((- (23 / 640)) + (- (23 / 640)))%R by lra.
    rewrite exp_plus. clear - H5. nra. }
  clear H5.
  assert (H7 : ((108254285801 / 125000000000) < exp (- (23 / 160)))%R).
  { replace (- (23 / 160))%R with ((- (23 / 320)) + (- (23 / 320)))%R by lra.
    rewrite exp_plus. clear - H6. nra. }
  clear H6.
  assert (H8 : ((375007692617 / 500000000000) < exp (- (23 / 80)))%R).
  { replace (- (23 / 80))%R with ((- (23 / 160)) + (- (23 / 160)))%R by lra.
    rewrite exp_plus. clear - H7. nra. }
  clear H7.
  assert (H9 : ((562523078087 / 1000000000000) < exp (- (23 / 40)))%R).
  { replace (- (23 / 40))%R with ((- (23 / 80)) + (- (23 / 80)))%R by lra.
    rewrite exp_plus. clear - H8. nra. }
  clear H8.
  assert (H10 : ((15821610669 / 50000000000) < exp (- (23 / 20)))%R).
  { replace (- (23 / 20))%R with ((- (23 / 40)) + (- (23 / 40)))%R by lra.
    rewrite exp_plus. clear - H9. nra. }
  clear H9.
  assert (H11 : ((782260513 / 7812500000) < exp (- (23 / 10)))%R).
  { replace (- (23 / 10))%R with ((- (23 / 20)) + (- (23 / 20)))%R by lra.
    rewrite exp_plus. clear - H10. nra. }
  clear H10.
  lra.
Qed.

Lemma ln_10_bounds : (23 / 10 < ln 10 < 23035 / 10000)%R.
Proof.
  split.
  - apply exp_lt_inv. rewrite exp_ln by lra.
    pose proof exp_neg_lower_bound as H.
    rewrite exp_Ropp in H.
    destruct (Rlt_dec (exp (23 / 10)) 10) as [Hlt|Hge]; [exact Hlt|].
    assert (Hinv : (/ exp (23 / 10) <= / 10)%R)
      by (apply Rinv_le_contravar; lra).
    lra.
  - apply exp_lt_inv. rewrite exp_ln by lra. exact exp_lower_bound.
Qed.

(** ** UCB1 *)

Lemma sqrt_ln_10_bounds :
  (75825 / 100000 < sqrt (ln 10 / 4) < 7589 / 10000)%R.
Proof.
  pose proof ln_10_bounds as [Hlo Hhi].
  split.
  - rewrite <- (sqrt_square (75825 / 100000)) by lra.
    apply sqrt_lt_1_alt. lra.
  - rewrite <- (sqrt_square (7589 / 10000)) by lra.
    apply sqrt_lt_1_alt. lra.
Qed.

(** C6.  UCB1.  The score is plus infinity at an unvisited node;
    otherwise it is [wins / visits] plus an exploration term that is 0 at
    the root, plus infinity under an unvisited parent, and
    [exploration_weight * sqrt(ln(parent.visits) / visits)] in every other
    case.  With 4 visits, 2 wins, 10 parent visits and weight 1.4 the
    score is [0.5 + 1.4 * sqrt(ln(10) / 4)], which lies between 1.5615 and
    1.5625. *)
Theorem calculate_ucb_definition :
  (forall node_parent node w,
      visits node = 0 -> calculate_ucb node_parent node w = PosInf)
  /\ (forall node w,
         visits node <> 0 ->
         calculate_ucb None node w
         = Fin (INR (wins node) / INR (visits node) + 0)%R)
  /\ (forall p node w,
         visits node <> 0 -> visits p = 0 ->
         calculate_ucb (Some p) node w = PosInf)
  /\ (forall p node w,
         visits node <> 0 -> visits p <> 0 ->
         calculate_ucb (Some p) node w
         = Fin (INR (wins node) / INR (visits node)
                + w * sqrt (ln (INR (visits p)) / INR (visits node)))%R)
  /\ (forall p node,
         visits node = 4 -> wins node = 2 -> visits p = 10 ->
         exists r,
           calculate_ucb (Some p) node (14 / 10)%R = Fin r
           /\ r = (1 / 2 + 14 / 10 * sqrt (ln 10 / 4))%R
           /\ (15615 / 10000 < r < 15625 / 10000)%R).
Proof.
  repeat split.
  - intros node_parent node w H. unfold calculate_ucb. rewrite H. reflexivity.
  - intros node w H. unfold calculate_ucb.
    apply Nat.eqb_neq in H. rewrite H. reflexivity.
  - intros p node w H Hp. unfold calculate_ucb.
    apply Nat.eqb_neq in H. rewrite H, Hp. reflexivity.
  - intros p node w H Hp. unfold calculate_ucb.
    apply Nat.eqb_neq in H. apply Nat.eqb_neq in Hp. rewrite H, Hp.
    reflexivity.
  - intros p node Hv Hw Hp.
    exists (1 / 2 + 14 / 10 * sqrt (ln 10 / 4))%R.
    pose proof sqrt_ln_10_bounds as [Hlo Hhi].
    split; [|split; [reflexivity|lra]].
    unfold calculate_ucb. rewrite Hv, Hw, Hp. cbn [Nat.eqb score_add].
    f_equal.
    replace (INR 2) with 2%R by (simpl; lra).
    replace (INR 4) with 4%R by (simpl; lra).
    replace (INR 10) with 10%R by (simpl; lra).
    lra.
Qed.

Lemma calculate_ucb_definition_witness :
  exists r,
    calculate_ucb (Some ucb_example_parent) ucb_example_node (14 / 10)%R = Fin r
    /\ r = (1 / 2 + 14 / 10 * sqrt (ln 10 / 4))%R
    /\ (15615 / 10000 < r < 15625 / 10000)%R.
Proof.
  apply (proj2 (proj2 (proj2 (proj2 calculate_ucb_definition)))
               ucb_example_parent ucb_example_node);
    reflexivity.
Defined.

(** ** get_best_child *)

Lemma Rltb_true x y : Rltb x y = true <-> (x < y)%R.
Proof. unfold Rltb. destruct (Rlt_dec x y); split; intros; auto; discriminate. Qed.

Lemma Rltb_false x y : Rltb x y = false <-> (y <= x)%R.
Proof.
  unfold Rltb. destruct (Rlt_dec x y); split; intros; try discriminate; auto; lra.
Qed.

Lemma score_eqb_eq x y : score_eqb x y = true <-> x = y.
Proof.
  destruct x as [|a|], y as [|b|]; simpl; split; intros H;
    try discriminate; try reflexivity.
  - unfold Reqb in H. destruct (Req_dec_T a b); [subst; reflexivity|discriminate].
  - inversion H; subst. unfold Reqb. destruct (Req_dec_T b b); congruence.
Qed.

Ltac score_cases :=
  unfold score_le, score_ltb, ext_ltb in *;
  repeat match goal with
         | x : score |- _ => destruct x
         end;
  simpl in *;
  repeat match goal with
         | H : Rltb _ _ = true |- _ => apply Rltb_true in H
         | H : Rltb _ _ = false |- _ => apply Rltb_false in H
         | |- Rltb _ _ = true => apply Rltb_true
         | |- Rltb _ _ = false => apply Rltb_false
         end;
  try discriminate; try reflexivity; try lra.

Lemma score_le_refl (x : score) : score_le x x.
Proof. score_cases. Qed.

Lemma score_le_trans (x y z : score) : score_le x y -> score_le y z -> score_le x z.
Proof. intros H1 H2. score_cases. Qed.

Lemma score_lt_le (x y : score) : score_ltb x y = true -> score_le x y.
Proof. intros H. score_cases. Qed.

Lemma score_lt_neq (x y : score) : score_ltb x y = true -> x <> y.
Proof. intros H E. subst. score_cases. Qed.

Lemma score_not_lt_neq (x y : score) :
  score_ltb x y = false -> y <> x -> score_ltb y x = true.
Proof.
  intros H E. score_cases; try congruence.
  match goal with
  | |- (?p < ?q)%R =>
      destruct (Rlt_dec p q) as [Hlt|Hge];
        [exact Hlt|exfalso; apply E; f_equal; lra]
  end.
Qed.

Lemma child_ucb_above_NegInf node w c : score_ltb NegInf (child_ucb node w c) = true.
Proof.
  unfold child_ucb, calculate_ucb.
  destruct (Nat.eqb (visits c) 0); [reflexivity|].
  destruct (Nat.eqb (visits node) 0); reflexivity.
Qed.

Lemma nth_error_snoc {A : Type} (l : list A) (x : A) j y :
  nth_error (l ++ [x]) j = Some y ->
  nth_error l j = Some y \/ (j = List.length l /\ y = x).
Proof.
  intros H. destruct (Nat.lt_ge_cases j (List.length l)) as [Hlt|Hge].
  - left. rewrite nth_error_app1 in H by exact Hlt. exact H.
  - right. rewrite nth_error_app2 in H by exact Hge.
    destruct (j - List.length l) as [|n] eqn:E; simpl in H.
    + inversion H; subst. split; [lia|reflexivity].
    + destruct n; discriminate.
Qed.

Lemma nth_error_snoc_last {A : Type} (l : list A) (x : A) :
  nth_error (l ++ [x]) (List.length l) = Some x.
Proof.
  rewrite nth_error_app2 by lia. rewrite Nat.sub_diag. reflexivity.
Qed.

Lemma nth_error_snoc_old {A : Type} (l : list A) (x : A) j y :
  nth_error l j = Some y -> nth_error (l ++ [x]) j = Some y.
Proof.
  intros H. rewrite nth_error_app1; [exact H|].
  apply nth_error_Some. congruence.
Qed.

Lemma best_children_loop_visited node w todo :
  all_visited todo = true ->
  forall done bv bc,
    best_so_far node w done bv bc ->
    exists bv' bc',
      best_children_loop node w (List.length done) todo bv bc = inr bc'
      /\ best_so_far node w (done ++ todo) bv' bc'.
Proof.
  induction todo as [|c rest IH]; intros Hvis done bv bc Hinv.
  - simpl. exists bv, bc. rewrite app_nil_r. auto.
  - simpl in Hvis. apply andb_true_iff in Hvis. destruct Hvis as [Hc Hvis].
    apply Nat.ltb_lt in Hc.
    cbn [best_children_loop].
    replace (Nat.eqb (visits c) 0) with false
      by (symmetry; apply Nat.eqb_neq; lia).
    change (calculate_ucb (Some node) c w) with (child_ucb node w c).
    destruct Hinv as [Hle [Hin [Hall [Hne Hnil]]]].
    replace (done ++ c :: rest) with ((done ++ [c]) ++ rest)
      by (rewrite <- app_assoc; reflexivity).
    replace (S (List.length done)) with (List.length (done ++ [c]))
      by (rewrite length_app; simpl; lia).
    destruct (score_ltb bv (child_ucb node w c)) eqn:Hlt.
    + apply IH; [exact Hvis|]. repeat split.
      * intros j x Hj. apply nth_error_snoc in Hj. destruct Hj as [Hj|[_ Hx]].
        -- eapply score_le_trans; [eapply Hle; eauto|apply score_lt_le; exact Hlt].
        -- subst x. apply score_le_refl.
      * intros k [Hk|[]]. subst k. exists c. split; [|reflexivity].
        apply nth_error_snoc_last.
      * intros j x Hj Hx. apply nth_error_snoc in Hj. destruct Hj as [Hj|[Hj _]].
        -- exfalso. apply (score_lt_neq _ _ Hlt). symmetry.
           specialize (Hle j x Hj). rewrite Hx in Hle.
           unfold score_le in Hle. congruence.
        -- left. symmetry. exact Hj.
      * intros _. discriminate.
      * intros E. apply app_eq_nil in E. destruct E; discriminate.
    + destruct (score_eqb (child_ucb node w c) bv) eqn:Heq.
      * apply score_eqb_eq in Heq.
        apply IH; [exact Hvis|]. repeat split.
        -- intros j x Hj. apply nth_error_snoc in Hj.
           destruct Hj as [Hj|[_ Hx]]; [eapply Hle; eauto|].
           subst x. rewrite Heq. apply score_le_refl.
        -- intros k Hk. apply in_app_or in Hk. destruct Hk as [Hk|[Hk|[]]].
           ++ destruct (Hin k Hk) as [x [Hx Hux]]. exists x.
              split; [apply nth_error_snoc_old; exact Hx|exact Hux].
           ++ subst k. exists c. split; [apply nth_error_snoc_last|exact Heq].
        -- intros j x Hj Hx. apply in_or_app. apply nth_error_snoc in Hj.
           destruct Hj as [Hj|[Hj _]].
           ++ left. eapply Hall; eauto.
           ++ right. left. symmetry. exact Hj.
        -- intros _ E. apply app_eq_nil in E. destruct E; discriminate.
        -- intros E. apply app_eq_nil in E. destruct E; discriminate.
      * assert (Hneq : child_ucb node w c <> bv).
        { intros E. apply score_eqb_eq in E. congruence. }
        apply IH; [exact Hvis|]. repeat split.
        -- intros j x Hj. apply nth_error_snoc in Hj.
           destruct Hj as [Hj|[_ Hx]]; [eapply Hle; eauto|].
           subst x. exact Hlt.
        -- intros k Hk. destruct (Hin k Hk) as [x [Hx Hux]]. exists x.
           split; [apply nth_error_snoc_old; exact Hx|exact Hux].
        -- intros j x Hj Hx. apply nth_error_snoc in Hj.
           destruct Hj as [Hj|[_ Hj]]; [eapply Hall; eauto|].
           subst x. contradiction.
        -- intros _. apply Hne. intros E.
           pose proof (child_ucb_above_NegInf node w c) as Habove.
           rewrite (Hnil E) in Hlt. congruence.
        -- intros E. apply app_eq_nil in E. destruct E; discriminate.
Qed.

Lemma best_children_loop_unvisited node w todo :
  forall i bv bc k c,
    nth_error todo k = Some c ->
    visits c = 0 ->
    (forall j c', j < k -> nth_error todo j = Some c' -> visits c' <> 0) ->
    best_children_loop node w i todo bv bc = inl (i + k).
Proof.
  induction todo as [|x rest IH]; intros i bv bc k c Hk Hc Hbefore.
  - destruct k; discriminate.
  - destruct k as [|k]; simpl in Hk.
    + inversion Hk; subst. simpl. rewrite Hc. simpl. f_equal. lia.
    + cbn [best_children_loop].
      assert (Hx : visits x <> 0) by (apply (Hbefore 0 x); [lia|reflexivity]).
      apply Nat.eqb_neq in Hx. rewrite Hx.
      assert (Hrest : forall bv' bc',
                 best_children_loop node w (S i) rest bv' bc' = inl (i + S k)).
      { intros bv' bc'. rewrite (IH (S i) bv' bc' k c Hk Hc).
        - f_equal. lia.
        - intros j c' Hj Hc'. apply (Hbefore (S j) c'); [lia|exact Hc']. }
      destruct (score_ltb bv _); [apply Hrest|].
      destruct (score_eqb _ bv); apply Hrest.
Qed.

Lemma random_choice_in {A : Type} (g : rng) (l : list A) :
  l <> [] -> exists x, random_choice g l = Ok (x, next g) /\ In x l.
Proof.
  intros Hne. unfold random_choice, random_index.
  destruct (List.length l) as [|n] eqn:Hlen.
  - destruct l; [congruence|discriminate].
  - cbn [bind]. cbv beta iota.
    assert (Hlt : g 0 mod S n < List.length l)
      by (rewrite Hlen; apply Nat.mod_upper_bound; discriminate).
    destruct (nth_error l (g 0 mod S n)) as [x|] eqn:Hx.
    + exists x. split; [reflexivity|]. eapply nth_error_In; eauto.
    + apply nth_error_None in Hx. lia.
Qed.

Lemma random_choice_any {A : Type} (l : list A) (x : A) :
  In x l -> exists g, random_choice g l = Ok (x, next g).
Proof.
  intros Hin. apply In_nth_error in Hin. destruct Hin as [n Hn].
  assert (Hlt : n < List.length l) by (apply nth_error_Some; congruence).
  exists (fun _ => n). unfold random_choice, random_index.
  destruct (List.length l) as [|m] eqn:Hlen; [lia|].
  cbn [bind]. cbv beta iota.
  rewrite Nat.mod_small by exact Hlt. rewrite Hn. reflexivity.
Qed.

Lemma best_so_far_start node w : best_so_far node w [] NegInf [].
Proof.
  repeat split.
  - intros j c Hj. destruct j; discriminate.
  - intros k [].
  - intros j c Hj. destruct j; discriminate.
  - congruence.
Qed.

(** With every child visited, [get_best_child] draws at random among the
    children whose score is the largest. *)
Lemma get_best_child_visited node w :
  children node <> [] ->
  all_visited (children node) = true ->
  exists best_children,
    best_children <> []
    /\ (forall g, get_best_child node w g = random_choice g best_children)
    /\ (forall k, In k best_children <->
                  exists c, nth_error (children node) k = Some c
                            /\ forall j c', nth_error (children node) j = Some c' ->
                                            score_le (child_ucb node w c')
                                                     (child_ucb node w c)).
Proof.
  intros Hne Hvis.
  destruct (best_children_loop_visited node w (children node) Hvis [] NegInf []
              (best_so_far_start node w))
    as [bv [bc [Hloop [Hle [Hin [Hall [Hnonempty _]]]]]]].
  simpl in Hloop, Hle, Hin, Hall, Hnonempty.
  exists bc. split; [auto|]. split.
  - intros g. unfold get_best_child. rewrite Hloop. reflexivity.
  - intros k. split.
    + intros Hk. destruct (Hin k Hk) as [c [Hc Hu]]. exists c.
      split; [exact Hc|]. intros j c' Hj. rewrite Hu. eapply Hle; eauto.
    + intros [c [Hc Hmax]].
      apply (Hall k c Hc).
      assert (Hbc : bc <> []) by auto.
      destruct bc as [|k0 bc']; [congruence|].
      destruct (Hin k0 (or_introl eq_refl)) as [c0 [Hc0 Hu0]].
      pose proof (Hmax k0 c0 Hc0) as H1.
      pose proof (Hle k c Hc) as H2.
      rewrite <- Hu0 in *. clear - H1 H2.
      unfold score_le in *.
      destruct (score_eqb (child_ucb node w c) (child_ucb node w c0)) eqn:E;
        [apply score_eqb_eq; exact E|].
      exfalso.
      assert (Hneq : child_ucb node w c <> child_ucb node w c0).
      { intros E'. apply score_eqb_eq in E'. congruence. }
      pose proof (score_not_lt_neq _ _ H2 Hneq). congruence.
Qed.

Lemma child_ucb_greedy node c :
  visits node <> 0 -> visits c <> 0 ->
  child_ucb node 0%R c = Fin (win_rate c).
Proof.
  intros Hn Hc. unfold child_ucb, calculate_ucb, win_rate.
  apply Nat.eqb_neq in Hn. apply Nat.eqb_neq in Hc. rewrite Hn, Hc.
  cbn [score_add]. f_equal. lra.
Qed.

Lemma all_visited_nth cs k c :
  all_visited cs = true -> nth_error cs k = Some c -> visits c <> 0.
Proof.
  intros Hvis Hk. unfold all_visited in Hvis.
  rewrite forallb_forall in Hvis.
  specialize (Hvis c (nth_error_In _ _ Hk)). apply Nat.ltb_lt in Hvis. lia.
Qed.

(** The first child without visits is returned at once. *)
Lemma get_best_child_first_unvisited node k c w g :
  nth_error (children node) k = Some c ->
  visits c = 0 ->
  (forall j c', j < k -> nth_error (children node) j = Some c' ->
                visits c' <> 0) ->
  get_best_child node w g = Ok (k, g).
Proof.
  intros Hk Hc Hbefore. unfold get_best_child.
  rewrite (best_children_loop_unvisited node w (children node) 0 NegInf []
             k c Hk Hc Hbefore).
  reflexivity.
Qed.

(** C3, as the code has it.  [get_best_child] returns the first child in
    order that has no visits whenever there is one, whatever the other
    children's visits, and draws nothing at random then.  Only when every
    child has been visited does the call with [exploration_weight = 0]
    (under a visited node) return a visited child of largest win rate; each
    child of largest win rate is returned for some draw. *)
Theorem get_best_child_greedy (node : TreeNode) :
  (forall k c w g,
      nth_error (children node) k = Some c ->
      visits c = 0 ->
      (forall j c', j < k -> nth_error (children node) j = Some c' ->
                    visits c' <> 0) ->
      get_best_child node w g = Ok (k, g))
  /\ (children node <> [] ->
      all_visited (children node) = true ->
      visits node <> 0 ->
      (forall g,
          exists k c,
            get_best_child node 0%R g = Ok (k, next g)
            /\ nth_error (children node) k = Some c
            /\ visits c <> 0
            /\ forall j c', nth_error (children node) j = Some c' ->
                            (win_rate c' <= win_rate c)%R)
      /\ (forall k c,
             nth_error (children node) k = Some c ->
             (forall j c', nth_error (children node) j = Some c' ->
                           (win_rate c' <= win_rate c)%R) ->
             exists g, get_best_child node 0%R g = Ok (k, next g))).
Proof.
  split.
  - intros k c w g. apply get_best_child_first_unvisited.
  - intros Hne Hvis Hnode.
    destruct (get_best_child_visited node 0%R Hne Hvis)
      as [bc [Hbc [Hchoice Hmax]]].
    assert (Hrate : forall c c',
               visits c <> 0 -> visits c' <> 0 ->
               (score_le (child_ucb node 0%R c') (child_ucb node 0%R c)
                <-> (win_rate c' <= win_rate c)%R)).
    { intros c c' Hc Hc'. rewrite !child_ucb_greedy by assumption.
      unfold score_le, score_ltb, ext_ltb. apply Rltb_false. }
    split.
    + intros g. destruct (random_choice_in g bc Hbc) as [k [Hrun Hin]].
      apply Hmax in Hin. destruct Hin as [c [Hc Hbest]].
      exists k, c. rewrite Hchoice. split; [exact Hrun|].
      split; [exact Hc|].
      pose proof (all_visited_nth _ _ _ Hvis Hc) as Hvc.
      split; [exact Hvc|].
      intros j c' Hj. apply Hrate; [exact Hvc| |eapply Hbest; eauto].
      eapply all_visited_nth; eauto.
    + intros k c Hc Hbest.
      assert (Hin : In k bc).
      { apply Hmax. exists c. split; [exact Hc|].
        intros j c' Hj. apply Hrate; [| |eapply Hbest; eauto];
          eapply all_visited_nth; eauto. }
      destruct (random_choice_any bc k Hin) as [g Hg].
      exists g. rewrite Hchoice. exact Hg.
Qed.

Lemma get_best_child_greedy_witness :
  exists k c,
    get_best_child fully_visited_root 0%R always_zero = Ok (k, next always_zero)
    /\ nth_error (children fully_visited_root) k = Some c
    /\ visits c <> 0
    /\ forall j c', nth_error (children fully_visited_root) j = Some c' ->
                    (win_rate c' <= win_rate c)%R.
Proof.
  apply (proj1 (proj2 (get_best_child_greedy fully_visited_root)
                      ltac:(discriminate) eq_refl ltac:(discriminate))
               always_zero).
Defined.

(** C3, as stated, fails.  After two iterations on a root with two leaves
    the second leaf has been visited and the first has not; the best-child
    routine with [exploration_weight = 0] returns the first.  And when no
    child has been visited it returns the first child, whatever the
    generator would draw. *)
Lemma get_best_child_returns_unvisited :
  mcts_search (mkConfig None (Some 2%Z) None) two_leaves_tree always_one
  = Ok (half_visited_root, always_one)
  /\ get_best_child half_visited_root 0%R always_zero = Ok (0, always_zero)
  /\ (exists c, nth_error (children half_visited_root) 0 = Some c
                /\ visits c = 0)
  /\ (exists c, nth_error (children half_visited_root) 1 = Some c
                /\ 0 < visits c)
  /\ (forall g, get_best_child two_leaves_tree 0%R g = Ok (0, g)).
Proof.
  split; [reflexivity|]. split; [reflexivity|].
  split; [eexists; split; reflexivity|].
  split; [eexists; split; [reflexivity|simpl; lia]|].
  intros g. reflexivity.
Qed.

(** ** Backpropagation *)

Arguments list_eq_dec : simpl never.

Lemma nth_error_update_nth {A : Type} (f : A -> A) i (l : list A) j :
  nth_error (update_nth f i l) j
  = if Nat.eqb i j then option_map f (nth_error l j) else nth_error l j.
Proof.
  revert i j. induction l as [|x l IH]; intros i j.
  - destruct i, j; simpl; try reflexivity; destruct (Nat.eqb i j); reflexivity.
  - destruct i as [|i], j as [|j]; simpl; try reflexivity. apply IH.
Qed.

Lemma children_record_result r n : children (record_result r n) = children n.
Proof. destruct n; reflexivity. Qed.

Lemma children_set_children n cs : children (set_children n cs) = cs.
Proof. destruct n; reflexivity. Qed.

(** The loop, with the step to the parent spelled out. *)
Lemma mcts_backpropagation_parent root current r :
  mcts_backpropagation root current r
  = let root' := assign (record_result r) root current in
    match parent current with
    | None => root'
    | Some up => mcts_backpropagation root' up r
    end.
Proof. destruct current; reflexivity. Qed.

(** One assignment changes the counters at its own path and nowhere
    else. *)
Lemma stats_update_at r q :
  forall root p,
    option_map (fun n => (visits n, wins n))
               (node_at (update_at (record_result r) root q) p)
    = if list_eq_dec Nat.eq_dec p q
      then option_map (fun n => count_result r (visits n, wins n))
                      (node_at root p)
      else option_map (fun n => (visits n, wins n)) (node_at root p).
Proof.
  induction q as [|i q IH]; intros root p.
  - cbn [update_at]. destruct p as [|j p].
    + destruct (list_eq_dec Nat.eq_dec [] []); [|congruence].
      destruct root; reflexivity.
    + destruct (list_eq_dec Nat.eq_dec (j :: p) []); [discriminate|].
      cbn [node_at]. rewrite children_record_result. reflexivity.
  - cbn [update_at]. destruct p as [|j p].
    + destruct (list_eq_dec Nat.eq_dec [] (i :: q)); [discriminate|].
      destruct root; reflexivity.
    + cbn [node_at]. rewrite children_set_children, nth_error_update_nth.
      destruct (Nat.eqb_spec i j) as [E|E].
      * subst j. destruct (nth_error (children root) i) as [c|]; simpl.
        -- rewrite IH.
           destruct (list_eq_dec Nat.eq_dec p q),
                    (list_eq_dec Nat.eq_dec (i :: p) (i :: q));
             congruence.
        -- destruct (list_eq_dec Nat.eq_dec (i :: p) (i :: q)); reflexivity.
      * destruct (list_eq_dec Nat.eq_dec (j :: p) (i :: q)); [congruence|].
        reflexivity.
Qed.

Lemma stats_assign r root current a :
  stats_at (assign (record_result r) root current) a
  = if list_eq_dec Nat.eq_dec a current
    then option_map (count_result r) (stats_at root a)
    else stats_at root a.
Proof.
  unfold stats_at, assign, deref. rewrite stats_update_at.
  destruct (list_eq_dec Nat.eq_dec (rev a) (rev current)) as [E|E],
           (list_eq_dec Nat.eq_dec a current) as [E'|E'].
  - destruct (node_at root (rev a)); reflexivity.
  - exfalso. apply E'. rewrite <- (rev_involutive a), E. apply rev_involutive.
  - exfalso. apply E. congruence.
  - reflexivity.
Qed.

Lemma on_path_length a current :
  on_path a current = true -> List.length a <= List.length current.
Proof.
  induction current as [|x up IH]; simpl.
  - destruct (list_eq_dec Nat.eq_dec a []); [subst; simpl; lia|discriminate].
  - destruct (list_eq_dec Nat.eq_dec a (x :: up)); simpl.
    + subst. simpl. lia.
    + intros H. specialize (IH H). lia.
Qed.

(** The loop as a whole: one recorded result at every node of the path,
    nothing anywhere else. *)
Lemma stats_backpropagation r current :
  forall root a,
    stats_at (mcts_backpropagation root current r) a
    = if on_path a current
      then option_map (count_result r) (stats_at root a)
      else stats_at root a.
Proof.
  induction current as [|x up IH]; intros root a.
  - cbn [mcts_backpropagation on_path]. rewrite stats_assign.
    destruct (list_eq_dec Nat.eq_dec a []); reflexivity.
  - cbn [mcts_backpropagation on_path]. rewrite IH, stats_assign.
    destruct (list_eq_dec Nat.eq_dec a (x :: up)) as [E|E]; simpl.
    + destruct (on_path a up) eqn:Hup; [|reflexivity].
      apply on_path_length in Hup. subst a. simpl in Hup. lia.
    + reflexivity.
Qed.

Lemma all_nodes_unfold p n :
  all_nodes p n = p n && forallb (all_nodes p) (children n).
Proof. destruct n; reflexivity. Qed.

Lemma forallb_update_nth {A : Type} (p : A -> bool) (f : A -> A) i l :
  forallb p l = true ->
  (forall x, In x l -> p x = true -> p (f x) = true) ->
  forallb p (update_nth f i l) = true.
Proof.
  revert i. induction l as [|x l IH]; intros i Hall Hf.
  - destruct i; reflexivity.
  - simpl in Hall. apply andb_true_iff in Hall. destruct Hall as [Hx Hl].
    destruct i as [|i]; simpl.
    + rewrite (Hf x (or_introl eq_refl) Hx), Hl. reflexivity.
    + rewrite Hx. simpl. apply IH; [exact Hl|].
      intros y Hy. apply Hf. right. exact Hy.
Qed.

(** An assignment that keeps [p] at the node it changes, and changes no
    child list, keeps [p] everywhere. *)
Lemma all_nodes_update_at (p : TreeNode -> bool) (f : TreeNode -> TreeNode) :
  (forall n, p n = true -> p (f n) = true) ->
  (forall n, children (f n) = children n) ->
  (forall n cs, p (set_children n cs) = p n) ->
  forall path node,
    all_nodes p node = true -> all_nodes p (update_at f node path) = true.
Proof.
  intros Hp Hchildren Hset. induction path as [|i path IH]; intros node Hall.
  - cbn [update_at]. rewrite all_nodes_unfold in *.
    apply andb_true_iff in Hall. destruct Hall as [Hn Hcs].
    rewrite Hchildren, (Hp node Hn), Hcs. reflexivity.
  - cbn [update_at]. rewrite all_nodes_unfold in *.
    apply andb_true_iff in Hall. destruct Hall as [Hn Hcs].
    rewrite Hset, Hn, children_set_children. simpl.
    apply forallb_update_nth; [exact Hcs|].
    intros c _ Hc. apply IH. exact Hc.
Qed.

Lemma all_nodes_node_at p :
  forall path root n,
    all_nodes p root = true -> node_at root path = Some n -> p n = true.
Proof.
  induction path as [|i path IH]; intros root n Hall Hn.
  - simpl in Hn. inversion Hn; subst.
    rewrite all_nodes_unfold in Hall. apply andb_true_iff in Hall. tauto.
  - simpl in Hn. destruct (nth_error (children root) i) as [c|] eqn:Hc;
      [|discriminate].
    rewrite all_nodes_unfold in Hall. apply andb_true_iff in Hall.
    destruct Hall as [_ Hcs]. rewrite forallb_forall in Hcs.
    apply (IH c n); [|exact Hn]. apply Hcs. eapply nth_error_In; eauto.
Qed.

(** An assignment that changes nothing at the nodes where [p] holds
    changes nothing on a tree where [p] holds everywhere. *)
Lemma update_at_unchanged (p : TreeNode -> bool) (f : TreeNode -> TreeNode) :
  (forall n, p n = true -> f n = n) ->
  forall path node, all_nodes p node = true -> update_at f node path = node.
Proof.
  intros Hf. induction path as [|i path IH]; intros node Hall.
  - cbn [update_at]. apply Hf.
    rewrite all_nodes_unfold in Hall. apply andb_true_iff in Hall. tauto.
  - cbn [update_at]. rewrite all_nodes_unfold in Hall.
    apply andb_true_iff in Hall. destruct Hall as [_ Hcs].
    assert (E : update_nth (fun child => update_at f child path) i
                           (children node) = children node).
    { revert i. induction (children node) as [|c cs IHcs]; intros i.
      - destruct i; reflexivity.
      - simpl in Hcs. apply andb_true_iff in Hcs. destruct Hcs as [Hc Hcs].
        destruct i as [|i]; simpl.
        + rewrite (IH c Hc). reflexivity.
        + rewrite (IHcs Hcs). reflexivity. }
    rewrite E. destruct node; reflexivity.
Qed.


(** An assignment to the counters changes nothing else. *)
Lemma clear_stats_update_at (f : TreeNode -> TreeNode) :
  (forall n, clear_stats (f n) = clear_stats n) ->
  forall path node, clear_stats (update_at f node path) = clear_stats node.
Proof.
  intros Hf. induction path as [|i path IH]; intros node.
  - apply Hf.
  - cbn [update_at]. destruct node as [i0 v cs d m a b p vi w]. simpl.
    f_equal. clear - IH. revert i.
    induction cs as [|c cs IHcs]; intros i.
    + destruct i; reflexivity.
    + destruct i as [|i]; simpl; [rewrite IH|rewrite IHcs]; reflexivity.
Qed.

Lemma stats_ok_record_result r n :
  stats_ok n = true -> stats_ok (record_result r n) = true.
Proof.
  unfold stats_ok. destruct n as [i v cs d m a b p vi w]. simpl.
  intros H. apply Nat.leb_le in H. apply Nat.leb_le.
  destruct (is_win r); lia.
Qed.

Lemma stats_ok_backpropagation r current :
  forall root,
    all_nodes stats_ok root = true ->
    all_nodes stats_ok (mcts_backpropagation root current r) = true.
Proof.
  assert (Hstep : forall root a,
             all_nodes stats_ok root = true ->
             all_nodes stats_ok (assign (record_result r) root a) = true).
  { intros root a. unfold assign. apply all_nodes_update_at.
    - apply stats_ok_record_result.
    - apply children_record_result.
    - intros [ ] cs. reflexivity. }
  induction current as [|x up IH]; intros root Hall;
    cbn [mcts_backpropagation]; auto.
Qed.

Lemma clear_stats_backpropagation r current :
  forall root, clear_stats (mcts_backpropagation root current r) = clear_stats root.
Proof.
  assert (Hstep : forall root a,
             clear_stats (assign (record_result r) root a) = clear_stats root).
  { intros root a. unfold assign. apply clear_stats_update_at.
    intros [ ]. reflexivity. }
  induction current as [|x up IH]; intros root; cbn [mcts_backpropagation].
  - apply Hstep.
  - rewrite IH. apply Hstep.
Qed.

(** ** The phases of an iteration *)

Lemma nth_map_nth_error {A B : Type} (f : A -> B) (l : list A) k c d :
  nth_error l k = Some c -> nth k (map f l) d = f c.
Proof.
  revert k. induction l as [|x l IH]; intros k H.
  - destruct k; discriminate.
  - destruct k as [|k]; simpl in *.
    + inversion H; subst. reflexivity.
    + apply IH. exact H.
Qed.

Lemma unvisited_from_sound cs :
  forall i k,
    In k (unvisited_from i cs) ->
    exists c, nth_error cs (k - i) = Some c /\ i <= k /\ visits c = 0.
Proof.
  induction cs as [|x cs IH]; intros i k Hin.
  - contradiction.
  - cbn [unvisited_from] in Hin.
    assert (Hrest : In k (unvisited_from (S i) cs) ->
                    exists c, nth_error (x :: cs) (k - i) = Some c
                              /\ i <= k /\ visits c = 0).
    { intros H. destruct (IH (S i) k H) as [c [Hc [Hle Hv]]].
      exists c. replace (k - i) with (S (k - S i)) by lia.
      repeat split; [exact Hc|lia|exact Hv]. }
    destruct (Nat.eqb (visits x) 0) eqn:Hx; [|auto].
    destruct Hin as [Hk|Hin]; [|auto].
    subst k. exists x. rewrite Nat.sub_diag.
    apply Nat.eqb_eq in Hx. auto.
Qed.

Lemma unvisited_from_complete cs :
  forall i j c,
    nth_error cs j = Some c -> visits c = 0 ->
    In (i + j) (unvisited_from i cs).
Proof.
  induction cs as [|x cs IH]; intros i j c Hj Hc.
  - destruct j; discriminate.
  - cbn [unvisited_from]. destruct j as [|j]; simpl in Hj.
    + inversion Hj; subst. rewrite Hc. simpl. left. lia.
    + replace (i + S j) with (S i + j) by lia.
      destruct (Nat.eqb (visits x) 0); [right|]; eapply IH; eauto.
Qed.

Lemma mcts_selection_unfold node current w g :
  mcts_selection node current w g
  = if has_children node && all_visited (children node) then
      '(k, g') <- get_best_child node w g ;;
      nth k (map (fun next_node => mcts_selection next_node (k :: current) w g')
                 (children node))
          (Raise IndexError)
    else Ok (current, node, g).
Proof. destruct node; reflexivity. Qed.

(** Selection ends, at a node below the start that is a leaf or has an
    unvisited child; below the start it only goes through visited
    nodes. *)
Lemma mcts_selection_total w node :
  forall current g,
    exists p sel g',
      mcts_selection node current w g = Ok (p ++ current, sel, g')
      /\ node_at node (rev p) = Some sel
      /\ has_children sel && all_visited (children sel) = false
      /\ (p <> [] -> visits sel <> 0).
Proof.
  induction node as [i v cs d m a0 b0 pr vi wi IH] using TreeNode_nested_ind.
  intros current g.
  set (node := mkTreeNode i v cs d m a0 b0 pr vi wi).
  rewrite mcts_selection_unfold. change (children node) with cs.
  destruct (has_children node && all_visited cs) eqn:E.
  - apply andb_true_iff in E. destruct E as [Hhas Hvis].
    assert (Hne : children node <> []).
    { unfold has_children in Hhas. destruct (children node); congruence. }
    destruct (get_best_child_visited node w Hne Hvis)
      as [bc [Hbc [Hchoice Hmax]]].
    destruct (random_choice_in g bc Hbc) as [k [Hrun Hin]].
    rewrite Hchoice, Hrun. cbn [bind]. cbv beta iota.
    apply Hmax in Hin. destruct Hin as [c [Hc _]]. simpl in Hc.
    rewrite (nth_map_nth_error _ cs k c _ Hc).
    rewrite Forall_forall in IH.
    destruct (IH c (nth_error_In _ _ Hc) (k :: current) (next g))
      as [p [sel [g' [Hsel [Hat [Hstop Hvisited]]]]]].
    exists (p ++ [k]), sel, g'. rewrite <- app_assoc. split; [exact Hsel|].
    split; [|split; [exact Hstop|]].
    + rewrite rev_app_distr. simpl. rewrite Hc. exact Hat.
    + intros _. destruct p as [|x p]; [|apply Hvisited; discriminate].
      simpl in Hat. inversion Hat; subst sel.
      eapply all_visited_nth; eauto.
  - exists [], node, g. repeat split; auto.
Qed.

Lemma mcts_simulation_total node :
  forall g, exists r g', mcts_simulation node g = Ok (r, g').
Proof.
  induction node as [i v cs d m a0 b0 pr vi wi IH] using TreeNode_nested_ind.
  intros g. destruct cs as [|c cs].
  - simpl. destruct v as [r|]; eauto.
  - cbn [mcts_simulation]. unfold random_index.
    cbn [List.length bind]. cbv beta iota.
    assert (Hlt : g 0 mod S (List.length cs) < List.length (c :: cs))
      by (apply Nat.mod_upper_bound; discriminate).
    destruct (nth_error (c :: cs) (g 0 mod S (List.length cs))) as [x|] eqn:Hx;
      [|apply nth_error_None in Hx; lia].
    rewrite (nth_map_nth_error _ (c :: cs) _ x _ Hx).
    rewrite Forall_forall in IH. apply (IH x (nth_error_In _ _ Hx)).
Qed.

(** What phase 2 does. *)
Lemma expansion_phase_cases selected node g :
  (visits node = 0 \/ unvisited_from 0 (children node) = [] ->
   expansion_phase selected node g = Ok (selected, node, g))
  /\ (visits node <> 0 -> unvisited_from 0 (children node) <> [] ->
      exists k child,
        expansion_phase selected node g = Ok (k :: selected, child, next g)
        /\ nth_error (children node) k = Some child
        /\ visits child = 0).
Proof.
  unfold expansion_phase, mcts_expansion, has_children. split.
  - intros [H|H].
    + rewrite H. reflexivity.
    + rewrite H. destruct (Nat.ltb 0 (visits node) && _); reflexivity.
  - intros Hv Hu.
    assert (Hlt : Nat.ltb 0 (visits node) = true) by (apply Nat.ltb_lt; lia).
    rewrite Hlt.
    destruct (children node) as [|c cs] eqn:Hcs; [simpl in Hu; congruence|].
    cbn [andb].
    destruct (random_choice_in g (unvisited_from 0 (c :: cs)) Hu)
      as [k [Hrun Hin]].
    destruct (unvisited_from 0 (c :: cs)) as [|u us] eqn:Hus; [congruence|].
    rewrite Hrun. cbn [bind]. cbv beta iota.
    rewrite <- Hus in Hin. apply unvisited_from_sound in Hin.
    destruct Hin as [child [Hchild [_ Hzero]]].
    rewrite Nat.sub_0_r in Hchild. rewrite Hchild. eauto.
Qed.

Lemma expansion_phase_any selected node k child :
  visits node <> 0 ->
  nth_error (children node) k = Some child ->
  visits child = 0 ->
  exists g, expansion_phase selected node g = Ok (k :: selected, child, next g).
Proof.
  intros Hv Hk Hc.
  pose proof (unvisited_from_complete (children node) 0 k child Hk Hc) as Hin.
  simpl in Hin.
  destruct (random_choice_any _ _ Hin) as [g Hg]. exists g.
  unfold expansion_phase, mcts_expansion, has_children.
  assert (Hlt : Nat.ltb 0 (visits node) = true) by (apply Nat.ltb_lt; lia).
  rewrite Hlt.
  destruct (children node) as [|c cs] eqn:Hcs; [destruct k; discriminate|].
  cbn [andb].
  destruct (unvisited_from 0 (c :: cs)) as [|u us] eqn:Hus; [contradiction|].
  rewrite Hg. cbn [bind]. cbv beta iota. rewrite Hk. reflexivity.
Qed.

(** One iteration, phase by phase. *)
Lemma mcts_iteration_phases root w g :
  exists selected sel g1 expanded exp_node g2 r g3,
    mcts_selection root [] w g = Ok (selected, sel, g1)
    /\ deref root selected = Some sel
    /\ (visits sel = 0 -> selected = [])
    /\ expansion_phase selected sel g1 = Ok (expanded, exp_node, g2)
    /\ mcts_simulation exp_node g2 = Ok (r, g3)
    /\ mcts_iteration root w g
       = Ok (mcts_backpropagation root expanded r, g3).
Proof.
  destruct (mcts_selection_total w root [] g)
    as [p [sel [g1 [Hsel [Hat [_ Hvisited]]]]]].
  rewrite app_nil_r in Hsel.
  assert (Hexp : exists expanded exp_node g2,
             expansion_phase p sel g1 = Ok (expanded, exp_node, g2)).
  { destruct (expansion_phase_cases p sel g1) as [Hsame Hchild].
    destruct (Nat.eq_dec (visits sel) 0) as [Hz|Hnz].
    - do 3 eexists. apply Hsame. left. exact Hz.
    - destruct (unvisited_from 0 (children sel)) as [|u us] eqn:Hu.
      + do 3 eexists. apply Hsame. right. reflexivity.
      + destruct (Hchild Hnz ltac:(discriminate)) as [k [child [H _]]]. eauto. }
  destruct Hexp as [expanded [exp_node [g2 Hexp]]].
  destruct (mcts_simulation_total exp_node g2) as [r [g3 Hsim]].
  exists p, sel, g1, expanded, exp_node, g2, r, g3.
  split; [exact Hsel|]. split; [exact Hat|]. split.
  { intros Hz. destruct p as [|x p]; [reflexivity|].
    exfalso. apply Hvisited; [discriminate|exact Hz]. }
  split; [exact Hexp|]. split; [exact Hsim|].
  unfold mcts_iteration. rewrite Hsel. cbn [bind]. cbv beta iota.
  rewrite Hexp. cbn [bind]. cbv beta iota.
  rewrite Hsim. reflexivity.
Qed.

(** C4, as the code has it.  In every iteration the node returned by
    Selection is expanded only when it has been visited before: then, if
    it has children without visits, one of them is drawn with
    [random.choice] and is the expansion node.  When the selection node
    has no visits (only the root can be in that case), is a leaf, or has
    no unvisited child, the expansion node is the selection node itself.
    The iteration changes counters only: the tree is otherwise the
    same. *)
Theorem expansion_contract (root : TreeNode) (w : R) (g : rng) :
  exists selected sel g1 expanded exp_node g2,
    mcts_selection root [] w g = Ok (selected, sel, g1)
    /\ deref root selected = Some sel
    /\ expansion_phase selected sel g1 = Ok (expanded, exp_node, g2)
    /\ (visits sel = 0 -> selected = [])
    /\ (visits sel = 0 \/ unvisited_from 0 (children sel) = [] ->
        expanded = selected /\ exp_node = sel /\ g2 = g1)
    /\ (visits sel <> 0 -> unvisited_from 0 (children sel) <> [] ->
        exists k,
          expanded = k :: selected
          /\ nth_error (children sel) k = Some exp_node
          /\ visits exp_node = 0
          /\ g2 = next g1)
    /\ (forall k child,
           visits sel <> 0 ->
           nth_error (children sel) k = Some child ->
           visits child = 0 ->
           exists g1', expansion_phase selected sel g1'
                       = Ok (k :: selected, child, next g1'))
    /\ exists root' g',
        mcts_iteration root w g = Ok (root', g')
        /\ clear_stats root' = clear_stats root.
Proof.
  destruct (mcts_iteration_phases root w g)
    as [selected [sel [g1 [expanded [exp_node [g2 [r [g3
         [Hsel [Hat [Hroot [Hexp [Hsim Hit]]]]]]]]]]]]].
  exists selected, sel, g1, expanded, exp_node, g2.
  destruct (expansion_phase_cases selected sel g1) as [Hsame Hchild].
  split; [exact Hsel|]. split; [exact Hat|]. split; [exact Hexp|].
  split; [exact Hroot|]. split; [|split; [|split]].
  - intros H. rewrite (Hsame H) in Hexp. inversion Hexp. auto.
  - intros Hv Hu. destruct (Hchild Hv Hu) as [k [child [H [Hk Hz]]]].
    rewrite H in Hexp. inversion Hexp; subst. exists k. auto.
  - intros k child Hv Hk Hz. apply expansion_phase_any; assumption.
  - eexists. eexists. split; [exact Hit|].
    apply clear_stats_backpropagation.
Qed.

(** C4, as stated, fails in the first iteration: Selection returns the
    root, whose two children are unvisited, and the expansion node is the
    root itself, not one of them. *)
Lemma first_iteration_expands_nothing :
  mcts_selection two_leaves_tree [] (14 / 10)%R always_zero
  = Ok ([], two_leaves_tree, always_zero)
  /\ unvisited_from 0 (children two_leaves_tree) = [0; 1]
  /\ expansion_phase [] two_leaves_tree always_zero
     = Ok ([], two_leaves_tree, always_zero).
Proof. repeat split. Qed.

(** ** The run as a whole *)

Lemma find_node_some root :
  forall i, In i (node_ids root) -> exists path, find_node root i = Some path.
Proof.
  induction root as [i0 v cs d m a0 b0 pr vi wi IH] using TreeNode_nested_ind.
  intros i Hin. cbn [find_node]. cbn [node_ids] in Hin.
  destruct (String.eqb_spec i0 i) as [E|E]; [eauto|].
  destruct Hin as [Hin|Hin]; [contradiction|].
  generalize 0. induction IH as [|c cs Hc Hcs IHcs]; intros k.
  - contradiction.
  - cbn [flat_map] in Hin. apply in_app_or in Hin.
    destruct (find_node c i) as [found|] eqn:Hfound; [eauto|].
    destruct Hin as [Hin|Hin].
    + destruct (Hc i Hin) as [path Hpath]. congruence.
    + apply IHcs. exact Hin.
Qed.

Lemma node_ids_clear_stats root : node_ids (clear_stats root) = node_ids root.
Proof.
  induction root as [i0 v cs d m a0 b0 pr vi wi IH] using TreeNode_nested_ind.
  simpl. f_equal. induction IH as [|c cs Hc Hcs IHcs]; [reflexivity|].
  simpl. rewrite Hc, IHcs. reflexivity.
Qed.

Lemma dict_keys_subset l : forall seen k, In k (dict_keys seen l) -> In k l.
Proof.
  induction l as [|x l IH]; intros seen k Hin; [contradiction|].
  simpl in Hin. destruct (in_dec string_dec x seen).
  - right. eapply IH; eauto.
  - destruct Hin as [Hin|Hin]; [left; exact Hin|right; eapply IH; eauto].
Qed.

Lemma stats_ok_set_stats_zero n :
  stats_ok n = true -> stats_ok (set_stats n 0 0) = true.
Proof. destruct n; reflexivity. Qed.

Lemma no_stats_set_stats_zero n : no_stats n = true -> set_stats n 0 0 = n.
Proof.
  destruct n as [i v cs d m a b p vi w]. unfold no_stats. simpl.
  intros H. apply andb_true_iff in H. destruct H as [H1 H2].
  apply Nat.eqb_eq in H1. apply Nat.eqb_eq in H2. subst. reflexivity.
Qed.

(** The initialisation of the statistics never fails and touches nothing
    but counters; on a tree without statistics it changes nothing. *)
Lemma reset_statistics_total keys :
  forall root,
    (forall k, In k keys -> In k (node_ids root)) ->
    exists root',
      reset_statistics root keys = Ok root'
      /\ clear_stats root' = clear_stats root
      /\ (all_nodes stats_ok root = true -> all_nodes stats_ok root' = true)
      /\ (all_nodes no_stats root = true -> root' = root).
Proof.
  induction keys as [|key keys IH]; intros root Hkeys.
  - exists root. simpl. auto.
  - cbn [reset_statistics].
    destruct (find_node_some root key (Hkeys key (or_introl eq_refl)))
      as [found Hfound].
    rewrite Hfound.
    set (root1 := update_at (fun n => set_stats n 0 0) root found).
    assert (Hclear : clear_stats root1 = clear_stats root).
    { apply clear_stats_update_at. intros [ ]. reflexivity. }
    destruct (IH root1) as [root' [Hrun [Hc [Hok Hno]]]].
    { intros k Hk. rewrite <- node_ids_clear_stats, Hclear, node_ids_clear_stats.
      apply Hkeys. right. exact Hk. }
    exists root'. split; [exact Hrun|]. split; [congruence|]. split.
    + intros H. apply Hok. apply all_nodes_update_at; auto.
      * apply stats_ok_set_stats_zero.
      * intros [ ]. reflexivity.
      * intros [ ] cs. reflexivity.
    + intros H.
      assert (E : root1 = root).
      { apply (update_at_unchanged no_stats); [|exact H].
        apply no_stats_set_stats_zero. }
      rewrite E in Hno. auto.
Qed.

Lemma on_path_root current : on_path [] current = true.
Proof.
  induction current as [|x up IH]; simpl.
  - destruct (list_eq_dec Nat.eq_dec [] []); [reflexivity|congruence].
  - rewrite IH. first [apply orb_true_r|reflexivity].
Qed.

Lemma visits_backpropagation root current r :
  visits (mcts_backpropagation root current r) = S (visits root).
Proof.
  pose proof (stats_backpropagation r current root []) as H.
  rewrite on_path_root in H. unfold stats_at, deref in H. simpl in H.
  inversion H. reflexivity.
Qed.

(** The loop never fails, whatever the exploration weight; it changes
    counters only, keeps [wins <= visits], and adds one visit to the root
    per iteration. *)
Lemma mcts_iterations_loop_total n :
  forall root w g,
    exists root' g',
      mcts_iterations_loop n root w g = Ok (root', g')
      /\ clear_stats root' = clear_stats root
      /\ (all_nodes stats_ok root = true -> all_nodes stats_ok root' = true)
      /\ visits root' = visits root + n.
Proof.
  induction n as [|n IH]; intros root w g.
  - exists root, g. simpl. repeat split; auto.
  - destruct (mcts_iteration_phases root w g)
      as [selected [sel [g1 [expanded [exp_node [g2 [r [g3
           [_ [_ [_ [_ [_ Hit]]]]]]]]]]]]].
    cbn [mcts_iterations_loop]. rewrite Hit. cbn [bind]. cbv beta iota.
    destruct (IH (mcts_backpropagation root expanded r) w g3)
      as [root' [g' [Hrun [Hclear [Hok Hvisits]]]]].
    exists root', g'. split; [exact Hrun|]. split; [|split].
    + rewrite Hclear. apply clear_stats_backpropagation.
    + intros H. apply Hok. apply stats_ok_backpropagation. exact H.
    + rewrite Hvisits, visits_backpropagation. lia.
Qed.

Lemma mcts_search_total cfg root g :
  exists root' g',
    mcts_search cfg root g = Ok (root', g')
    /\ clear_stats root' = clear_stats root
    /\ (all_nodes stats_ok root = true -> all_nodes stats_ok root' = true)
    /\ (all_nodes no_stats root = true ->
        visits root' = Z.to_nat (get (mcts_iterations cfg) 10%Z)).
Proof.
  unfold mcts_search.
  destruct (reset_statistics_total (node_objects_keys root) root)
    as [root0 [Hreset [Hclear0 [Hok0 Hno0]]]].
  { intros k Hk. eapply dict_keys_subset; eauto. }
  rewrite Hreset. cbn [bind].
  destruct (mcts_iterations_loop_total
              (Z.to_nat (get (mcts_iterations cfg) 10%Z)) root0
              (get (exploration_weight cfg) (14 / 10)%R) g)
    as [root' [g' [Hrun [Hclear [Hok Hvisits]]]]].
  exists root', g'. split; [exact Hrun|]. split; [congruence|]. split; [auto|].
  intros H. rewrite Hvisits, (Hno0 H).
  rewrite all_nodes_unfold in H. apply andb_true_iff in H.
  destruct H as [H _]. unfold no_stats in H.
  apply andb_true_iff in H. destruct H as [H _].
  apply Nat.eqb_eq in H. rewrite H. reflexivity.
Qed.

Lemma stats_ok_bounds root :
  all_nodes stats_ok root = true ->
  forall a n,
    deref root a = Some n -> wins n <= visits n /\ (visits n = 0 -> wins n = 0).
Proof.
  intros Hall a n Hn. unfold deref in Hn.
  pose proof (all_nodes_node_at stats_ok _ _ _ Hall Hn) as H.
  unfold stats_ok in H. apply Nat.leb_le in H. lia.
Qed.

Lemma is_win_iff r : is_win r = true <-> r = Fin 1%Z.
Proof.
  destruct r as [|z|]; simpl; split; intros H; try discriminate.
  - apply Z.eqb_eq in H. subst. reflexivity.
  - injection H as ->. reflexivity.
Qed.

Lemma node_at_snoc path :
  forall root k,
    node_at root (path ++ [k])
    = match node_at root path with
      | Some n => nth_error (children n) k
      | None => None
      end.
Proof.
  induction path as [|i path IH]; intros root k; cbn [app node_at].
  - destruct (nth_error (children root) k); reflexivity.
  - destruct (nth_error (children root) i) as [c|]; [apply IH|reflexivity].
Qed.

(** The address the expansion phase returns is the address of the node it
    returns. *)
Lemma expansion_phase_deref root selected sel g expanded exp_node g' :
  deref root selected = Some sel ->
  expansion_phase selected sel g = Ok (expanded, exp_node, g') ->
  deref root expanded = Some exp_node.
Proof.
  intros Hsel Hexp.
  destruct (expansion_phase_cases selected sel g) as [Hsame Hchild].
  destruct (Nat.eq_dec (visits sel) 0) as [Hz|Hnz].
  - rewrite (Hsame (or_introl Hz)) in Hexp. inversion Hexp; subst. exact Hsel.
  - destruct (unvisited_from 0 (children sel)) as [|u us] eqn:Hu.
    + rewrite (Hsame (or_intror eq_refl)) in Hexp.
      inversion Hexp; subst. exact Hsel.
    + destruct (Hchild Hnz ltac:(discriminate)) as [k [child [Hrun [Hk _]]]].
      rewrite Hrun in Hexp. inversion Hexp; subst.
      unfold deref in *. cbn [rev]. rewrite node_at_snoc, Hsel. exact Hk.
Qed.

(** The counters after the backpropagation loop, node by node. *)
Lemma backpropagation_effect root current r a n :
  deref root a = Some n ->
  exists n',
    deref (mcts_backpropagation root current r) a = Some n'
    /\ (on_path a current = true ->
        visits n' = S (visits n)
        /\ (r = Fin 1%Z -> wins n' = S (wins n))
        /\ (r <> Fin 1%Z -> wins n' = wins n))
    /\ (on_path a current = false ->
        visits n' = visits n /\ wins n' = wins n).
Proof.
  intros Hn.
  pose proof (stats_backpropagation r current root a) as H.
  unfold stats_at in H. rewrite Hn in H.
  destruct (deref (mcts_backpropagation root current r) a) as [n'|];
    [|destruct (on_path a current); discriminate].
  exists n'. split; [reflexivity|].
  destruct (on_path a current); simpl in H; injection H as Hv Hw.
  - split; [|intros; discriminate].
    intros _. split; [exact Hv|]. rewrite Hw. split.
    + intros Hr. apply is_win_iff in Hr. rewrite Hr. reflexivity.
    + intros Hr. destruct (is_win r) eqn:E; [|reflexivity].
      apply is_win_iff in E. contradiction.
  - split; [intros; discriminate|]. intros _. split; assumption.
Qed.

(** C7.  Backpropagation and the counters.  (1) The loop adds exactly one
    visit to each node from [current] up to the root, and one win to each
    of them if the result is 1, none if it is not; the counters of every
    node off that path are what they were.  (2) It changes nothing but
    counters.  (3) In an iteration (the exploration weight a number), the
    loop is run from the node the expansion phase returns, with the result
    the simulation from that node returns, and the iteration ends with it:
    so the tree after the iteration has, on the path from the expansion
    node to the root, one visit more, and one win more exactly when the
    simulation result is 1, and the old counters everywhere else; it keeps
    [wins <= visits] at every node.  (4) So after the iterations of a run
    on a tree where [wins <= visits] held, [wins <= visits] holds at every
    node, and a node without visits has no wins. *)
Theorem backpropagation_counts :
  (forall root current r a n,
      deref root a = Some n ->
      exists n',
        deref (mcts_backpropagation root current r) a = Some n'
        /\ (on_path a current = true ->
            visits n' = S (visits n)
            /\ (r = Fin 1%Z -> wins n' = S (wins n))
            /\ (r <> Fin 1%Z -> wins n' = wins n))
        /\ (on_path a current = false ->
            visits n' = visits n /\ wins n' = wins n))
  /\ (forall root current r,
         clear_stats (mcts_backpropagation root current r) = clear_stats root)
  /\ (forall root w g,
         exists selected selected_node g1 expanded expanded_node g2 r g3 root',
           mcts_selection root [] w g = Ok (selected, selected_node, g1)
           /\ expansion_phase selected selected_node g1
              = Ok (expanded, expanded_node, g2)
           /\ deref root expanded = Some expanded_node
           /\ mcts_simulation expanded_node g2 = Ok (r, g3)
           /\ root' = mcts_backpropagation root expanded r
           /\ mcts_iteration root w g = Ok (root', g3)
           /\ (forall a n,
                  deref root a = Some n ->
                  exists n',
                    deref root' a = Some n'
                    /\ (on_path a expanded = true ->
                        visits n' = S (visits n)
                        /\ (r = Fin 1%Z -> wins n' = S (wins n))
                        /\ (r <> Fin 1%Z -> wins n' = wins n))
                    /\ (on_path a expanded = false ->
                        visits n' = visits n /\ wins n' = wins n))
           /\ (all_nodes stats_ok root = true ->
               forall a n,
                 deref root' a = Some n ->
                 wins n <= visits n /\ (visits n = 0 -> wins n = 0)))
  /\ (forall cfg root g,
         all_nodes stats_ok root = true ->
         exists root' g',
           mcts_search cfg root g = Ok (root', g')
           /\ forall a n,
               deref root' a = Some n ->
               wins n <= visits n /\ (visits n = 0 -> wins n = 0)).
Proof.
  split; [|split; [|split]].
  - intros root current r a n Hn. apply backpropagation_effect. exact Hn.
  - intros root current r. apply clear_stats_backpropagation.
  - intros root w g.
    destruct (mcts_iteration_phases root w g)
      as [selected [sel [g1 [expanded [exp_node [g2 [r [g3
           [Hsel [Hat [_ [Hexp [Hsim Hit]]]]]]]]]]]]].
    exists selected, sel, g1, expanded, exp_node, g2, r, g3,
      (mcts_backpropagation root expanded r).
    split; [exact Hsel|]. split; [exact Hexp|].
    split; [eapply expansion_phase_deref; eassumption|].
    split; [exact Hsim|]. split; [reflexivity|]. split; [exact Hit|].
    split.
    + intros a n Hn. apply backpropagation_effect. exact Hn.
    + intros Hall. apply stats_ok_bounds.
      apply stats_ok_backpropagation. exact Hall.
  - intros cfg root g Hall.
    destruct (mcts_search_total cfg root g)
      as [root' [g' [Hrun [_ [Hok _]]]]].
    exists root', g'. split; [exact Hrun|].
    apply stats_ok_bounds. auto.
Qed.

Lemma backpropagation_counts_witness :
  exists n' m',
    deref (mcts_backpropagation two_leaves_tree [0] (Fin 1%Z)) [0] = Some n'
    /\ visits n' = 1 /\ wins n' = 1
    /\ deref (mcts_backpropagation two_leaves_tree [0] (Fin 1%Z)) [1] = Some m'
    /\ visits m' = 0 /\ wins m' = 0.
Proof.
  destruct (proj1 backpropagation_counts two_leaves_tree [0] (Fin 1%Z) [0] _
                  eq_refl) as [n' [Hn [Hon _]]].
  destruct (proj1 backpropagation_counts two_leaves_tree [0] (Fin 1%Z) [1] _
                  eq_refl) as [m' [Hm [_ Hoff]]].
  exists n', m'.
  destruct (Hon eq_refl) as [Hv [Hw _]].
  destruct (Hoff eq_refl) as [Hv' Hw'].
  split; [exact Hn|]. split; [exact Hv|]. split; [exact (Hw eq_refl)|].
  split; [exact Hm|]. split; [exact Hv'|exact Hw'].
Defined.

Lemma get_best_child_leaf node w g :
  children node = [] -> get_best_child node w g = Raise IndexError.
Proof. intros H. unfold get_best_child. rewrite H. reflexivity. Qed.

(** C9, as the code has it.  The run validates nothing.  With
    [mcts_iterations < 1] the loop body never runs, a tree without
    statistics is left as it is, and the run fails after the loop, in the
    final recommendation: [ZeroDivisionError] when the root has children,
    [IndexError] when it has none.  For every exploration weight that is
    a real number, negative ones included, the search raises nothing and
    runs all its iterations: the root ends with one visit per iteration.
    ([NaN] and the infinities, which [json.load] reads as well, are not
    numbers of the model, and nothing is stated about them.) *)
Theorem run_mcts_validates_nothing :
  (forall cfg root g,
      all_nodes no_stats root = true ->
      (get (mcts_iterations cfg) 10 < 1)%Z ->
      mcts_search cfg root g = Ok (root, g)
      /\ run_mcts cfg root g
         = Raise (if has_children root then ZeroDivisionError else IndexError))
  /\ (forall cfg root g,
         exists root' g',
           mcts_search cfg root g = Ok (root', g')
           /\ (all_nodes no_stats root = true ->
               visits root' = Z.to_nat (get (mcts_iterations cfg) 10%Z))).
Proof.
  split.
  - intros cfg root g Hno Hlt.
    assert (Hsearch : mcts_search cfg root g = Ok (root, g)).
    { unfold mcts_search.
      destruct (reset_statistics_total (node_objects_keys root) root)
        as [root0 [Hreset [_ [_ Hsame]]]].
      { intros k Hk. eapply dict_keys_subset; eauto. }
      rewrite Hreset, (Hsame Hno). cbn [bind].
      replace (Z.to_nat (get (mcts_iterations cfg) 10%Z)) with 0 by lia.
      reflexivity. }
    split; [exact Hsearch|].
    unfold run_mcts. rewrite Hsearch. cbn [bind]. cbv beta iota.
    unfold has_children.
    destruct (children root) as [|c cs] eqn:Hcs.
    + rewrite (get_best_child_leaf root 0%R g Hcs). reflexivity.
    + assert (Hc : visits c = 0).
      { rewrite all_nodes_unfold, Hcs in Hno.
        apply andb_true_iff in Hno. destruct Hno as [_ Hno].
        simpl in Hno. apply andb_true_iff in Hno. destruct Hno as [Hno _].
        rewrite all_nodes_unfold in Hno. apply andb_true_iff in Hno.
        destruct Hno as [Hno _]. unfold no_stats in Hno.
        apply andb_true_iff in Hno. destruct Hno as [Hno _].
        apply Nat.eqb_eq. exact Hno. }
      rewrite (get_best_child_first_unvisited root 0 c 0%R g);
        [|rewrite Hcs; reflexivity|exact Hc|intros; lia].
      cbn [bind]. cbv beta iota. simpl. rewrite Hc. reflexivity.
  - intros cfg root g.
    destruct (mcts_search_total cfg root g)
      as [root' [g' [Hrun [_ [_ Hvisits]]]]].
    eauto.
Qed.

Lemma run_mcts_validates_nothing_witness :
  mcts_search (mkConfig None (Some 0%Z) None) two_leaves_tree always_zero
  = Ok (two_leaves_tree, always_zero)
  /\ run_mcts (mkConfig None (Some 0%Z) None) two_leaves_tree always_zero
     = Raise ZeroDivisionError.
Proof.
  apply (proj1 run_mcts_validates_nothing
               (mkConfig None (Some 0%Z) None) two_leaves_tree always_zero
               eq_refl eq_refl).
Defined.

(** C9, as stated, fails: with a negative exploration weight the search
    raises nothing and its iteration changes a counter; with no iteration
    to run the search raises nothing either, and the error that ends the
    run is the division by the visits of the recommended child. *)
Lemma negative_weight_is_accepted :
  (exists root' g',
      mcts_search (mkConfig None (Some 1%Z) (Some (-1)%R)) two_leaves_tree
                  always_zero
      = Ok (root', g')
      /\ visits two_leaves_tree = 0
      /\ visits root' = 1)
  /\ mcts_search (mkConfig None (Some 0%Z) None) two_leaves_tree always_zero
     = Ok (two_leaves_tree, always_zero)
  /\ run_mcts (mkConfig None (Some 0%Z) None) two_leaves_tree always_zero
     = Raise ZeroDivisionError.
Proof.
  split; [|split; reflexivity].
  eexists. eexists. split; [reflexivity|]. split; reflexivity.
Qed.

(** * More of the code *)

(** ** build_tree *)

Lemma build_subtree_unfold i jvalue children_data depth is_max :
  _build_subtree (JNode (Some i) jvalue children_data) depth is_max
  = (cs <- build_children children_data (S depth) (negb is_max) ;;
     Ok (mkTreeNode i (option_map (@Fin Z) jvalue) cs depth is_max
                    NegInf PosInf false 0 0)).
Proof.
  cbn [_build_subtree].
  match goal with
  | |- bind (?f children_data) _ = _ =>
      assert (E : f children_data
                  = build_children children_data (S depth) (negb is_max))
  end.
  { induction children_data as [|c cs IH]; [reflexivity|].
    cbn [build_children]. rewrite <- IH. reflexivity. }
  rewrite E. reflexivity.
Qed.

Lemma build_children_inv children_data depth is_max :
  forall cs,
    build_children children_data depth is_max = Ok cs ->
    Forall2 (fun data c => _build_subtree data depth is_max = Ok c)
            children_data cs.
Proof.
  induction children_data as [|d ds IH]; intros cs H.
  - simpl in H. inversion H. constructor.
  - cbn [build_children] in H.
    destruct (_build_subtree d depth is_max) as [c|e] eqn:Hc;
      cbn [bind] in H; [|discriminate].
    destruct (build_children ds depth is_max) as [more|e] eqn:Hmore;
      cbn [bind] in H; [|discriminate].
    inversion H; subst. constructor; auto.
Qed.

Lemma build_subtree_inv data depth is_max t :
  _build_subtree data depth is_max = Ok t ->
  exists i cs,
    data = JNode (Some i)
                 (match data with JNode _ v _ => v end)
                 (match data with JNode _ _ l => l end)
    /\ t = mkTreeNode i
                      (option_map (@Fin Z) (match data with JNode _ v _ => v end))
                      cs depth is_max NegInf PosInf false 0 0
    /\ Forall2 (fun d c => _build_subtree d (S depth) (negb is_max) = Ok c)
               (match data with JNode _ _ l => l end) cs.
Proof.
  destruct data as [[i|] v l]; [|discriminate].
  rewrite build_subtree_unfold. intros H.
  destruct (build_children l (S depth) (negb is_max)) as [cs|e] eqn:Hcs;
    cbn [bind] in H; [|discriminate].
  inversion H; subst. exists i, cs. repeat split.
  apply build_children_inv. exact Hcs.
Qed.

(** Reading the tree file back from the tree built from it. *)
Lemma tree_data_of_build_subtree data :
  forall depth is_max t,
    _build_subtree data depth is_max = Ok t -> tree_data_of t = data.
Proof.
  induction data as [jid jvalue l IH] using json_node_nested_ind.
  intros depth is_max t H.
  destruct (build_subtree_inv _ _ _ _ H) as [i [cs [Hd [Ht Hcs]]]].
  simpl in Hd, Ht, Hcs. inversion Hd; subst jid. subst t. simpl.
  f_equal.
  - destruct jvalue; reflexivity.
  - clear H Hd. induction Hcs as [|d c ds cs Hdc Hrest IHrest]; [reflexivity|].
    inversion IH; subst. simpl. f_equal; eauto.
Qed.

Lemma kind_after_S is_max steps :
  kind_after (negb is_max) steps = kind_after is_max (S steps).
Proof.
  unfold kind_after. rewrite Nat.even_succ, <- Nat.negb_even.
  destruct (Nat.even steps), is_max; reflexivity.
Qed.

(** Depth, kind and search state of every node of a built tree. *)
Lemma build_subtree_nodes data :
  forall level is_max t,
    _build_subtree data level is_max = Ok t ->
    forall path n,
      node_at t path = Some n ->
      depth n = level + List.length path
      /\ is_max_node n = kind_after is_max (List.length path)
      /\ untouched n = true.
Proof.
  induction data as [jid jvalue l IH] using json_node_nested_ind.
  intros level is_max t H path n Hn.
  destruct (build_subtree_inv _ _ _ _ H) as [i [cs [Hd [Ht Hcs]]]].
  simpl in Hd, Ht, Hcs. subst t.
  destruct path as [|k path].
  - simpl in Hn. inversion Hn; subst. simpl.
    split; [lia|split; reflexivity].
  - simpl in Hn.
    destruct (nth_error cs k) as [c|] eqn:Hk; [|discriminate].
    clear H Hd.
    assert (Hc : exists d, In d l
                           /\ _build_subtree d (S level) (negb is_max) = Ok c).
    { clear - Hcs Hk. revert k Hk.
      induction Hcs as [|d c0 ds cs Hdc Hrest IHrest]; intros k Hk.
      - destruct k; discriminate.
      - destruct k as [|k]; simpl in Hk.
        + inversion Hk; subst. exists d. split; [left; reflexivity|exact Hdc].
        + destruct (IHrest k Hk) as [d' [Hin Hd']]. exists d'.
          split; [right; exact Hin|exact Hd']. }
    destruct Hc as [d [Hin Hd]].
    rewrite Forall_forall in IH.
    destruct (IH d Hin (S level) (negb is_max) c Hd path n Hn)
      as [Hdepth [Hkind Hfresh]].
    simpl. rewrite Hdepth, Hkind, kind_after_S.
    split; [lia|split; [reflexivity|exact Hfresh]].
Qed.

Lemma all_nodes_intro p :
  forall root,
    (forall path n, node_at root path = Some n -> p n = true) ->
    all_nodes p root = true.
Proof.
  induction root as [i v cs d m a0 b0 pr vi wi IH] using TreeNode_nested_ind.
  intros H. rewrite all_nodes_unfold. apply andb_true_iff. split.
  - apply (H [] _ eq_refl).
  - simpl. apply forallb_forall. intros c Hc.
    rewrite Forall_forall in IH. apply (IH c Hc).
    intros path n Hn. apply In_nth_error in Hc. destruct Hc as [k Hk].
    apply (H (k :: path) n). simpl. rewrite Hk. exact Hn.
Qed.

Lemma leaves_valued_build_subtree data :
  forall level is_max t,
    json_leaves_valued data = true ->
    _build_subtree data level is_max = Ok t ->
    leaves_valued t = true.
Proof.
  induction data as [jid jvalue l IH] using json_node_nested_ind.
  intros level is_max t Hval H.
  destruct (build_subtree_inv _ _ _ _ H) as [i [cs [Hd [Ht Hcs]]]].
  simpl in Hd, Ht, Hcs. subst t. clear H Hd.
  cbn [json_leaves_valued] in Hval. apply andb_true_iff in Hval.
  destruct Hval as [Hleaf Hval].
  unfold leaves_valued. rewrite all_nodes_unfold. apply andb_true_iff. split.
  - unfold leaf_has_number. simpl.
    inversion Hcs; subst; [|reflexivity].
    destruct jvalue; [reflexivity|discriminate].
  - simpl. clear Hleaf.
    induction Hcs as [|d c ds cs Hdc Hrest IHrest]; [reflexivity|].
    inversion IH; subst. simpl in Hval. apply andb_true_iff in Hval.
    destruct Hval as [Hd Hds]. simpl. apply andb_true_iff. split.
    + eapply H1; eauto.
    + apply IHrest; assumption.
Qed.

Lemma untouched_unpruned n : untouched n = true -> negb (pruned n) = true.
Proof.
  unfold untouched. intros H. apply andb_true_iff in H. destruct H as [H _].
  apply andb_true_iff in H. tauto.
Qed.

Lemma untouched_no_stats n : untouched n = true -> no_stats n = true.
Proof.
  unfold untouched. intros H. apply andb_true_iff in H. destruct H as [H _].
  apply andb_true_iff in H. tauto.
Qed.

Lemma build_tree_inv data root :
  build_tree (Document (Some data)) = Ok (Some root) ->
  _build_subtree data 0 true = Ok root.
Proof.
  cbn [build_tree]. destruct (_build_subtree data 0 true); cbn [bind];
    intros H; inversion H. reflexivity.
Qed.

(** X1.  Reading back.  The tree [build_tree] builds carries the tree
    file unchanged: the same ids, the same values and the same children in
    the same order. *)
Theorem build_tree_keeps_tree_file (data : json_node) (root : TreeNode) :
  build_tree (Document (Some data)) = Ok (Some root) ->
  tree_data_of root = data.
Proof.
  intros H. apply build_tree_inv in H.
  eapply tree_data_of_build_subtree; eauto.
Qed.

Lemma build_tree_keeps_tree_file_witness :
  tree_data_of example_tree
  = JNode (Some "root"%string) None
      [ JNode (Some "A"%string) None [ leaf_data "a1" 3; leaf_data "a2" 5 ];
        JNode (Some "B"%string) None [ leaf_data "b1" 2; leaf_data "b2" 9 ] ].
Proof.
  apply (build_tree_keeps_tree_file _ example_tree). reflexivity.
Defined.

(** X2.  Depth and kind.  In a built tree the node at an address has the
    length of the address as its depth, is a MAX node exactly at even
    depth, and is in the state [TreeNode.__init__] gives: window
    (-inf, +inf), not pruned, no visits, no wins. *)
Theorem build_tree_depth_and_kind (data : json_node) (root : TreeNode) :
  build_tree (Document (Some data)) = Ok (Some root) ->
  forall a n,
    deref root a = Some n ->
    depth n = List.length a
    /\ is_max_node n = Nat.even (List.length a)
    /\ untouched n = true.
Proof.
  intros H a n Hn. apply build_tree_inv in H. unfold deref in Hn.
  destruct (build_subtree_nodes data 0 true root H (rev a) n Hn)
    as [Hd [Hk Hu]].
  rewrite length_rev in Hd, Hk. unfold kind_after in Hk.
  split; [exact Hd|]. split; [|exact Hu].
  rewrite Hk. destruct (Nat.even (List.length a)); reflexivity.
Qed.

Lemma build_tree_depth_and_kind_witness :
  exists n,
    deref example_tree [1; 0] = Some n
    /\ depth n = 2
    /\ is_max_node n = true
    /\ untouched n = true.
Proof.
  eexists. split; [reflexivity|].
  apply (build_tree_depth_and_kind
           (JNode (Some "root"%string) None
              [ JNode (Some "A"%string) None
                  [ leaf_data "a1" 3; leaf_data "a2" 5 ];
                JNode (Some "B"%string) None
                  [ leaf_data "b1" 2; leaf_data "b2" 9 ] ])
           example_tree eq_refl [1; 0]).
  reflexivity.
Defined.

Lemma build_subtree_fresh data level is_max t :
  _build_subtree data level is_max = Ok t ->
  unpruned t = true /\ all_nodes no_stats t = true.
Proof.
  intros H. split; apply all_nodes_intro; intros path n Hn;
    destruct (build_subtree_nodes data level is_max t H path n Hn)
      as [_ [_ Hu]].
  - apply untouched_unpruned. exact Hu.
  - apply untouched_no_stats. exact Hu.
Qed.

Lemma window_sound_open m v : window_sound NegInf PosInf m v -> v = m.
Proof.
  intros HS.
  pose proof (NegInf_least m). pose proof (PosInf_greatest m).
  pose proof (NegInf_least v). pose proof (PosInf_greatest v).
  unfold window_sound in HS.
  destruct HS as [[Ha Hb]|[[Ha Hb]|[_ [_ Ha]]]]; [zorder|zorder|exact Ha].
Qed.

(** X3.  From the tree file to the value.  When every node of the tree
    file has an id and every leaf has a value, the tree is built and both
    searches, with and without pruning, end without error on the same
    number. *)
Theorem tree_file_to_value (data : json_node) :
  id_missing data = false ->
  json_leaves_valued data = true ->
  exists root z with_pruning without_pruning,
    build_tree (Document (Some data)) = Ok (Some root)
    /\ run_minimax true root = Ok (Some (Fin z), with_pruning)
    /\ run_minimax false root = Ok (Some (Fin z), without_pruning).
Proof.
  intros Hid Hval.
  pose proof (build_subtree_outcome data 0 true) as Hbuild.
  cbn [build_tree].
  destruct (_build_subtree data 0 true) as [root|e] eqn:Hroot;
    [|destruct Hbuild; congruence].
  destruct (build_subtree_fresh _ _ _ _ Hroot) as [Hun _].
  pose proof (leaves_valued_build_subtree _ _ _ _ Hval Hroot) as Hleaves.
  destruct (minimax_sound root Hun Hleaves NegInf PosInf eq_refl)
    as [v [c1 [Hrun1 HS]]].
  destruct (minimax_plain root Hun Hleaves NegInf PosInf) as [c2 Hrun2].
  apply window_sound_open in HS. subst v.
  destruct (minimax_follows_contract false root Hun Hleaves NegInf PosInf)
    as [_ [z [c3 Hrun3]]].
  rewrite Hrun2 in Hrun3. inversion Hrun3 as [[Hz Hc]].
  exists root, z, c1, c2. cbn [bind]. unfold run_minimax.
  rewrite Hrun1, Hrun2, Hz. auto.
Qed.

Lemma tree_file_to_value_witness :
  exists root z with_pruning without_pruning,
    build_tree example_document = Ok (Some root)
    /\ run_minimax true root = Ok (Some (Fin z), with_pruning)
    /\ run_minimax false root = Ok (Some (Fin z), without_pruning).
Proof.
  apply (tree_file_to_value
           (JNode (Some "root"%string) None
              [ JNode (Some "A"%string) None
                  [ leaf_data "a1" 3; leaf_data "a2" 5 ];
                JNode (Some "B"%string) None
                  [ leaf_data "b1" 2; leaf_data "b2" 9 ] ]));
    reflexivity.
Defined.

(** ** More on minimax *)

Lemma static_part_set_pruned c : static_part (set_pruned c) = static_part c.
Proof. destruct c; reflexivity. Qed.

Lemma children_loop_static pruning m cs :
  Forall (keeps_static pruning) cs ->
  forall i V best a b V' best' cs',
    children_loop pruning (minimax pruning) m i cs V best a b
    = Ok (V', best', cs') ->
    map static_part cs' = map static_part cs.
Proof.
  induction 1 as [|c cs Hc Hcs IH]; intros i V best a b V' best' cs' Hrun.
  - simpl in Hrun. inversion Hrun. reflexivity.
  - cbn [children_loop] in Hrun. destruct (pruned c).
    + destruct (children_loop pruning (minimax pruning) m (S i) cs V best a b)
        as [[[v1 b1] cs1]|e] eqn:E; cbn [bind] in Hrun; [|discriminate].
      inversion Hrun; subst. simpl. f_equal. eapply IH; eauto.
    + destruct (minimax pruning c a b) as [[[cv|] c1]|e] eqn:Ec;
        cbn [bind] in Hrun; try discriminate.
      cbv beta iota zeta in Hrun.
      match type of Hrun with
      | (if ?t then _ else _) = _ => destruct t
      end.
      * inversion Hrun; subst. simpl. f_equal; [eapply Hc; eauto|].
        rewrite map_map. apply map_ext. apply static_part_set_pruned.
      * match type of Hrun with
        | bind ?r _ = _ => destruct r as [[[v1 b1] cs1]|e] eqn:E
        end; cbn [bind] in Hrun; [|discriminate].
        inversion Hrun; subst. simpl. f_equal; [eapply Hc; eauto|].
        eapply IH; eauto.
Qed.

Lemma minimax_keeps_static pruning node : keeps_static pruning node.
Proof.
  induction node as [i v cs d m a0 b0 p vi w IH] using TreeNode_nested_ind.
  intros a b v' after Hrun.
  destruct cs as [|c cs]; cbn [minimax] in Hrun.
  - inversion Hrun; subst. reflexivity.
  - destruct (children_loop pruning (minimax pruning) m 0 (c :: cs)
                            (initial_value m) None a b)
      as [[[v1 b1] cs1]|e] eqn:E; cbn [bind] in Hrun; [|discriminate].
    inversion Hrun; subst.
    pose proof (children_loop_static pruning m _ IH _ _ _ _ _ _ _ _ E) as Hmap.
    destruct cs1 as [|c1 cs1]; [discriminate|].
    cbn [static_part]. rewrite Hmap. reflexivity.
Qed.

(** X4.  What minimax leaves alone.  A search changes nothing but the
    window, the pruned flag and the value of internal nodes: ids, leaf
    payoffs, child order, depths, kinds and the MCTS counters are after
    the search what they were before, whatever the flag and the window. *)
Theorem minimax_keeps_static_part (pruning : bool) (node : TreeNode)
        (a b : zext) (v : option zext) (after : TreeNode) :
  minimax pruning node a b = Ok (v, after) ->
  static_part after = static_part node.
Proof. apply minimax_keeps_static. Qed.

Lemma minimax_keeps_static_part_witness :
  exists v after,
    minimax true example_tree NegInf PosInf = Ok (v, after)
    /\ static_part after = static_part example_tree.
Proof.
  eexists. eexists. split; [reflexivity|].
  apply (minimax_keeps_static_part true example_tree NegInf PosInf _ _ eq_refl).
Defined.

Lemma leaf_payoffs_children i v c cs d m a b p vi w :
  leaf_payoffs (mkTreeNode i v (c :: cs) d m a b p vi w)
  = flat_map leaf_payoffs (c :: cs).
Proof. reflexivity. Qed.

Lemma children_loop_leaf_payoff pruning m cs :
  Forall (returns_leaf_payoff pruning) cs ->
  forallb unpruned cs = true ->
  forallb leaves_valued cs = true ->
  forall seen i V best a b V' best' cs',
    (best <> None -> In V seen) ->
    children_loop pruning (minimax pruning) m i cs V best a b
    = Ok (V', best', cs') ->
    cs <> [] \/ best <> None ->
    In V' (seen ++ flat_map leaf_payoffs cs).
Proof.
  induction 1 as [|c cs Hc Hcs IH];
    intros Hun Hval seen i V best a b V' best' cs' Hseen Hrun Hsome.
  - simpl in Hrun. inversion Hrun; subst. simpl. rewrite app_nil_r.
    destruct Hsome as [Hsome|Hsome]; [congruence|auto].
  - simpl in Hun, Hval.
    apply andb_true_iff in Hun. destruct Hun as [Hun_c Hun].
    apply andb_true_iff in Hval. destruct Hval as [Hval_c Hval].
    cbn [children_loop] in Hrun. rewrite (unpruned_not_pruned c Hun_c) in Hrun.
    destruct (minimax pruning c a b) as [[cv c1]|e] eqn:Ec;
      cbn [bind] in Hrun; [|discriminate].
    destruct (Hc Hun_c Hval_c a b cv c1 Ec) as [x [Hx Hin]]. subst cv.
    cbv beta iota zeta in Hrun.
    pose proof (update_best m V best x i) as Hbest.
    set (update := match best with
                   | None => true
                   | Some _ => (m && zlt V x) || (negb m && zlt x V)
                   end) in *.
    assert (Hnew : In (if update then x else V)
                      ((seen ++ leaf_payoffs c))).
    { apply in_or_app. destruct update eqn:Hu; [right; exact Hin|left].
      apply Hseen. subst update. destruct best; [discriminate|discriminate]. }
    cbn [flat_map]. rewrite app_assoc.
    match type of Hrun with
    | (if ?t then _ else _) = _ => destruct t
    end.
    + inversion Hrun; subst. apply in_or_app. left. exact Hnew.
    + match type of Hrun with
      | bind ?r _ = _ => destruct r as [[[v1 b1] cs1]|e] eqn:E
      end; cbn [bind] in Hrun; [|discriminate].
      inversion Hrun; subst.
      eapply (IH Hun Hval (seen ++ leaf_payoffs c)); eauto.
Qed.

Lemma minimax_returns_leaf_payoff pruning node :
  returns_leaf_payoff pruning node.
Proof.
  induction node as [i v cs d m a0 b0 p vi w IH] using TreeNode_nested_ind.
  intros Hun Hval a b v' after Hrun.
  apply all_nodes_inv in Hun. destruct Hun as [_ Hun].
  apply all_nodes_inv in Hval. destruct Hval as [Hleaf Hval].
  destruct cs as [|c cs]; cbn [minimax] in Hrun.
  - inversion Hrun; subst. unfold leaf_has_number in Hleaf. simpl in Hleaf.
    destruct v' as [[|z|]|]; try discriminate.
    exists (Fin z). split; [reflexivity|left; reflexivity].
  - destruct (children_loop pruning (minimax pruning) m 0 (c :: cs)
                            (initial_value m) None a b)
      as [[[v1 b1] cs1]|e] eqn:E; cbn [bind] in Hrun; [|discriminate].
    inversion Hrun; subst.
    exists v1. split; [reflexivity|].
    rewrite leaf_payoffs_children.
    apply (children_loop_leaf_payoff pruning m (c :: cs) IH Hun Hval []
             0 (initial_value m) None a b v1 b1 cs1); auto.
    + congruence.
    + left. discriminate.
Qed.

(** X5.  The value is a leaf's.  On a tree as built, with a value on every
    leaf, whatever the pruning flag and the window, [minimax] returns a
    number, and this number is the payoff of one of the leaves under the
    node. *)
Theorem minimax_value_is_leaf_payoff (pruning : bool) (node : TreeNode)
        (a b : zext) :
  unpruned node = true ->
  leaves_valued node = true ->
  exists z after,
    minimax pruning node a b = Ok (Some (Fin z), after)
    /\ In (Fin z) (leaf_payoffs node).
Proof.
  intros Hun Hval.
  destruct (minimax_follows_contract pruning node Hun Hval a b)
    as [_ [z [after Hrun]]].
  destruct (minimax_returns_leaf_payoff pruning node Hun Hval a b _ _ Hrun)
    as [x [Hx Hin]].
  injection Hx as <-. exists z, after. split; assumption.
Qed.

Lemma minimax_value_is_leaf_payoff_witness :
  exists z after,
    minimax true example_tree NegInf PosInf = Ok (Some (Fin z), after)
    /\ In (Fin z) (leaf_payoffs example_tree).
Proof.
  apply (minimax_value_is_leaf_payoff true example_tree NegInf PosInf);
    reflexivity.
Defined.

Lemma window_open_set_pruned c :
  all_nodes window_open (set_pruned c) = all_nodes window_open c.
Proof. destruct c; reflexivity. Qed.

Lemma children_loop_windows_open m cs :
  Forall keeps_windows_open cs ->
  forallb (all_nodes window_open) cs = true ->
  forall i V best a b V' best' cs',
    zext_lt a b ->
    children_loop true (minimax true) m i cs V best a b = Ok (V', best', cs') ->
    forallb (all_nodes window_open) cs' = true.
Proof.
  induction 1 as [|c cs Hc Hcs IH];
    intros Hall i V best a b V' best' cs' Hab Hrun.
  - simpl in Hrun. inversion Hrun. reflexivity.
  - simpl in Hall. apply andb_true_iff in Hall. destruct Hall as [Hall_c Hall].
    cbn [children_loop] in Hrun. destruct (pruned c).
    + destruct (children_loop true (minimax true) m (S i) cs V best a b)
        as [[[v1 b1] cs1]|e] eqn:E; cbn [bind] in Hrun; [|discriminate].
      inversion Hrun; subst. simpl. rewrite Hall_c. simpl. eapply IH; eauto.
    + destruct (minimax true c a b) as [[[cv|] c1]|e] eqn:Ec;
        cbn [bind] in Hrun; try discriminate.
      pose proof (Hc Hall_c a b _ _ Hab Ec) as Hc1.
      cbv beta iota zeta in Hrun. cbn [andb] in Hrun.
      match type of Hrun with
      | (if zle ?x ?y then _ else _) = _ => destruct (zle x y) eqn:Hcut
      end.
      * inversion Hrun; subst. simpl. rewrite Hc1. simpl.
        clear - Hall. induction cs as [|x cs IHcs]; [reflexivity|].
        simpl in *. apply andb_true_iff in Hall. destruct Hall as [Hx Hall].
        rewrite window_open_set_pruned, Hx. simpl. auto.
      * apply zle_false in Hcut.
        match type of Hrun with
        | bind ?r _ = _ => destruct r as [[[v1 b1] cs1]|e] eqn:E
        end; cbn [bind] in Hrun; [|discriminate].
        inversion Hrun; subst. simpl. rewrite Hc1. simpl.
        eapply IH; [exact Hall|exact Hcut|exact E].
Qed.

Lemma minimax_keeps_windows_open node : keeps_windows_open node.
Proof.
  induction node as [i v cs d m a0 b0 p vi w IH] using TreeNode_nested_ind.
  intros Hall a b v' after Hab Hrun.
  rewrite all_nodes_unfold in Hall. apply andb_true_iff in Hall.
  destruct Hall as [_ Hall]. simpl in Hall.
  destruct cs as [|c cs]; cbn [minimax] in Hrun.
  - inversion Hrun; subst. rewrite all_nodes_unfold. simpl.
    unfold window_open. simpl. rewrite andb_true_r. exact Hab.
  - destruct (children_loop true (minimax true) m 0 (c :: cs)
                            (initial_value m) None a b)
      as [[[v1 b1] cs1]|e] eqn:E; cbn [bind] in Hrun; [|discriminate].
    inversion Hrun; subst. rewrite all_nodes_unfold. simpl.
    apply andb_true_iff. split; [exact Hab|].
    eapply children_loop_windows_open; eauto.
Qed.

(** X6.  Open windows.  With pruning on, a search started with
    [alpha < beta] never enters a node with [beta <= alpha]: after it,
    every node of a tree whose stored windows were open has an open
    window. *)
Theorem pruning_keeps_windows_open (node : TreeNode) (a b : zext)
        (v : option zext) (after : TreeNode) :
  all_nodes window_open node = true ->
  zlt a b = true ->
  minimax true node a b = Ok (v, after) ->
  forall path n, node_at after path = Some n -> zlt (alpha n) (beta n) = true.
Proof.
  intros Hall Hab Hrun path n Hn.
  apply (all_nodes_node_at window_open path after n); [|exact Hn].
  eapply minimax_keeps_windows_open; eauto.
Qed.

Lemma pruning_keeps_windows_open_witness :
  exists after,
    minimax true example_tree NegInf PosInf = Ok (Some (Fin 3%Z), after)
    /\ forall path n,
        node_at after path = Some n -> zlt (alpha n) (beta n) = true.
Proof.
  eexists. split; [reflexivity|].
  apply (pruning_keeps_windows_open example_tree NegInf PosInf _ _
           eq_refl eq_refl eq_refl).
Defined.

(** ** get_node_by_id and the initialisation of the statistics *)

Lemma find_node_unfold node target_id :
  find_node node target_id
  = if String.eqb (id node) target_id then Some []
    else find_in_children target_id 0 (children node).
Proof.
  destruct node as [i v cs d m a b p vi w]. cbn [find_node id children].
  destruct (String.eqb i target_id); [reflexivity|].
  generalize 0. induction cs as [|c cs IH]; intros k; [reflexivity|].
  cbn [find_in_children]. destruct (find_node c target_id); [reflexivity|].
  apply IH.
Qed.

Lemma node_ids_unfold node :
  node_ids node = id node :: flat_map node_ids (children node).
Proof. destruct node; reflexivity. Qed.

Lemma find_in_children_some target_id l :
  forall k path,
    find_in_children target_id k l = Some path ->
    exists j c found,
      path = (k + j) :: found
      /\ nth_error l j = Some c
      /\ find_node c target_id = Some found
      /\ forall j' c', j' < j -> nth_error l j' = Some c' ->
                       find_node c' target_id = None.
Proof.
  induction l as [|c l IH]; intros k path H; [discriminate|].
  cbn [find_in_children] in H.
  destruct (find_node c target_id) as [found|] eqn:Hc.
  - inversion H; subst. exists 0, c, found. rewrite Nat.add_0_r.
    repeat split; auto. intros j' c' Hlt. lia.
  - destruct (IH (S k) path H) as [j [c0 [found [Hp [Hj [Hf Hbefore]]]]]].
    exists (S j), c0, found. split; [rewrite Hp; f_equal; lia|].
    split; [exact Hj|]. split; [exact Hf|].
    intros j' c' Hlt Hj'. destruct j' as [|j']; simpl in Hj'.
    + inversion Hj'; subst. exact Hc.
    + apply (Hbefore j' c'); [lia|exact Hj'].
Qed.

(** What [find_node] returns is the path to a node with the id asked
    for. *)
Lemma find_node_sound root :
  forall target_id path,
    find_node root target_id = Some path ->
    exists n, node_at root path = Some n /\ id n = target_id.
Proof.
  induction root as [i v cs d m a0 b0 pr vi wi IH] using TreeNode_nested_ind.
  intros target_id path H. rewrite find_node_unfold in H.
  cbn [id children] in H.
  destruct (String.eqb_spec i target_id) as [E|E].
  - inversion H; subst. eexists. split; reflexivity.
  - destruct (find_in_children_some _ _ _ _ H)
      as [j [c [found [Hp [Hj [Hf _]]]]]].
    subst path. simpl. rewrite Hj.
    rewrite Forall_forall in IH.
    apply (IH c (nth_error_In _ _ Hj)). exact Hf.
Qed.

Lemma node_at_id_in root :
  forall path n, node_at root path = Some n -> In (id n) (node_ids root).
Proof.
  induction root as [i v cs d m a0 b0 pr vi wi IH] using TreeNode_nested_ind.
  intros path n Hn. destruct path as [|k path]; simpl in Hn.
  - inversion Hn; subst. left. reflexivity.
  - destruct (nth_error cs k) as [c|] eqn:Hk; [|discriminate].
    right. apply in_flat_map. exists c.
    split; [eapply nth_error_In; eauto|].
    rewrite Forall_forall in IH. eapply IH; eauto. eapply nth_error_In; eauto.
Qed.

Lemma find_node_none root target_id :
  find_node root target_id = None <-> ~ In target_id (node_ids root).
Proof.
  split.
  - intros H Hin. destruct (find_node_some root target_id Hin). congruence.
  - intros H. destruct (find_node root target_id) as [path|] eqn:E;
      [|reflexivity].
    exfalso. apply H. destruct (find_node_sound root _ _ E) as [n [Hn Hid]].
    subst target_id. eapply node_at_id_in; eauto.
Qed.

Lemma NoDup_app_apart {A : Type} (l1 l2 : list A) a :
  NoDup (l1 ++ l2) -> In a l1 -> In a l2 -> False.
Proof.
  induction l1 as [|x l1 IH]; intros Hnd H1 H2; [contradiction|].
  simpl in Hnd. inversion Hnd as [|y l Hnotin Hnd']; subst.
  destruct H1 as [E|H1].
  - subst. apply Hnotin. apply in_or_app. right. exact H2.
  - apply IH; assumption.
Qed.

Lemma NoDup_flat_map_nth {A B : Type} (f : A -> list B) (l : list A) :
  NoDup (flat_map f l) ->
  forall j k x y b,
    nth_error l j = Some x -> nth_error l k = Some y ->
    In b (f x) -> In b (f y) -> j = k.
Proof.
  induction l as [|a l IH]; intros Hnd j k x y b Hj Hk Hx Hy.
  - destruct j; discriminate.
  - cbn [flat_map] in Hnd.
    pose proof (NoDup_app_remove_l _ _ Hnd) as Hl.
    assert (Hdisj : forall z c, In z (f a) -> In c l -> In z (f c) -> False).
    { intros z c Hz Hc Hzc. apply (NoDup_app_apart _ _ z Hnd Hz).
      apply in_flat_map. eauto. }
    destruct j as [|j], k as [|k]; simpl in Hj, Hk.
    + reflexivity.
    + inversion Hj; subst. exfalso.
      eapply Hdisj; [exact Hx|eapply nth_error_In; eauto|exact Hy].
    + inversion Hk; subst. exfalso.
      eapply Hdisj; [exact Hy|eapply nth_error_In; eauto|exact Hx].
    + f_equal. eapply IH; eauto.
Qed.

Lemma NoDup_flat_map_each {A B : Type} (f : A -> list B) (l : list A) x :
  NoDup (flat_map f l) -> In x l -> NoDup (f x).
Proof.
  induction l as [|a l IH]; intros Hnd Hin; [contradiction|].
  cbn [flat_map] in Hnd. destruct Hin as [E|Hin].
  - subst. eapply NoDup_app_remove_r; eauto.
  - apply IH; [eapply NoDup_app_remove_l; eauto|exact Hin].
Qed.

Lemma find_in_children_at target_id l :
  forall k j c found,
    nth_error l j = Some c ->
    find_node c target_id = Some found ->
    (forall j' c', j' < j -> nth_error l j' = Some c' ->
                   find_node c' target_id = None) ->
    find_in_children target_id k l = Some ((k + j) :: found).
Proof.
  induction l as [|x l IH]; intros k j c found Hj Hf Hbefore.
  - destruct j; discriminate.
  - cbn [find_in_children]. destruct j as [|j]; simpl in Hj.
    + inversion Hj; subst. rewrite Hf, Nat.add_0_r. reflexivity.
    + rewrite (Hbefore 0 x); [|lia|reflexivity].
      rewrite (IH (S k) j c found Hj Hf).
      * do 2 f_equal. lia.
      * intros j' c' Hlt Hj'. apply (Hbefore (S j') c'); [lia|exact Hj'].
Qed.

Lemma find_node_finds_itself root : finds_itself root.
Proof.
  induction root as [i v cs d m a0 b0 pr vi wi IH] using TreeNode_nested_ind.
  intros Hnd path n Hn. rewrite find_node_unfold. cbn [id children].
  rewrite node_ids_unfold in Hnd. cbn [id children] in Hnd.
  inversion Hnd as [|x l Hnotin Hnd']; subst.
  destruct path as [|k path]; simpl in Hn.
  - inversion Hn; subst. simpl. rewrite String.eqb_refl. reflexivity.
  - destruct (nth_error cs k) as [c|] eqn:Hk; [|discriminate].
    pose proof (node_at_id_in c path n Hn) as Hin.
    destruct (String.eqb_spec i (id n)) as [E|E].
    { exfalso. apply Hnotin. rewrite E. apply in_flat_map.
      exists c. split; [eapply nth_error_In; eauto|exact Hin]. }
    rewrite Forall_forall in IH.
    rewrite (find_in_children_at (id n) cs 0 k c path Hk).
    + reflexivity.
    + apply (IH c (nth_error_In _ _ Hk)); [|exact Hn].
      eapply NoDup_flat_map_each; eauto. eapply nth_error_In; eauto.
    + intros j' c' Hlt Hj'. apply find_node_none. intros Hin'.
      assert (j' = k) by (eapply (NoDup_flat_map_nth node_ids cs Hnd'); eauto).
      lia.
Qed.

(** X7.  Looking a node up by its id.  [get_node_by_id] returns a node
    with the id asked for, and [None] exactly when no node has it; when
    the ids of the tree are pairwise distinct, looking up the id of a node
    returns that very node. *)
Theorem get_node_by_id_finds (root : TreeNode) :
  (forall target_id path,
      find_node root target_id = Some path ->
      exists n, node_at root path = Some n /\ id n = target_id)
  /\ (forall target_id,
         find_node root target_id = None <-> ~ In target_id (node_ids root))
  /\ (NoDup (node_ids root) ->
      forall path n,
        node_at root path = Some n -> find_node root (id n) = Some path).
Proof.
  split; [apply find_node_sound|].
  split; [apply find_node_none|apply find_node_finds_itself].
Qed.

Lemma get_node_by_id_finds_witness :
  exists n,
    node_at example_tree [0; 1] = Some n
    /\ find_node example_tree (id n) = Some [0; 1].
Proof.
  eexists. split; [reflexivity|].
  apply (proj2 (proj2 (get_node_by_id_finds example_tree))).
  - repeat constructor; simpl; intuition discriminate.
  - reflexivity.
Defined.

(** A field that does not depend on the children, after an assignment
    that keeps the children. *)
Lemma field_update_at {B : Type} (g : TreeNode -> B) (f : TreeNode -> TreeNode) :
  (forall n, children (f n) = children n) ->
  (forall n cs, g (set_children n cs) = g n) ->
  forall q root p,
    option_map g (node_at (update_at f root q) p)
    = if list_eq_dec Nat.eq_dec p q
      then option_map (fun n => g (f n)) (node_at root p)
      else option_map g (node_at root p).
Proof.
  intros Hchildren Hset. induction q as [|i q IH]; intros root p.
  - cbn [update_at]. destruct p as [|j p].
    + destruct (list_eq_dec Nat.eq_dec [] []); [reflexivity|congruence].
    + destruct (list_eq_dec Nat.eq_dec (j :: p) []); [discriminate|].
      cbn [node_at]. rewrite Hchildren. reflexivity.
  - cbn [update_at]. destruct p as [|j p].
    + destruct (list_eq_dec Nat.eq_dec [] (i :: q)); [discriminate|].
      cbn [node_at option_map]. rewrite Hset. reflexivity.
    + cbn [node_at]. rewrite children_set_children, nth_error_update_nth.
      destruct (Nat.eqb_spec i j) as [E|E].
      * subst j. destruct (nth_error (children root) i) as [c|];
          cbn [option_map].
        -- rewrite IH.
           destruct (list_eq_dec Nat.eq_dec p q),
                    (list_eq_dec Nat.eq_dec (i :: p) (i :: q));
             congruence.
        -- destruct (list_eq_dec Nat.eq_dec (i :: p) (i :: q)); reflexivity.
      * destruct (list_eq_dec Nat.eq_dec (j :: p) (i :: q)); [congruence|].
        reflexivity.
Qed.

Lemma dict_keys_NoDup l :
  forall seen,
    NoDup l -> (forall k, In k l -> ~ In k seen) -> dict_keys seen l = l.
Proof.
  induction l as [|x l IH]; intros seen Hnd Hseen; [reflexivity|].
  inversion Hnd as [|y l' Hnotin Hnd']; subst. cbn [dict_keys].
  destruct (in_dec string_dec x seen) as [Hin|_].
  - exfalso. apply (Hseen x); [left; reflexivity|exact Hin].
  - f_equal. apply IH; [exact Hnd'|].
    intros k Hk [E|Hin].
    + subst. contradiction.
    + apply (Hseen k); [right; exact Hk|exact Hin].
Qed.

Lemma clear_stats_no_stats root :
  all_nodes no_stats root = true -> clear_stats root = root.
Proof.
  induction root as [i v cs d m a0 b0 pr vi wi IH] using TreeNode_nested_ind.
  intros H. rewrite all_nodes_unfold in H. apply andb_true_iff in H.
  destruct H as [Hn Hcs]. unfold no_stats in Hn. simpl in Hn, Hcs.
  apply andb_true_iff in Hn. destruct Hn as [Hv Hw].
  apply Nat.eqb_eq in Hv. apply Nat.eqb_eq in Hw. subst. simpl. f_equal.
  induction IH as [|c cs Hc Hrest IHrest]; [reflexivity|].
  simpl in Hcs. apply andb_true_iff in Hcs. destruct Hcs as [H1 H2].
  simpl. rewrite (Hc H1), (IHrest H2). reflexivity.
Qed.

Lemma reset_statistics_covers keys :
  forall root,
    NoDup (node_ids root) ->
    (forall k, In k keys -> In k (node_ids root)) ->
    (forall path n, node_at root path = Some n -> ~ In (id n) keys ->
                    no_stats n = true) ->
    exists root',
      reset_statistics root keys = Ok root'
      /\ clear_stats root' = clear_stats root
      /\ all_nodes no_stats root' = true.
Proof.
  induction keys as [|key keys IH]; intros root Hnd Hkeys Hdone.
  - exists root. split; [reflexivity|]. split; [reflexivity|].
    apply all_nodes_intro. intros path n Hn. apply (Hdone path n Hn). auto.
  - cbn [reset_statistics].
    destruct (find_node_some root key (Hkeys key (or_introl eq_refl)))
      as [found Hfound].
    rewrite Hfound.
    set (root1 := update_at (fun n => set_stats n 0 0) root found).
    assert (Hclear : clear_stats root1 = clear_stats root).
    { apply clear_stats_update_at. intros [ ]. reflexivity. }
    assert (Hids : node_ids root1 = node_ids root).
    { rewrite <- node_ids_clear_stats, Hclear. apply node_ids_clear_stats. }
    destruct (IH root1) as [root' [Hrun [Hc Hall]]].
    + rewrite Hids. exact Hnd.
    + intros k Hk. rewrite Hids. apply Hkeys. right. exact Hk.
    + intros path n1 Hn1 Hnotin.
      pose proof (field_update_at (fun n => (id n, no_stats n))
                    (fun n => set_stats n 0 0)
                    ltac:(intros [ ]; reflexivity)
                    ltac:(intros [ ] cs; reflexivity)
                    found root path) as Hfield.
      fold root1 in Hfield. rewrite Hn1 in Hfield. cbn [option_map] in Hfield.
      destruct (node_at root path) as [n0|] eqn:Hn0;
        [|destruct (list_eq_dec Nat.eq_dec path found); discriminate].
      destruct (list_eq_dec Nat.eq_dec path found) as [E|E];
        cbn [option_map] in Hfield; inversion Hfield as [[Hid Hno]].
      * rewrite Hno. destruct n0; reflexivity.
      * rewrite Hno. apply (Hdone path n0 Hn0). rewrite <- Hid.
        intros [Ek|Hin]; [|contradiction].
        apply E. pose proof (find_node_finds_itself root Hnd path n0 Hn0) as H.
        rewrite <- Hid, <- Ek, Hfound in H. congruence.
    + exists root'. split; [exact Hrun|]. split; [congruence|exact Hall].
Qed.

(** X8.  Initialising the statistics.  When the ids of the tree are
    pairwise distinct, the loop at the start of [run_mcts] ends without
    error with every node at [visits = 0] and [wins = 0], whatever the
    counters were before, and with nothing else changed. *)
Theorem reset_statistics_resets_all (root : TreeNode) :
  NoDup (node_ids root) ->
  reset_statistics root (node_objects_keys root) = Ok (clear_stats root).
Proof.
  intros Hnd.
  destruct (reset_statistics_covers (node_objects_keys root) root Hnd)
    as [root' [Hrun [Hclear Hall]]].
  - intros k Hk. eapply dict_keys_subset; eauto.
  - intros path n Hn Hnotin. exfalso. apply Hnotin.
    unfold node_objects_keys. rewrite dict_keys_NoDup; auto.
    eapply node_at_id_in; eauto.
  - rewrite Hrun. f_equal. rewrite <- Hclear.
    symmetry. apply clear_stats_no_stats. exact Hall.
Qed.

Lemma reset_statistics_resets_all_witness :
  reset_statistics fully_visited_root (node_objects_keys fully_visited_root)
  = Ok (clear_stats fully_visited_root).
Proof.
  apply (reset_statistics_resets_all fully_visited_root).
  repeat constructor; simpl; intuition discriminate.
Defined.

(** ** Selection and simulation *)

Lemma all_visited_false cs :
  all_visited cs = false -> exists c, In c cs /\ visits c = 0.
Proof.
  induction cs as [|x cs IH]; intros H; [discriminate|].
  simpl in H. apply andb_false_iff in H. destruct H as [H|H].
  - exists x. split; [left; reflexivity|].
    apply Nat.ltb_ge in H. lia.
  - destruct (IH H) as [c [Hin Hc]]. exists c. split; [right; exact Hin|exact Hc].
Qed.

(** X9.  Selection.  For every exploration weight that is a real number
    ([NaN] and the infinities are not numbers of the model),
    [mcts_selection] started at the root ends without error, at a node of
    the tree that is a leaf or has a child without visits; unless it is
    the root itself, the node it returns has been visited. *)
Theorem mcts_selection_returns (root : TreeNode) (w : R) (g : rng) :
  exists a sel g',
    mcts_selection root [] w g = Ok (a, sel, g')
    /\ deref root a = Some sel
    /\ (children sel = [] \/ exists c, In c (children sel) /\ visits c = 0)
    /\ (a <> [] -> visits sel <> 0).
Proof.
  destruct (mcts_selection_total w root [] g)
    as [p [sel [g' [Hsel [Hat [Hstop Hvisited]]]]]].
  rewrite app_nil_r in Hsel. exists p, sel, g'.
  split; [exact Hsel|]. split; [exact Hat|]. split; [|exact Hvisited].
  apply andb_false_iff in Hstop. destruct Hstop as [H|H].
  - left. unfold has_children in H. destruct (children sel); [reflexivity|discriminate].
  - right. apply all_visited_false. exact H.
Qed.

Lemma mcts_simulation_unfold node g :
  mcts_simulation node g
  = match children node with
    | [] =>
        match value node with
        | Some r => Ok (r, g)
        | None => let (r, g') := random_randint01 g in Ok (Fin r, g')
        end
    | _ :: _ =>
        '(k, g') <- random_index g (List.length (children node)) ;;
        nth k (map (fun next_node => mcts_simulation next_node g')
                   (children node))
            (Raise IndexError)
    end.
Proof. destruct node as [i v [|c cs] d m a b p vi w]; reflexivity. Qed.

(** X10.  Simulation.  [mcts_simulation] always ends, at a leaf under the
    node it starts from; its result is the value of that leaf, or 0 or 1
    when the leaf has no value. *)
Theorem mcts_simulation_ends_at_leaf (node : TreeNode) :
  forall g,
    exists r g' path leaf,
      mcts_simulation node g = Ok (r, g')
      /\ node_at node path = Some leaf
      /\ children leaf = []
      /\ (value leaf = Some r
          \/ (value leaf = None /\ (r = Fin 0%Z \/ r = Fin 1%Z))).
Proof.
  induction node as [i v cs d m a0 b0 pr vi wi IH] using TreeNode_nested_ind.
  intros g. rewrite mcts_simulation_unfold. cbn [children value].
  destruct cs as [|c cs].
  - destruct v as [r|].
    + exists r, g, [], (mkTreeNode i (Some r) [] d m a0 b0 pr vi wi).
      repeat split. left. reflexivity.
    + unfold random_randint01.
      exists (Fin (Z.of_nat (g 0 mod 2))), (next g), [],
             (mkTreeNode i None [] d m a0 b0 pr vi wi).
      split; [reflexivity|]. split; [reflexivity|]. split; [reflexivity|].
      right. split; [reflexivity|].
      assert (H : g 0 mod 2 < 2) by (apply Nat.mod_upper_bound; discriminate).
      destruct (g 0 mod 2) as [|[|n]]; [left|right|lia]; reflexivity.
  - unfold random_index. cbn [List.length bind]. cbv beta iota.
    assert (Hlt : g 0 mod S (List.length cs) < List.length (c :: cs))
      by (apply Nat.mod_upper_bound; discriminate).
    destruct (nth_error (c :: cs) (g 0 mod S (List.length cs))) as [x|] eqn:Hx;
      [|apply nth_error_None in Hx; lia].
    rewrite (nth_map_nth_error _ (c :: cs) _ x _ Hx).
    rewrite Forall_forall in IH.
    destruct (IH x (nth_error_In _ _ Hx) (next g))
      as [r [g' [path [leaf [Hrun [Hat Hleaf]]]]]].
    exists r, g', (g 0 mod S (List.length cs) :: path), leaf.
    split; [exact Hrun|]. split; [|exact Hleaf].
    cbn [node_at children]. rewrite Hx. exact Hat.
Qed.

(** ** The number of iterations and the final recommendation *)

Lemma unvisited_from_nil cs :
  forall i, unvisited_from i cs = [] <-> all_visited cs = true.
Proof.
  induction cs as [|c cs IH]; intros i; simpl; [tauto|].
  destruct (Nat.eqb_spec (visits c) 0) as [E|E].
  - rewrite E. simpl. split; discriminate.
  - replace (Nat.ltb 0 (visits c)) with true
      by (symmetry; apply Nat.ltb_lt; lia).
    simpl. apply IH.
Qed.


Lemma unvisited_from_length_shift cs :
  forall i k,
    List.length (unvisited_from i cs) = List.length (unvisited_from k cs).
Proof.
  induction cs as [|x cs IH]; intros i k; [reflexivity|].
  cbn [unvisited_from]. destruct (Nat.eqb (visits x) 0); simpl;
    rewrite (IH (S i) (S k)); reflexivity.
Qed.



Lemma visits_record_result r n : visits (record_result r n) = S (visits n).
Proof. destruct n; reflexivity. Qed.











(** ** main and construct *)

Lemma run_minimax_game_value pruning root :
  unpruned root = true ->
  leaves_valued root = true ->
  exists after, run_minimax pruning root = Ok (Some (game_value root), after).
Proof.
  intros Hun Hval. unfold run_minimax. destruct pruning.
  - destruct (minimax_sound root Hun Hval NegInf PosInf eq_refl)
      as [v [c1 [Hrun HS]]].
    apply window_sound_open in HS. subst v. eauto.
  - apply minimax_plain; assumption.
Qed.

(** X12.  The command line.  [--algorithm alphabeta] searches with
    pruning whatever the configuration file says, [--algorithm minimax]
    with the pruning the file asks for (none by default), and on a tree
    file with an id on every node and a value on every leaf the two end on
    the same optimal value, whatever the configuration file. *)
Theorem minimax_and_alphabeta_agree (s : settings) (data : json_node) (g : rng) :
  id_missing data = false ->
  json_leaves_valued data = true ->
  get (pruning (file (main_settings Alphabeta s))) false = true
  /\ get (pruning (file (main_settings Minimax s))) false
     = get (pruning (file s)) false
  /\ exists z root root',
      scene (main_settings Minimax s) (Document (Some data)) g
      = Ok (MinimaxDone (Some (Fin z)) root)
      /\ scene (main_settings Alphabeta s) (Document (Some data)) g
         = Ok (MinimaxDone (Some (Fin z)) root').
Proof.
  intros Hid Hval.
  split; [reflexivity|]. split.
  { unfold main_settings. cbn [file].
    destruct (negb (get (pruning (file s)) false)); reflexivity. }
  pose proof (build_subtree_outcome data 0 true) as Hbuild.
  destruct (_build_subtree data 0 true) as [root|e] eqn:Hroot;
    [|destruct Hbuild; congruence].
  destruct (build_subtree_fresh _ _ _ _ Hroot) as [Hun _].
  pose proof (leaves_valued_build_subtree _ _ _ _ Hval Hroot) as Hleaves.
  destruct (minimax_follows_contract false root Hun Hleaves NegInf PosInf)
    as [_ [z [c3 Hrun3]]].
  destruct (run_minimax_game_value false root Hun Hleaves) as [c0 Hrun0].
  unfold run_minimax in Hrun0. rewrite Hrun3 in Hrun0.
  inversion Hrun0 as [[Hz Hc]].
  destruct (run_minimax_game_value
              (get (pruning (file (main_settings Minimax s))) false)
              root Hun Hleaves) as [c1 Hrun1].
  destruct (run_minimax_game_value true root Hun Hleaves) as [c2 Hrun2].
  exists z, c1, c2. unfold scene. cbn [build_tree]. rewrite Hroot. cbn [bind].
  split.
  - replace (algorithm (main_settings Minimax s)) with (Some Minimax)
      by (unfold main_settings; cbn [file];
          destruct (negb (get (pruning (file s)) false)); reflexivity).
    rewrite Hrun1, <- Hz. reflexivity.
  - cbn [main_settings algorithm file pruning get].
    rewrite Hrun2, <- Hz. reflexivity.
Qed.

Lemma minimax_and_alphabeta_agree_witness :
  exists z root root',
    scene (main_settings Minimax
             (mkSettings (mkConfig (Some false) None None) None None))
          example_document always_zero
    = Ok (MinimaxDone (Some (Fin z)) root)
    /\ scene (main_settings Alphabeta
                (mkSettings (mkConfig (Some false) None None) None None))
             example_document always_zero
       = Ok (MinimaxDone (Some (Fin z)) root').
Proof.
  apply (proj2 (proj2 (minimax_and_alphabeta_agree
                         (mkSettings (mkConfig (Some false) None None) None None)
                         (JNode (Some "root"%string) None
                            [ JNode (Some "A"%string) None
                                [ leaf_data "a1" 3; leaf_data "a2" 5 ];
                              JNode (Some "B"%string) None
                                [ leaf_data "b1" 2; leaf_data "b2" 9 ] ])
                         always_zero eq_refl eq_refl))).
Defined.

(** ** The visit counters of a search *)

Lemma update_nth_ext {A : Type} (f g : A -> A) i :
  forall l, (forall x, In x l -> f x = g x) -> update_nth f i l = update_nth g i l.
Proof.
  induction i as [|i IH]; intros [|x l] H; simpl; try reflexivity.
  - rewrite (H x); [reflexivity|left; reflexivity].
  - rewrite IH; [reflexivity|]. intros y Hy. apply H. right. exact Hy.
Qed.

Lemma update_nth_twice {A : Type} (f g : A -> A) i :
  forall l, update_nth g i (update_nth f i l) = update_nth (fun x => g (f x)) i l.
Proof.
  induction i as [|i IH]; intros [|x l]; simpl; try reflexivity.
  rewrite IH. reflexivity.
Qed.

Lemma set_children_twice n cs cs' :
  set_children (set_children n cs) cs' = set_children n cs'.
Proof. destruct n; reflexivity. Qed.

Lemma record_along_last r q :
  forall node x,
    record_along r (update_at (record_result r) node (q ++ [x])) q
    = record_along r node (q ++ [x]).
Proof.
  induction q as [|i q IH]; intros node x.
  - cbn [app update_at record_along]. reflexivity.
  - cbn [app update_at record_along].
    rewrite children_set_children, set_children_twice, update_nth_twice.
    f_equal. f_equal. apply update_nth_ext. intros c _. apply IH.
Qed.

(** The loop over [current.parent] records the result along the path from
    the root to [current]. *)
Lemma mcts_backpropagation_along r current :
  forall root,
    mcts_backpropagation root current r = record_along r root (rev current).
Proof.
  induction current as [|x up IH]; intros root.
  - reflexivity.
  - cbn [mcts_backpropagation]. rewrite IH. unfold assign. cbn [rev].
    apply record_along_last.
Qed.

Lemma visits_record_along r path node :
  visits (record_along r node path) = S (visits node).
Proof.
  destruct path; cbn [record_along]; rewrite visits_record_result;
    [reflexivity|destruct node; reflexivity].
Qed.

Lemma list_sum_update_nth (f : TreeNode -> TreeNode) i :
  forall cs c,
    nth_error cs i = Some c ->
    visits (f c) = S (visits c) ->
    list_sum (map visits (update_nth f i cs)) = S (list_sum (map visits cs)).
Proof.
  induction i as [|i IH]; intros [|x cs] c Hc Hf; try discriminate.
  - injection Hc as ->. simpl. rewrite Hf. reflexivity.
  - simpl. rewrite (IH cs c Hc Hf). lia.
Qed.

Lemma forallb_update_nth_at {A : Type} (p : A -> bool) (f : A -> A) i :
  forall l x,
    forallb p l = true ->
    nth_error l i = Some x ->
    p (f x) = true ->
    forallb p (update_nth f i l) = true.
Proof.
  induction i as [|i IH]; intros [|y l] x Hall Hx Hf; try discriminate.
  - injection Hx as ->. simpl in *. apply andb_true_iff in Hall.
    destruct Hall as [_ Hall]. rewrite Hf, Hall. reflexivity.
  - simpl in *. apply andb_true_iff in Hall. destruct Hall as [Hy Hall].
    rewrite Hy. cbn [andb]. eapply IH; eauto.
Qed.

Lemma visits_add_up_unvisited n :
  visits_add_up n = true -> visits n = 0 ->
  list_sum (map visits (children n)) = 0.
Proof.
  unfold visits_add_up. intros H Hz. destruct (children n) as [|c cs];
    [reflexivity|].
  rewrite Hz in H. apply Nat.eqb_eq in H. simpl in H. simpl. lia.
Qed.

Lemma all_visited_sum cs :
  cs <> [] -> all_visited cs = true -> 0 < list_sum (map visits cs).
Proof.
  destruct cs as [|c cs]; [congruence|]. intros _ H. simpl in H.
  apply andb_true_iff in H. destruct H as [H _]. apply Nat.ltb_lt in H.
  simpl. lia.
Qed.

(** Where the counters add up, a node whose children are all visited is
    visited itself. *)
Lemma visits_add_up_visited n :
  visits_add_up n = true ->
  has_children n && all_visited (children n) = true ->
  0 < visits n.
Proof.
  intros Hsum H. apply andb_true_iff in H. destruct H as [Hhas Hall].
  assert (Hne : children n <> []).
  { unfold has_children in Hhas. destruct (children n); congruence. }
  pose proof (all_visited_sum _ Hne Hall) as Hpos.
  destruct (Nat.eq_dec (visits n) 0) as [Hz|Hz]; [|lia].
  rewrite (visits_add_up_unvisited n Hsum Hz) in Hpos. lia.
Qed.

(** Recording a result along an expansion path keeps the counters adding
    up. *)
Lemma record_along_adds_up r path :
  forall node,
    all_nodes visits_add_up node = true ->
    expansion_path node path = true ->
    all_nodes visits_add_up (record_along r node path) = true.
Proof.
  induction path as [|i path IH]; intros node Hinv Hpath.
  - cbn [record_along]. rewrite all_nodes_unfold in *.
    apply andb_true_iff in Hinv. destruct Hinv as [Hn Hcs].
    rewrite children_record_result, Hcs, andb_true_r.
    unfold visits_add_up. rewrite children_record_result, visits_record_result.
    destruct (children node) as [|c cs] eqn:Hch; [reflexivity|].
    cbn [expansion_path] in Hpath. unfold has_children in Hpath.
    rewrite Hch in Hpath. cbn [negb orb] in Hpath. apply Nat.eqb_eq in Hpath.
    pose proof (visits_add_up_unvisited node Hn Hpath) as Hsum.
    rewrite Hch in Hsum. rewrite Hsum, Hpath. reflexivity.
  - cbn [record_along]. cbn [expansion_path] in Hpath.
    apply andb_true_iff in Hpath. destruct Hpath as [Hv Hpath].
    apply Nat.ltb_lt in Hv.
    destruct (nth_error (children node) i) as [c|] eqn:Hc; [|discriminate].
    rewrite all_nodes_unfold in *.
    apply andb_true_iff in Hinv. destruct Hinv as [Hn Hcs].
    rewrite children_record_result, children_set_children.
    assert (Hin : In c (children node)) by (eapply nth_error_In; eauto).
    assert (Hcinv : all_nodes visits_add_up c = true).
    { rewrite forallb_forall in Hcs. apply Hcs. exact Hin. }
    rewrite (forallb_update_nth_at _ _ i (children node) c Hcs Hc
               (IH c Hcinv Hpath)), andb_true_r.
    unfold visits_add_up.
    rewrite children_record_result, children_set_children,
      visits_record_result.
    pose proof (list_sum_update_nth (fun child => record_along r child path)
                  i (children node) c Hc (visits_record_along r path c)) as Hs.
    destruct (update_nth _ i (children node)) as [|c' cs'] eqn:Hup.
    { reflexivity. }
    rewrite Hs. unfold visits_add_up in Hn.
    destruct (children node) as [|c0 cs0] eqn:Hch; [destruct i; discriminate|].
    apply Nat.eqb_eq in Hn. apply Nat.eqb_eq.
    replace (visits (set_children node (c' :: cs'))) with (visits node)
      by (destruct node; reflexivity).
    destruct (Nat.eqb (visits node) 0) eqn:Hz;
      [apply Nat.eqb_eq in Hz; lia|].
    cbn [Nat.eqb]. lia.
Qed.

(** The selection loop ends, and the address it returns is a selection
    path. *)
Lemma mcts_selection_path w node :
  forall current g,
    exists p sel g',
      mcts_selection node current w g = Ok (p ++ current, sel, g')
      /\ node_at node (rev p) = Some sel
      /\ selection_path node (rev p) = true.
Proof.
  induction node as [i v cs d m a0 b0 pr vi wi IH] using TreeNode_nested_ind.
  intros current g.
  set (node := mkTreeNode i v cs d m a0 b0 pr vi wi).
  rewrite mcts_selection_unfold. change (children node) with cs.
  destruct (has_children node && all_visited cs) eqn:E.
  - pose proof E as E'.
    apply andb_true_iff in E. destruct E as [Hhas Hvis].
    assert (Hne : children node <> []).
    { unfold has_children in Hhas. destruct (children node); congruence. }
    destruct (get_best_child_visited node w Hne Hvis)
      as [best [Hbest [Hrun Hin]]].
    rewrite Hrun.
    destruct (random_choice_in g best Hbest) as [k [Hk Hkin]].
    rewrite Hk. cbn [bind]. cbv beta iota.
    apply Hin in Hkin. destruct Hkin as [c [Hc _]].
    change (children node) with cs in Hc.
    rewrite (nth_map_nth_error _ cs k c _ Hc).
    rewrite Forall_forall in IH.
    destruct (IH c (nth_error_In _ _ Hc) (k :: current) (next g))
      as [p [sel [g' [Hsel [Hat Hpath]]]]].
    exists (p ++ [k]), sel, g'. rewrite <- app_assoc. cbn [app].
    split; [exact Hsel|]. rewrite rev_unit.
    cbn [node_at selection_path]. change (children node) with cs.
    rewrite Hc, E'. split; [exact Hat|exact Hpath].
  - exists [], node, g. cbn [app rev node_at selection_path].
    change (children node) with cs. rewrite E. repeat split.
Qed.

(** Under the invariant, the node the selection ends at, or the child the
    expansion adds, is reached by an expansion path. *)
Lemma selection_then_expansion q :
  forall node sel,
    all_nodes visits_add_up node = true ->
    selection_path node q = true ->
    node_at node q = Some sel ->
    (has_children sel = false \/ visits sel = 0
     \/ all_visited (children sel) = true ->
     expansion_path node q = true)
    /\ (forall k c,
           visits sel <> 0 ->
           nth_error (children sel) k = Some c ->
           visits c = 0 ->
           expansion_path node (q ++ [k]) = true).
Proof.
  induction q as [|i q IH]; intros node sel Hinv Hpath Hat.
  - cbn [node_at] in Hat. injection Hat as <-.
    cbn [selection_path] in Hpath. cbn [app expansion_path]. split.
    + intros [H|[H|H]].
      * rewrite H. reflexivity.
      * rewrite H. apply orb_true_r.
      * rewrite H, andb_true_r in Hpath. rewrite Hpath. reflexivity.
    + intros k c Hv Hc Hz. rewrite Hc, Hz.
      assert (Hlt : Nat.ltb 0 (visits node) = true) by (apply Nat.ltb_lt; lia).
      rewrite Hlt. cbn [andb Nat.eqb]. apply orb_true_r.
  - cbn [selection_path] in Hpath. apply andb_true_iff in Hpath.
    destruct Hpath as [Hall Hpath].
    cbn [node_at] in Hat.
    destruct (nth_error (children node) i) as [child|] eqn:Hchild;
      [|discriminate].
    rewrite all_nodes_unfold in Hinv. apply andb_true_iff in Hinv.
    destruct Hinv as [Hn Hcs].
    pose proof (visits_add_up_visited node Hn Hall) as Hv.
    apply Nat.ltb_lt in Hv.
    assert (Hcinv : all_nodes visits_add_up child = true).
    { rewrite forallb_forall in Hcs. apply Hcs.
      eapply nth_error_In; eauto. }
    destruct (IH child sel Hcinv Hpath Hat) as [Hend Hnew].
    split.
    + intros H. cbn [expansion_path]. rewrite Hv, Hchild. apply (Hend H).
    + intros k c Hs Hc Hz. cbn [app expansion_path]. rewrite Hv, Hchild.
      apply (Hnew k c Hs Hc Hz).
Qed.

(** One iteration keeps the counters adding up. *)
Lemma mcts_iteration_adds_up root w g :
  all_nodes visits_add_up root = true ->
  exists root' g',
    mcts_iteration root w g = Ok (root', g')
    /\ all_nodes visits_add_up root' = true.
Proof.
  intros Hinv.
  destruct (mcts_selection_path w root [] g)
    as [p [sel [g1 [Hsel [Hat Hpath]]]]].
  rewrite app_nil_r in Hsel.
  destruct (selection_then_expansion (rev p) root sel Hinv Hpath Hat)
    as [Hend Hnew].
  assert (Hexp : exists expanded exp_node g2,
             expansion_phase p sel g1 = Ok (expanded, exp_node, g2)
             /\ expansion_path root (rev expanded) = true).
  { destruct (expansion_phase_cases p sel g1) as [Hsame Hchild].
    destruct (Nat.eq_dec (visits sel) 0) as [Hz|Hnz].
    - exists p, sel, g1. split; [apply Hsame; left; exact Hz|].
      apply Hend. right. left. exact Hz.
    - destruct (unvisited_from 0 (children sel)) as [|u us] eqn:Hu.
      + exists p, sel, g1. split; [apply Hsame; right; reflexivity|].
        apply Hend. right. right. apply (unvisited_from_nil _ 0). exact Hu.
      + destruct (Hchild Hnz ltac:(discriminate))
          as [k [child [Hrun [Hk Hzero]]]].
        exists (k :: p), child, (next g1). split; [exact Hrun|].
        cbn [rev]. apply (Hnew k child Hnz Hk Hzero). }
  destruct Hexp as [expanded [exp_node [g2 [Hexp Hgood]]]].
  destruct (mcts_simulation_total exp_node g2) as [r [g3 Hsim]].
  exists (mcts_backpropagation root expanded r), g3.
  unfold mcts_iteration. rewrite Hsel. cbn [bind]. cbv beta iota.
  rewrite Hexp. cbn [bind]. cbv beta iota. rewrite Hsim. cbn [bind].
  cbv beta iota. split; [reflexivity|].
  rewrite mcts_backpropagation_along.
  apply record_along_adds_up; assumption.
Qed.

Lemma mcts_iterations_loop_adds_up n :
  forall root w g,
    all_nodes visits_add_up root = true ->
    exists root' g',
      mcts_iterations_loop n root w g = Ok (root', g')
      /\ all_nodes visits_add_up root' = true.
Proof.
  induction n as [|n IH]; intros root w g Hinv.
  - exists root, g. split; [reflexivity|exact Hinv].
  - cbn [mcts_iterations_loop].
    destruct (mcts_iteration_adds_up root w g Hinv) as [root1 [g1 [Hit Hinv1]]].
    rewrite Hit. cbn [bind]. cbv beta iota. apply IH. exact Hinv1.
Qed.

Lemma no_stats_adds_up root :
  all_nodes no_stats root = true -> all_nodes visits_add_up root = true.
Proof.
  induction root as [i v cs d m a0 b0 pr vi wi IH] using TreeNode_nested_ind.
  intros H. rewrite all_nodes_unfold in *. apply andb_true_iff in H.
  destruct H as [Hn Hcs]. cbn [children] in *.
  assert (Hsum : list_sum (map visits cs) = 0
                 /\ forallb (all_nodes visits_add_up) cs = true).
  { clear Hn. induction IH as [|c cs' Hc Hrest IHrest]; [split; reflexivity|].
    simpl in Hcs. apply andb_true_iff in Hcs. destruct Hcs as [H1 H2].
    destruct (IHrest H2) as [Hs Hall]. split.
    - change (list_sum (map visits (c :: cs')))
        with (visits c + list_sum (map visits cs')).
      rewrite all_nodes_unfold in H1. apply andb_true_iff in H1.
      destruct H1 as [H1 _]. unfold no_stats in H1.
      apply andb_true_iff in H1. destruct H1 as [H1 _].
      apply Nat.eqb_eq in H1. rewrite H1, Hs. reflexivity.
    - cbn [forallb]. rewrite (Hc H1), Hall. reflexivity. }
  destruct Hsum as [Hs Hall]. rewrite Hall, andb_true_r.
  unfold no_stats in Hn. apply andb_true_iff in Hn. destruct Hn as [Hv _].
  cbn [visits] in Hv. apply Nat.eqb_eq in Hv. subst vi.
  unfold visits_add_up. cbn [children visits].
  destruct cs; [reflexivity|]. rewrite Hs. reflexivity.
Qed.

(** The loop at the start of [run_mcts] leaves no statistics when the
    tree had none or when its ids are pairwise distinct. *)
Lemma reset_statistics_clean root :
  all_nodes no_stats root = true \/ NoDup (node_ids root) ->
  exists root0,
    reset_statistics root (node_objects_keys root) = Ok root0
    /\ all_nodes no_stats root0 = true.
Proof.
  intros [Hno|Hnd].
  - destruct (reset_statistics_total (node_objects_keys root) root)
      as [root0 [Hreset [_ [_ Hsame]]]].
    { intros k Hk. eapply dict_keys_subset; eauto. }
    exists root0. split; [exact Hreset|]. rewrite (Hsame Hno). exact Hno.
  - destruct (reset_statistics_covers (node_objects_keys root) root Hnd)
      as [root' [Hrun [_ Hall]]].
    + intros k Hk. eapply dict_keys_subset; eauto.
    + intros path n Hn Hnotin. exfalso. apply Hnotin.
      unfold node_objects_keys. rewrite dict_keys_NoDup; auto.
      eapply node_at_id_in; eauto.
    + exists root'. split; assumption.
Qed.

(** X13.  The visit counters of a search.  On a tree without statistics,
    or whose ids are pairwise distinct, and for every exploration weight
    that is a real number ([NaN] and the infinities are not numbers of the
    model), the iterations of [run_mcts] end without error, whatever their
    number, and leave counters that add up at every node with children: a
    visited node has exactly one visit more than its children together,
    and an unvisited node has unvisited children only. *)
Theorem mcts_visits_add_up (cfg : config) (root : TreeNode) (g : rng) :
  all_nodes no_stats root = true \/ NoDup (node_ids root) ->
  exists root' g',
    mcts_search cfg root g = Ok (root', g')
    /\ all_nodes visits_add_up root' = true.
Proof.
  intros H. unfold mcts_search.
  destruct (reset_statistics_clean root H) as [root0 [Hreset Hno]].
  rewrite Hreset. cbn [bind].
  apply mcts_iterations_loop_adds_up. apply no_stats_adds_up. exact Hno.
Qed.

Lemma mcts_visits_add_up_witness :
  exists root' g',
    mcts_search (mkConfig None (Some 7%Z) None) two_leaves_tree always_zero
    = Ok (root', g')
    /\ all_nodes visits_add_up root' = true.
Proof.
  apply (mcts_visits_add_up (mkConfig None (Some 7%Z) None) two_leaves_tree
           always_zero).
  left. reflexivity.
Defined.

(** ** _calculate_positions *)

Lemma assign_positions_unfold h t node lp :
  assign_positions h t node lp
  = match children node with
    | [] =>
        (Placed (leaf_x t lp) (- INR (depth node) * h)%R [], leaf_x t lp, 1,
         S lp)
    | cs =>
        let '(ps, total_width, leftmost_pos, rightmost_pos, lp') :=
          assign_children h t cs lp 0 PosInf NegInf in
        (Placed (midpoint leftmost_pos rightmost_pos)
                (- INR (depth node) * h)%R ps,
         midpoint leftmost_pos rightmost_pos, total_width, lp')
    end.
Proof.
  destruct node as [i v cs d m a0 b0 pr vi wi]. cbn [children depth].
  destruct cs as [|c cs]; [reflexivity|].
  cbn [assign_positions assign_children].
  destruct (assign_positions h t c lp) as [[[p0 x0] width0] lp0].
  match goal with
  | |- ?lhs = _ =>
      match lhs with
      | context [?f cs lp0 (0 + width0) (score_min PosInf x0)
                    (score_max NegInf x0)] =>
          set (loop := f);
          assert (E : forall l a b x y,
                     loop l a b x y = assign_children h t l a b x y)
      end
  end.
  { induction l as [|q l IH]; intros a b x y; [reflexivity|].
    change (loop (q :: l) a b x y)
      with (let '(p, x1, width, a') := assign_positions h t q a in
            let '(ps, b', x', y', a'') :=
              loop l a' (b + width) (score_min x x1) (score_max y x1) in
            (p :: ps, b', x', y', a'')).
    cbn [assign_children].
    destruct (assign_positions h t q a) as [[[p x1] width] a'].
    rewrite IH. reflexivity. }
  rewrite E. reflexivity.
Qed.

Lemma count_leaves_unfold node :
  count_leaves node
  = match children node with
    | [] => 1
    | cs => list_sum (map count_leaves cs)
    end.
Proof. destruct node as [i v [|c cs] d m a0 b0 pr vi wi]; reflexivity. Qed.

Lemma leaf_x_plus t a b : leaf_x t (a + b) = (leaf_x t a + INR b)%R.
Proof. unfold leaf_x. rewrite plus_INR. lra. Qed.

Lemma spaced_weaken xs b b' :
  (b' <= b)%R -> spaced b xs -> spaced b' xs.
Proof. destruct xs; simpl; [tauto|]. intros H [H1 H2]. split; [lra|exact H2]. Qed.

Lemma last_cons {A : Type} (l : list A) x d : last (x :: l) d = last l x.
Proof.
  revert x d. induction l as [|y l IH]; intros x d; [reflexivity|].
  change (last (x :: y :: l) d) with (last (y :: l) d).
  rewrite (IH y d), (IH y x). reflexivity.
Qed.

Lemma last_in {A : Type} (l : list A) d : In (last l d) (d :: l).
Proof.
  revert d. induction l as [|y l IH]; intros d; [left; reflexivity|].
  rewrite last_cons. right. apply IH.
Qed.

Lemma last_map_x (ps : list placed) p :
  last (map x_pos ps) (x_pos p) = x_pos (last ps p).
Proof.
  revert p. induction ps as [|q ps IH]; intros p; [reflexivity|].
  cbn [map]. rewrite !last_cons. apply IH.
Qed.

Lemma fold_min_spaced xs :
  forall l b,
    spaced b xs -> (l <= b)%R -> fold_left score_min xs (Fin l) = Fin l.
Proof.
  induction xs as [|x xs IH]; intros l b Hs Hl; [reflexivity|].
  destruct Hs as [Hx Hs]. cbn [fold_left score_min].
  rewrite Rmin_left by lra. apply (IH l (x + 1)%R Hs). lra.
Qed.

Lemma fold_max_spaced xs :
  forall r b,
    spaced b xs -> (r <= b)%R ->
    fold_left score_max xs (Fin r) = Fin (last xs r).
Proof.
  induction xs as [|x xs IH]; intros r b Hs Hr; [reflexivity|].
  destruct Hs as [Hx Hs]. cbn [fold_left score_max].
  rewrite Rmax_right by lra. rewrite last_cons.
  apply (IH x (x + 1)%R Hs). lra.
Qed.

Lemma spaced_le_last xs :
  forall b d, spaced b xs -> (d <= b)%R -> (d <= last xs d)%R.
Proof.
  induction xs as [|x xs IH]; intros b d Hs Hd; [simpl; lra|].
  destruct Hs as [Hx Hs]. rewrite last_cons.
  pose proof (IH (x + 1)%R x Hs ltac:(lra)). lra.
Qed.

Lemma centred_unfold x y ps :
  centred (Placed x y ps)
  <-> match ps with
      | [] => True
      | first :: rest =>
          x = ((x_pos first + x_pos (last rest first)) / 2)%R
          /\ spaced (x_pos first) (map x_pos ps)
      end
      /\ Forall centred ps.
Proof.
  cbn [centred].
  assert (E : forall l,
             (fix each (l : list placed) : Prop :=
                match l with
                | [] => True
                | q :: l' => centred q /\ each l'
                end) l <-> Forall centred l).
  { induction l as [|q l IH]; [split; constructor|].
    split.
    - intros [H1 H2]. constructor; [exact H1|apply IH; exact H2].
    - intros H. inversion H; subst. split; [assumption|apply IH; assumption]. }
  rewrite E. reflexivity.
Qed.

Lemma assign_children_spec h t l :
  Forall (positions_spec h t) l ->
  forall lp tw lm rm,
    exists ps,
      assign_children h t l lp tw lm rm
      = (ps, tw + list_sum (map count_leaves l),
         fold_left score_min (map x_pos ps) lm,
         fold_left score_max (map x_pos ps) rm,
         lp + list_sum (map count_leaves l))
      /\ flat_map leaf_xs ps
         = map (leaf_x t) (seq lp (list_sum (map count_leaves l)))
      /\ spaced (leaf_x t lp) (map x_pos ps)
      /\ (forall x, In x (map x_pos ps) ->
                    (x <= leaf_x t (lp + list_sum (map count_leaves l)) - 1)%R)
      /\ Forall centred ps
      /\ List.length ps = List.length l.
Proof.
  induction 1 as [|c rest Hc Hrest IH]; intros lp tw lm rm.
  - exists []. cbn [assign_children map list_sum fold_right fold_left seq
                    flat_map spaced List.length].
    rewrite !Nat.add_0_r. repeat split; auto. intros x [].
  - destruct (Hc lp) as [p [Hrun [Hleaves [Hspan Hcentred]]]].
    destruct (IH (lp + count_leaves c) (tw + count_leaves c)
                 (score_min lm (x_pos p)) (score_max rm (x_pos p)))
      as [ps [Hloop [Hls [Hsp [Hup [Hcs Hlen]]]]]].
    exists (p :: ps). cbn [assign_children]. rewrite Hrun, Hloop.
    change (list_sum (map count_leaves (c :: rest)))
      with (count_leaves c + list_sum (map count_leaves rest)).
    rewrite !Nat.add_assoc. split; [reflexivity|].
    split.
    { cbn [flat_map]. rewrite Hleaves, Hls, <- map_app, <- seq_app.
      reflexivity. }
    split.
    { cbn [map spaced]. split; [lra|].
      apply (spaced_weaken _ (leaf_x t (lp + count_leaves c))); [lra|exact Hsp]. }
    split.
    { intros x [Hx|Hx].
      - subst x. rewrite leaf_x_plus.
        pose proof (pos_INR (list_sum (map count_leaves rest))). lra.
      - apply Hup. exact Hx. }
    split; [constructor; assumption|].
    cbn [List.length]. rewrite Hlen. reflexivity.
Qed.

Lemma assign_positions_spec h t node : positions_spec h t node.
Proof.
  induction node as [i v cs d m a0 b0 pr vi wi IH] using TreeNode_nested_ind.
  intros lp. rewrite assign_positions_unfold, count_leaves_unfold.
  cbn [children depth].
  destruct cs as [|c cs].
  - exists (Placed (leaf_x t lp) (- INR d * h)%R []).
    split; [rewrite Nat.add_1_r; reflexivity|].
    cbn [x_pos leaf_xs seq map centred]. rewrite leaf_x_plus. simpl INR.
    repeat split; lra.
  - destruct (assign_children_spec h t (c :: cs) IH lp 0 PosInf NegInf)
      as [ps [Hloop [Hls [Hsp [Hup [Hcs Hlen]]]]]].
    rewrite Hloop. cbn [Nat.add].
    set (total := list_sum (map count_leaves (c :: cs))) in *.
    destruct ps as [|p ps]; [discriminate|].
    cbn [map fold_left score_min score_max spaced] in *.
    destruct Hsp as [Hlo Hsp].
    rewrite (fold_min_spaced _ (x_pos p) (x_pos p + 1)%R Hsp) by lra.
    rewrite (fold_max_spaced _ (x_pos p) (x_pos p + 1)%R Hsp) by lra.
    rewrite last_map_x. cbn [midpoint].
    exists (Placed ((x_pos p + x_pos (last ps p)) / 2)%R (- INR d * h)%R
                   (p :: ps)).
    split; [reflexivity|]. cbn [x_pos].
    assert (Hlast : (x_pos p <= x_pos (last ps p))%R).
    { rewrite <- last_map_x.
      apply (spaced_le_last _ (x_pos p + 1)%R); [exact Hsp|lra]. }
    assert (Hhi : (x_pos (last ps p) <= leaf_x t (lp + total) - 1)%R).
    { apply Hup. rewrite <- last_map_x. apply last_in. }
    assert (Hp : (x_pos p <= leaf_x t (lp + total) - 1)%R).
    { apply Hup. left. reflexivity. }
    split.
    { destruct ps; exact Hls. }
    split; [lra|].
    apply centred_unfold. split; [|exact Hcs].
    split; [reflexivity|]. cbn [map spaced]. split; [lra|exact Hsp].
Qed.

Lemma count_leaves_pos node : 1 <= count_leaves node.
Proof.
  induction node as [i v cs d m a0 b0 pr vi wi IH] using TreeNode_nested_ind.
  rewrite count_leaves_unfold. cbn [children].
  destruct cs as [|c cs]; [lia|].
  inversion IH as [|c' cs' Hc Hcs]; subst.
  change (list_sum (map count_leaves (c :: cs)))
    with (count_leaves c + list_sum (map count_leaves cs)).
  lia.
Qed.

Lemma calculate_positions_spec h root :
  let p := _calculate_positions h root in
  leaf_xs p = map (leaf_x (count_leaves root)) (seq 0 (count_leaves root))
  /\ centred p.
Proof.
  unfold _calculate_positions.
  destruct (assign_positions_spec h (count_leaves root) root 0)
    as [p [Hrun [Hleaves [_ Hcentred]]]].
  rewrite Hrun. cbn [fst]. split; assumption.
Qed.

(** X14.  The layout of the leaves.  [_calculate_positions] puts the
    leaves on consecutive integer steps from left to right: leaf number
    [k] (from 0) at [x_pos = k - total_leaves / 2 - 1.5], whatever the
    shape of the tree.  The row of leaves is therefore centred at
    [x = -2], not at 0: the first and the last leaf add up to [-4]. *)
Theorem calculate_positions_leaves (level_height : R) (root : TreeNode) :
  let xs := leaf_xs (_calculate_positions level_height root) in
  xs = map (fun k => (INR k - INR (count_leaves root) / 2 - 15 / 10)%R)
           (seq 0 (count_leaves root))
  /\ List.length xs = count_leaves root
  /\ forall d, (hd d xs + last xs d = -4)%R.
Proof.
  destruct (calculate_positions_spec level_height root) as [Hleaves _].
  cbv zeta. rewrite Hleaves.
  change (leaf_x (count_leaves root))
    with (fun k => (INR k - INR (count_leaves root) / 2 - 15 / 10)%R).
  split; [reflexivity|].
  split; [rewrite length_map, length_seq; reflexivity|].
  intros d. pose proof (count_leaves_pos root) as Hpos.
  destruct (count_leaves root) as [|n]; [lia|].
  rewrite seq_S, map_app. cbn [map Nat.add]. rewrite last_last.
  destruct n as [|n].
  - cbn [seq map app hd]. simpl INR. lra.
  - cbn [seq map app hd]. rewrite !S_INR. simpl INR. lra.
Qed.

(** X15.  The layout of the inner nodes.  In the positions
    [_calculate_positions] assigns, every node with children lies halfway
    between its first and its last child, and consecutive children are at
    least one unit apart, the left one first: the minimum and the maximum
    the loop keeps are the positions of the first and of the last
    child. *)
Theorem calculate_positions_centred (level_height : R) (root : TreeNode) :
  centred (_calculate_positions level_height root).
Proof. apply (calculate_positions_spec level_height root). Qed.

(** * uniform-random-points/main.py *)

(** A loop whose body adds one point of [P] in every turn ends with
    [n_points] points of [P]. *)
Lemma while_fewer_appending n body (P : Point -> Prop) :
  (forall i points, exists p i', body i points = (points ++ [p], i') /\ P p) ->
  forall k points i fuel,
    Z.to_nat n - List.length points = k ->
    k < fuel ->
    Forall P points ->
    exists points' i',
      while_fewer n body fuel points i = Some (points', i')
      /\ Forall P points'
      /\ List.length points' = Nat.max (List.length points) (Z.to_nat n).
Proof.
  intros Hbody. induction k as [|k IH]; intros points i fuel Hk Hfuel HP.
  - destruct fuel as [|fuel]; [lia|]. cbn [while_fewer].
    destruct (Z.ltb_spec (Z.of_nat (List.length points)) n) as [Hlt|Hge];
      [lia|].
    exists points, i. split; [reflexivity|]. split; [exact HP|lia].
  - destruct fuel as [|fuel]; [lia|]. cbn [while_fewer].
    destruct (Z.ltb_spec (Z.of_nat (List.length points)) n) as [Hlt|Hge];
      [|lia].
    destruct (Hbody i points) as [p [i' [Hrun Hp]]]. rewrite Hrun.
    destruct (IH (points ++ [p]) i' fuel) as [points' [i'' [Hloop [HP' Hlen]]]].
    + rewrite length_app. cbn [List.length]. lia.
    + lia.
    + apply Forall_app. split; [exact HP|]. constructor; [exact Hp|constructor].
    + exists points', i''. split; [exact Hloop|]. split; [exact HP'|].
      rewrite Hlen, length_app. cbn [List.length]. lia.
Qed.

Lemma polar_coordinates_appends s i points :
  exists p i', polar_coordinates s i points = (points ++ [p], i') /\ True.
Proof.
  unfold polar_coordinates. cbn [uniform].
  eexists. eexists. split; [reflexivity|exact I].
Qed.

Lemma inverse_tansform_sampling_appends s i points :
  exists p i',
    inverse_tansform_sampling s i points = (points ++ [p], i') /\ True.
Proof.
  unfold inverse_tansform_sampling. cbn [uniform].
  eexists. eexists. split; [reflexivity|exact I].
Qed.

Lemma infinite_triangle_appends s i points :
  exists p i', infinite_triangle s i points = (points ++ [p], i') /\ True.
Proof.
  unfold infinite_triangle. cbn [uniform].
  eexists. eexists. split; [reflexivity|exact I].
Qed.

(** A turn of the rejection loop adds one point or none. *)
Lemma rejection_sampling_length s i points :
  List.length points <= List.length (fst (rejection_sampling s i points))
  <= S (List.length points).
Proof.
  unfold rejection_sampling. cbn [uniform].
  destruct (Rle_dec _ 1); cbn [fst]; [|lia].
  rewrite length_app. cbn [List.length]. lia.
Qed.

(** A loop whose body adds at most one point ends, if it ends, with
    [n_points] points. *)
Lemma while_fewer_length n body :
  (forall i points,
      List.length points <= List.length (fst (body i points))
      <= S (List.length points)) ->
  forall fuel points i points' i',
    while_fewer n body fuel points i = Some (points', i') ->
    List.length points <= Z.to_nat n ->
    List.length points' = Z.to_nat n.
Proof.
  intros Hbody. induction fuel as [|fuel IH];
    intros points i points' i' Hrun Hlen; [discriminate|].
  cbn [while_fewer] in Hrun.
  destruct (Z.ltb_spec (Z.of_nat (List.length points)) n) as [Hlt|Hge].
  - pose proof (Hbody i points) as Hstep.
    destruct (body i points) as [points1 i1]. cbn [fst] in Hstep.
    apply (IH points1 i1 points' i' Hrun). lia.
  - inversion Hrun; subst. lia.
Qed.

Lemma appends_length (body : nat -> list Point -> list Point * nat) :
  (forall i points,
      exists (p : Point) (i' : nat), body i points = (points ++ [p], i') /\ True) ->
  forall i points,
    List.length points <= List.length (fst (body i points))
    <= S (List.length points).
Proof.
  intros Hbody i points. destruct (Hbody i points) as [p [i' [E _]]].
  rewrite E. cbn [fst]. rewrite length_app. cbn [List.length]. lia.
Qed.

(** X16.  How many points.  Whenever [generate_points] returns, it
    returns exactly [n_points] points (none for a negative number) for
    each of the four cases it knows, ["rejection_sampling"],
    ["polar_coordinates"], ["inverse_tansform_sampling"] and
    ["infinite_triangle"], and no point at all for any other string: the
    inverse transform sampling is known under this spelling only.  For
    every case other than ["rejection_sampling"] it does return, whatever
    the draws, after [n_points] turns of the loop. *)
Theorem generate_points_count
        (s : draws) (n_points : Z) (case : string) (fuel : nat) :
  (forall points,
      generate_points s n_points fuel case = Some points ->
      List.length points = if known_case case then Z.to_nat n_points else 0)
  /\ (case <> "rejection_sampling"%string ->
      Z.to_nat n_points < fuel ->
      exists points, generate_points s n_points fuel case = Some points).
Proof.
  assert (Hcount : forall body points,
             (forall i pts,
                 List.length pts <= List.length (fst (body i pts))
                 <= S (List.length pts)) ->
             option_map fst (while_fewer n_points body fuel [] 0) = Some points ->
             List.length points = Z.to_nat n_points).
  { intros body points Hbody Hrun.
    destruct (while_fewer n_points body fuel [] 0) as [[points' i']|] eqn:E;
      [|discriminate].
    cbn [option_map fst] in Hrun. injection Hrun as <-.
    apply (while_fewer_length n_points body Hbody fuel [] 0 points' i' E).
    cbn [List.length]. lia. }
  assert (Hends : forall body,
             (forall i pts,
                 exists (p : Point) (i' : nat),
                   body i pts = (pts ++ [p], i') /\ True) ->
             Z.to_nat n_points < fuel ->
             exists points,
               option_map fst (while_fewer n_points body fuel [] 0)
               = Some points).
  { intros body Hbody Hfuel.
    destruct (while_fewer_appending n_points body (fun _ => True) Hbody
                (Z.to_nat n_points) [] 0 fuel)
      as [points [i' [Hrun _]]].
    - cbn [List.length]. lia.
    - exact Hfuel.
    - constructor.
    - exists points. rewrite Hrun. reflexivity. }
  unfold generate_points, known_case.
  destruct (String.eqb_spec case "rejection_sampling") as [E1|E1].
  { cbn [orb]. split; [|contradiction].
    intros points. apply Hcount. intros i pts.
    apply rejection_sampling_length. }
  destruct (String.eqb case "polar_coordinates").
  { cbn [orb]. split.
    - intros points. apply Hcount, appends_length.
      intros i pts. apply polar_coordinates_appends.
    - intros _. apply Hends. intros i pts. apply polar_coordinates_appends. }
  destruct (String.eqb case "inverse_tansform_sampling").
  { cbn [orb]. split.
    - intros points. apply Hcount, appends_length.
      intros i pts. apply inverse_tansform_sampling_appends.
    - intros _. apply Hends.
      intros i pts. apply inverse_tansform_sampling_appends. }
  destruct (String.eqb case "infinite_triangle").
  { cbn [orb]. split.
    - intros points. apply Hcount, appends_length.
      intros i pts. apply infinite_triangle_appends.
    - intros _. apply Hends. intros i pts. apply infinite_triangle_appends. }
  cbn [orb]. split.
  - intros points H. injection H as <-. reflexivity.
  - intros _ _. exists []. reflexivity.
Qed.

Lemma generate_points_count_witness :
  (exists points,
      generate_points all_half 3 4 "infinite_triangle" = Some points
      /\ List.length points = 3)
  /\ generate_points all_half 3 4 "inverse_transform_sampling" = Some [].
Proof.
  split.
  - destruct (proj2 (generate_points_count all_half 3 "infinite_triangle" 4))
      as [points Hrun].
    + discriminate.
    + simpl. lia.
    + exists points. split; [exact Hrun|].
      apply (proj1 (generate_points_count all_half 3 "infinite_triangle" 4)
                   points Hrun).
  - reflexivity.
Defined.

Lemma all_zero_in_unit : in_unit all_zero.
Proof. intros i. unfold all_zero. lra. Qed.

(** X18.  Rejection sampling need not end.  When no pair of draws gives a
    point of the disc, the loop of ["rejection_sampling"] never ends for a
    positive [n_points]: the fuel runs out, however much there is.  Draws
    in [[0, 1)] do not exclude it. *)
Theorem rejection_sampling_may_not_end (s : draws) (n_points : Z) (fuel : nat) :
  (forall i, ~ accepted s i) ->
  (0 < n_points)%Z ->
  generate_points s n_points fuel "rejection_sampling" = None.
Proof.
  intros Hrej Hn. unfold generate_points.
  cbn [String.eqb Ascii.eqb Bool.eqb andb].
  assert (Hloop : forall i, while_fewer n_points (rejection_sampling s) fuel [] i
                            = None).
  { induction fuel as [|fuel IH]; intros i; [reflexivity|].
    cbn [while_fewer List.length].
    destruct (Z.ltb_spec (Z.of_nat 0) n_points) as [_|Hge]; [|lia].
    assert (E : rejection_sampling s i [] = ([], S (S i))).
    { unfold rejection_sampling. cbn [uniform].
      destruct (Rle_dec _ 1) as [Hin|_]; [|reflexivity].
      exfalso. apply (Hrej i). exact Hin. }
    rewrite E. apply IH. }
  rewrite Hloop. reflexivity.
Qed.

Lemma rejection_sampling_may_not_end_witness :
  in_unit all_zero
  /\ generate_points all_zero 1 1000 "rejection_sampling" = None.
Proof.
  split; [exact all_zero_in_unit|].
  apply (rejection_sampling_may_not_end all_zero 1 1000).
  - intros i. unfold accepted, in_disc, all_zero. cbn [uniform fst snd]. lra.
  - lia.
Defined.
